(** * google-maps-mcp: the tool-dispatch gateway of [index.js]

    A shallow embedding of the request path of the server: the per-identity
    rate limiter, the four tool handlers, the route aggregation helpers and
    the [CallToolRequestSchema] dispatcher, followed by the properties the
    specification states about them.

    Conventions of the embedding.
    - A JavaScript string is its sequence of UTF-16 code units.
    - Integers that the provider reports (meters, seconds) and millisecond
      timestamps are [Z].  The arithmetic of the cost estimate and of the
      kilometre figures is binary64 ([B64]): every operation returns the
      exact result rounded to the nearest double, a tie going to the even
      significand, and overflows to an infinity.  The two zeros are one
      value: the code never divides by a computed zero and never prints
      the sign of a zero.  The delay ratio of [getTrafficCondition] is an
      exact rational, with the non-finite results of a division by zero.
    - The arguments of a tool call are an object typed as the input schema
      of the tool ([Args]): a key is absent or holds a value of its type.
      A missing [arguments] object, [null], values of another type and keys
      that the schemas do not name are outside the model.
    - [throw] is the [Throw] constructor of [Result]; state that outlives a
      call (the [requestCounts] map, the world outside the process) is
      passed explicitly.
    - [console.log] output is not modelled. *)

From Stdlib Require Import ZArith QArith Qpower Qround Qabs Lqa String Ascii.
From Stdlib Require PrimFloat FloatOps SpecFloat Uint63.
From stdpp Require Import gmap list.

Local Open Scope Z_scope.

(** ** JavaScript strings *)

Module JS.

(** A string is a list of UTF-16 code units. *)
Definition jsstring := list N.

(** A literal of the source text (all of them are ASCII). *)
Definition lit (s : String.string) : jsstring :=
  List.map N_of_ascii (list_ascii_of_string s).

(** ECMAScript [WhiteSpace] and [LineTerminator] code points, the ones
    [String.prototype.trim] removes.  All of them are single code units. *)
Definition isWhiteSpace (c : N) : bool :=
  ((c =? 0x09) || (c =? 0x0A) || (c =? 0x0B) || (c =? 0x0C) || (c =? 0x0D)
   || (c =? 0x20) || (c =? 0xA0) || (c =? 0x1680)
   || ((0x2000 <=? c) && (c <=? 0x200A))
   || (c =? 0x2028) || (c =? 0x2029) || (c =? 0x202F) || (c =? 0x205F)
   || (c =? 0x3000) || (c =? 0xFEFF))%N.

Fixpoint trimStart (s : jsstring) : jsstring :=
  match s with
  | c :: s' => if isWhiteSpace c then trimStart s' else s
  | [] => []
  end.

Definition trimEnd (s : jsstring) : jsstring := rev (trimStart (rev s)).

(** [s.trim()] *)
Definition trim (s : jsstring) : jsstring := trimEnd (trimStart s).

(** [s.split(sep)[0]]: the part of [s] before the first [sep]. *)
Fixpoint split_first (sep : N) (s : jsstring) : jsstring :=
  match s with
  | c :: s' => if (c =? sep)%N then [] else c :: split_first sep s'
  | [] => []
  end.

(** [s?.trim()] *)
Definition optional_trim (s : option jsstring) : option jsstring := trim <$> s.

(** Truthiness of a string that may be [undefined]: the empty string and
    [undefined] are falsy. *)
Definition truthy (s : option jsstring) : bool :=
  match s with
  | Some (_ :: _) => true
  | _ => false
  end.

(** [s || d] *)
Definition str_or (s : option jsstring) (d : jsstring) : jsstring :=
  match s with
  | Some (c :: r) => c :: r
  | _ => d
  end.

(** [throw new Error(msg)] against normal completion. *)
Inductive Result (A : Type) : Type :=
  | Ok (a : A)
  | Throw (message : jsstring).
Global Arguments Ok {A} a.
Global Arguments Throw {A} message.

End JS.
Import JS.

(** ** Rate limiter ([index.js], lines 16-44) *)

Module RateLimiter.

Definition RATE_LIMIT : Z := 50.
Definition WINDOW : Z := 60 * 60 * 1000.

(** The object stored per IP: [{ count, window }]. *)
Record RateWindow := { count : Z; window : Z }.

Global Instance RateWindow_eq_dec : EqDecision RateWindow.
Proof. solve_decision. Defined.

(** [checkRateLimit(ip)], with [now] the value [Date.now()] returned and the
    [requestCounts] map passed in and out. *)
Definition checkRateLimit (ip : jsstring) (now : Z)
    (requestCounts : gmap jsstring RateWindow) : bool * gmap jsstring RateWindow :=
  let count0 := default {| count := 0; window := now |} (requestCounts !! ip) in
  let count1 :=
    if now - window count0 >? WINDOW
    then {| count := 1; window := now |}
    else {| count := count count0 + 1; window := window count0 |} in
  (count count1 <=? RATE_LIMIT, <[ip := count1]> requestCounts).

(** The body of the [setInterval] callback, run at time [now]. *)
Definition cleanup (now : Z) (requestCounts : gmap jsstring RateWindow)
    : gmap jsstring RateWindow :=
  filter (λ kv, ¬ (now - window kv.2 > WINDOW)) requestCounts.

(** What happens to the map over time: admission calls and cleanup ticks. *)
Inductive event :=
  | Admit (ip : jsstring) (now : Z)
  | Cleanup (now : Z).

Definition time_of (e : event) : Z :=
  match e with Admit _ now => now | Cleanup now => now end.

(** Runs the events in order; returns who was answered what, and the map. *)
Fixpoint run (es : list event) (requestCounts : gmap jsstring RateWindow)
    : list (jsstring * bool) * gmap jsstring RateWindow :=
  match es with
  | [] => ([], requestCounts)
  | Admit ip now :: es' =>
      let '(allowed, m) := checkRateLimit ip now requestCounts in
      let '(log, m') := run es' m in
      ((ip, allowed) :: log, m')
  | Cleanup now :: es' => run es' (cleanup now requestCounts)
  end.

(** The answers given to [ip], in order. *)
Definition decisions (ip : jsstring) (log : list (jsstring * bool)) : list bool :=
  snd <$> filter (λ d, d.1 = ip) log.

(** The number of admission calls of [ip] among the events. *)
Fixpoint calls_of (ip : jsstring) (es : list event) : nat :=
  match es with
  | [] => 0
  | Admit ip' _ :: es' => (if decide (ip' = ip) then 1 else 0) + calls_of ip es'
  | Cleanup _ :: es' => calls_of ip es'
  end%nat.

(** [ip] has no live window at time [now]: the next call starts one. *)
Definition starts_window (ip : jsstring) (now : Z)
    (requestCounts : gmap jsstring RateWindow) : Prop :=
  match requestCounts !! ip with
  | None => True
  | Some w => now - window w > WINDOW
  end.

End RateLimiter.
Import RateLimiter.

(** ** JavaScript numbers *)

Module Num.

(** The value of a division: a rational, or what IEEE arithmetic yields for
    a zero divisor. *)
Inductive number := Fin (q : Q) | PosInfinity | NegInfinity | NaN.

Definition Qltb (x y : Q) : bool := negb (Qle_bool y x).

(** [a / b] on finite operands. *)
Definition div (a b : Q) : number :=
  if Qeq_bool b 0 then
    if Qeq_bool a 0 then NaN
    else if Qltb 0 a then PosInfinity else NegInfinity
  else Fin (a / b).

(** [x < c]; every comparison with [NaN] is false. *)
Definition lt (x : number) (c : Q) : bool :=
  match x with
  | Fin q => Qltb q c
  | NegInfinity => true
  | PosInfinity | NaN => false
  end.

(** [Math.round(x)]: the nearest integer, a tie goes towards +infinity. *)
Definition Math_round (x : Q) : Z := Qfloor (x + (1 # 2)).

End Num.

(** ** Binary64 arithmetic *)

Module B64.
Import Num.

(** The integer part of the binary logarithm of a positive rational. *)
Definition ilog2 (x : Q) : Z :=
  let k := Z.log2 (Qnum x) - Z.log2 (Z.pos (Qden x)) in
  if Qle_bool (2 ^ k) x then k else k - 1.

(** The exponent of the last place of the doubles next to [x]: 52 places
    below the leading bit, and never below that of the subnormal numbers. *)
Definition exponent (x : Q) : Z := Z.max (ilog2 (Qabs x) - 52) (-1074).

(** The nearest integer, a tie going to the even one. *)
Definition nearest_even (y : Q) : Z :=
  let f := Qfloor y in
  match (y - inject_Z f ?= 1 # 2)%Q with
  | Lt => f
  | Gt => f + 1
  | Eq => if Z.even f then f else f + 1
  end.

(** The double nearest to [x], were the exponent range unbounded above. *)
Definition nearest (x : Q) : Q :=
  Qred (inject_Z (nearest_even (x / 2 ^ exponent x)) * 2 ^ exponent x).

Definition infinity (negative : bool) : number :=
  if negative then NegInfinity else PosInfinity.

(** Round to nearest, ties to even: the value of an operation whose exact
    result is [x]. *)
Definition round (x : Q) : number :=
  let y := nearest x in
  if Qle_bool (2 ^ 1024) (Qabs y) then infinity (negb (Qle_bool 0 x)) else Fin y.

(** A numeric literal of the source text. *)
Definition literal (q : Q) : number := round q.

(** A number of a JSON text, as [JSON.parse] reads it. *)
Definition parse (q : Q) : number := round q.

(** An integer of a JSON text. *)
Definition of_Z (z : Z) : number := round (inject_Z z).

Definition negative (a : number) : bool :=
  match a with
  | Fin x => negb (Qle_bool 0 x)
  | NegInfinity => true
  | PosInfinity | NaN => false
  end.

(** [a * b] *)
Definition mul (a b : number) : number :=
  match a, b with
  | NaN, _ | _, NaN => NaN
  | Fin x, Fin y => round (x * y)
  | Fin x, _ | _, Fin x =>
      if Qeq_bool x 0 then NaN else infinity (xorb (negative a) (negative b))
  | _, _ => infinity (xorb (negative a) (negative b))
  end.

(** [a / b] *)
Definition div (a b : number) : number :=
  match a, b with
  | NaN, _ | _, NaN => NaN
  | Fin x, Fin y =>
      if Qeq_bool y 0
      then if Qeq_bool x 0 then NaN else infinity (negative a)
      else round (x / y)
  | Fin _, _ => Fin 0
  | _, Fin _ => infinity (xorb (negative a) (negative b))
  | _, _ => NaN
  end.

(** [a + b] *)
Definition add (a b : number) : number :=
  match a, b with
  | NaN, _ | _, NaN => NaN
  | Fin x, Fin y => round (x + y)
  | Fin _, i | i, Fin _ => i
  | PosInfinity, PosInfinity => PosInfinity
  | NegInfinity, NegInfinity => NegInfinity
  | _, _ => NaN
  end.

(** [Math.round(a)] *)
Definition Math_round (a : number) : number :=
  match a with
  | Fin x => Fin (inject_Z (Num.Math_round x))
  | other => other
  end.

(** A number that [||] and [!] take for false: zero and [NaN]. *)
Definition falsy (a : number) : bool :=
  match a with
  | Fin x => Qeq_bool x 0
  | NaN => true
  | PosInfinity | NegInfinity => false
  end.

(** [a || d] for a number that may be [undefined]. *)
Definition or (a : option number) (d : number) : number :=
  match a with
  | Some x => if falsy x then d else x
  | None => d
  end.

End B64.

Declare Scope b64_scope.
Delimit Scope b64_scope with b64.
Infix "*" := B64.mul : b64_scope.
Infix "/" := B64.div : b64_scope.
Infix "+" := B64.add : b64_scope.

(** The binary64 arithmetic of the kernel, an implementation of IEEE 754 to
    compare [B64] with. *)
Module Kernel.

Definition of_Z (z : Z) : PrimFloat.float := PrimFloat.of_uint63 (Uint63.of_Z z).

(** The number that a float is. *)
Definition value (f : PrimFloat.float) : Num.number :=
  match FloatOps.Prim2SF f with
  | SpecFloat.S754_zero _ => Num.Fin 0
  | SpecFloat.S754_finite s m e =>
      Num.Fin (Qred (inject_Z (if s then Z.neg m else Z.pos m) * 2 ^ e))
  | SpecFloat.S754_infinity s => B64.infinity s
  | SpecFloat.S754_nan => Num.NaN
  end.

(** The same number, zeros of either sign being one. *)
Definition same (a b : Num.number) : bool :=
  match a, b with
  | Num.Fin x, Num.Fin y => Qeq_bool x y
  | Num.PosInfinity, Num.PosInfinity | Num.NegInfinity, Num.NegInfinity
  | Num.NaN, Num.NaN => true
  | _, _ => false
  end.

(** The expressions of [handleEstimateCosts] that [Math.round] is applied
    to, for a distance of [d] meters, a fuel efficiency of [fe] tenths and
    a fuel price of [fp] hundredths: in the kernel, and in [B64]. *)
Definition kernel_cents (d fe fp : Z) : list PrimFloat.float :=
  let distanceKm := PrimFloat.div (of_Z d) (of_Z 1000) in
  let fuelNeeded :=
    PrimFloat.mul (PrimFloat.div distanceKm (of_Z 100))
                  (PrimFloat.div (of_Z fe) (of_Z 10)) in
  let fuelCost := PrimFloat.mul fuelNeeded (PrimFloat.div (of_Z fp) (of_Z 100)) in
  let tollCost := PrimFloat.mul distanceKm (PrimFloat.div (of_Z 5) (of_Z 100)) in
  [PrimFloat.mul fuelCost (of_Z 100); PrimFloat.mul tollCost (of_Z 100);
   PrimFloat.mul (PrimFloat.add fuelCost tollCost) (of_Z 100);
   PrimFloat.div (of_Z d) (of_Z 100)].

Definition model_cents (d fe fp : Z) : list Num.number :=
  let distanceKm := (B64.of_Z d / B64.literal 1000)%b64 in
  let fuelNeeded := (distanceKm / B64.literal 100 * B64.literal (fe # 10))%b64 in
  let fuelCost := (fuelNeeded * B64.literal (fp # 100))%b64 in
  let tollCost := (distanceKm * B64.literal 0.05)%b64 in
  [(fuelCost * B64.literal 100)%b64; (tollCost * B64.literal 100)%b64;
   ((fuelCost + tollCost) * B64.literal 100)%b64;
   (B64.of_Z d / B64.literal 100)%b64].

Definition agree (d fe fp : Z) : bool :=
  forallb (λ p, same (value p.1) p.2) (zip (kernel_cents d fe fp) (model_cents d fe fp)).

(** The product, quotient and sum of [m1 * 2 ^ e1] and [m2 * 2 ^ e2], two
    doubles when the significands are below [2 ^ 53]: in the kernel, and in
    [B64]. *)
Definition kernel_results (m1 e1 m2 e2 : Z) : list PrimFloat.float :=
  let a := FloatOps.Z.ldexp (of_Z m1) e1 in
  let b := FloatOps.Z.ldexp (of_Z m2) e2 in
  [PrimFloat.mul a b; PrimFloat.div a b; PrimFloat.add a b].

Definition model_results (m1 e1 m2 e2 : Z) : list Num.number :=
  let a := Num.Fin (inject_Z m1 * 2 ^ e1) in
  let b := Num.Fin (inject_Z m2 * 2 ^ e2) in
  [(a * b)%b64; (a / b)%b64; (a + b)%b64].

Definition agree_on (left right : list (Z * Z)) : bool :=
  forallb (λ a, forallb (λ b,
      forallb (λ p, same (value p.1) p.2)
        (zip (kernel_results a.1 a.2 b.1 b.2) (model_results a.1 a.2 b.1 b.2)))
    right) left.

(** Significands with a tie or a carry in store, at exponents from the
    least subnormal number to the largest double. *)
Definition extremes : list (Z * Z) :=
  m ← [1; 3; 2 ^ 52 + 1; 2 ^ 53 - 1];
  e ← [-1074; -1073; -1022; -54; 0; 512; 970; 971];
  [(m, e)].

Definition partners : list (Z * Z) :=
  [(1, 0); (3, -1074); (2 ^ 53 - 1, 971); (6004799503160661, -54)].

End Kernel.

(** ** Data model *)

(** One entry of [steps] as [GoogleMapsService.calculateRoute] builds it. *)
Record Step := {
  stepNumber : Z;
  instruction : jsstring;
  step_distance : jsstring;
  step_duration : jsstring;
  maneuver : jsstring
}.

(** The object [GoogleMapsService.calculateRoute] resolves to. *)
Record Route := {
  summary : jsstring;
  distance : Z;            (* meters *)
  duration : Z;            (* seconds *)
  durationInTraffic : Z;   (* seconds *)
  steps : list Step;
  polyline : jsstring;
  warnings : list jsstring;
  copyrights : jsstring
}.

(** The argument object of [GoogleMapsService.calculateRoute]; a key that the
    caller does not set is [None]. *)
Record RouteRequest := {
  rq_origin : option jsstring;
  rq_destination : option jsstring;
  rq_waypoints : option (list jsstring);
  rq_name : option jsstring;
  rq_avoidTolls : option bool;
  rq_avoidHighways : option bool;
  rq_departureTime : option jsstring;
  rq_trafficModel : option jsstring;
  rq_alternatives : option bool
}.

(** [arguments] of a tool call, as the four input schemas type it: an
    object that is present, whose keys are the ones the schemas name, each
    absent ([None]) or holding a value of its type. *)
Record Options := {
  avoidTolls : option bool;
  avoidHighways : option bool;
  departureTime : option jsstring;
  trafficModel : option jsstring
}.

Record CompareOption := {
  co_name : option jsstring;
  co_avoidTolls : option bool;
  co_avoidHighways : option bool;
  co_trafficModel : option jsstring
}.

Record VehicleOptions := {
  fuelEfficiency : option Q;
  fuelPrice : option Q
}.

Record Args := {
  origin : option jsstring;
  destination : option jsstring;
  waypoints : option (list jsstring);
  options : option Options;
  compareOptions : option (list CompareOption);
  arg_departureTime : option jsstring;
  vehicleOptions : option VehicleOptions
}.

(** What lies outside the source text: the clock, the built-in renderings
    of finite numbers and dates, and [GoogleMapsService.calculateRoute], the
    one door to the upstream provider.  [World] is the state behind that
    door.  When several calls are under way at once, [settled_at w i] is the
    time at which the promise of the [i]-th of them settles. *)
Class Platform := {
  World : Type;
  Date_now : World → Z;
  toISOString : Z → jsstring;
  toFixed : Q → nat → jsstring;
  toString : Q → jsstring;
  googleMaps_calculateRoute : RouteRequest → World → Result Route * World;
  settled_at : World → nat → Z
}.

(** The outside as a handler sees it: the world, and the requests that have
    been sent to the provider so far. *)
Record Outside `{Platform} := {
  world : World;
  issued : list RouteRequest
}.

(** [await googleMaps.calculateRoute(rq)] *)
Definition calculateRoute `{Platform} (rq : RouteRequest) (o : Outside)
    : Result Route * Outside :=
  let '(r, w) := googleMaps_calculateRoute rq (world o) in
  (r, {| world := w; issued := issued o ++ [rq] |}).

(** [new Date().toISOString()] *)
Definition timestamp_now `{Platform} (o : Outside) : jsstring :=
  toISOString (Date_now (world o)).

(** ** Utility functions ([index.js], lines 511-569) *)

Section utilities.
Context `{Platform}.

(** [x.toFixed(digits)] *)
Definition number_toFixed (x : Num.number) (digits : nat) : jsstring :=
  match x with
  | Num.Fin q => toFixed q digits
  | Num.PosInfinity => lit "Infinity"
  | Num.NegInfinity => lit "-Infinity"
  | Num.NaN => lit "NaN"
  end.

(** [`${x}`] *)
Definition number_toString (x : Num.number) : jsstring :=
  match x with
  | Num.Fin q => toString q
  | Num.PosInfinity => lit "Infinity"
  | Num.NegInfinity => lit "-Infinity"
  | Num.NaN => lit "NaN"
  end.

(** [`${(meters / 1000).toFixed(1)}`] *)
Definition km_text (meters : Z) : jsstring :=
  number_toFixed (B64.of_Z meters / B64.literal 1000)%b64 1.

Definition formatDuration (seconds : Z) : jsstring :=
  if (seconds =? 0) || (seconds <? 0) then lit "0m"
  else
    let hours := seconds / 3600 in
    let minutes := Z.rem seconds 3600 / 60 in
    if hours >? 0
    then toString (inject_Z hours) ++ lit "h " ++ toString (inject_Z minutes) ++ lit "m"
    else toString (inject_Z minutes) ++ lit "m".

End utilities.

(** What [GoogleMapsService.getTrafficInfo] resolves to:
    [{ ...route, route: { summary, distance } }]. *)
Record RouteBrief := { brief_summary : jsstring; brief_distance : Z }.
Record TrafficData := { td_spread : Route; td_route : RouteBrief }.

Inductive TrafficCondition := light | moderate | heavy | severe.

Definition getTrafficCondition (trafficData : TrafficData) : TrafficCondition :=
  let delay := durationInTraffic (td_spread trafficData) - duration (td_spread trafficData) in
  let ratio := Num.div (inject_Z delay) (inject_Z (duration (td_spread trafficData))) in
  if Num.lt ratio 0.1 then light
  else if Num.lt ratio 0.3 then moderate
  else if Num.lt ratio 0.5 then heavy
  else severe.

(** [array.reduce((acc, current, index) => ..., init)] *)
Fixpoint reduce_from {A B} (f : B → A → nat → B) (index : nat) (acc : B) (l : list A) : B :=
  match l with
  | [] => acc
  | current :: l' => reduce_from f (S index) (f acc current index) l'
  end.
Definition reduce {A B} (f : B → A → nat → B) (init : B) (l : list A) : B :=
  reduce_from f 0 init l.

(** The accumulator [{ route, index, label }] of the three searches. *)
Record Best := {
  best_route : Route;
  best_index : nat;
  best_label : option jsstring
}.

(** The local [fastest] of [findBestRoute] and of [findFastestRoute] (the
    same expression in both), for [routes] whose first entry is [route0]. *)
Definition fastest (routes : list Route) (labels : list jsstring) (route0 : Route) : Best :=
  reduce (λ best current index,
            if durationInTraffic current <? durationInTraffic (best_route best)
            then {| best_route := current; best_index := index; best_label := labels !! index |}
            else best)
         {| best_route := route0; best_index := 0; best_label := labels !! 0%nat |}
         routes.

(** The local [shortest] of [findShortestRoute]. *)
Definition shortest (routes : list Route) (labels : list jsstring) (route0 : Route) : Best :=
  reduce (λ best current index,
            if distance current <? distance (best_route best)
            then {| best_route := current; best_index := index; best_label := labels !! index |}
            else best)
         {| best_route := route0; best_index := 0; best_label := labels !! 0%nat |}
         routes.

Record Recommendation := {
  recommended : Best;
  reason : jsstring;
  timeSaved : Z
}.

Record FastestRoute := { fastest_label : option jsstring; fastest_duration : jsstring }.
Record ShortestRoute := { shortest_label : option jsstring; shortest_distance : jsstring }.

(** The [TypeError] of V8 for a property read on [undefined]. *)
Definition TypeError_undefined (property : String.string) : jsstring :=
  lit "Cannot read properties of undefined (reading '" ++ lit property ++ lit "')".

(** On an empty [routes] the accumulator keeps [route: undefined], and the
    first read of one of its properties throws. *)
Definition findBestRoute (routes : list Route) (labels : list jsstring)
    : Result Recommendation :=
  match routes with
  | [] => Throw (TypeError_undefined "durationInTraffic")
  | route0 :: _ =>
      let fastest := fastest routes labels route0 in
      Ok {| recommended := fastest;
            reason := lit "Fastest travel time considering current traffic conditions";
            timeSaved := durationInTraffic route0 - durationInTraffic (best_route fastest) |}
  end.

Definition findFastestRoute `{Platform} (routes : list Route) (labels : list jsstring)
    : Result FastestRoute :=
  match routes with
  | [] => Throw (TypeError_undefined "durationInTraffic")
  | route0 :: _ =>
      let fastest := fastest routes labels route0 in
      Ok {| fastest_label := best_label fastest;
            fastest_duration := formatDuration (durationInTraffic (best_route fastest)) |}
  end.

Definition findShortestRoute `{Platform} (routes : list Route) (labels : list jsstring)
    : Result ShortestRoute :=
  match routes with
  | [] => Throw (TypeError_undefined "distance")
  | route0 :: _ =>
      let shortest := shortest routes labels route0 in
      Ok {| shortest_label := best_label shortest;
            shortest_distance := km_text (distance (best_route shortest)) ++ lit " km" |}
  end.

(** ** Result objects of the handlers *)

Record Distance := {
  meters : Z;
  kilometers : option jsstring;   (* only [calculate_route] sets it *)
  distance_text : jsstring
}.

Record Duration := { seconds : Z; duration_text : jsstring }.

(** [result.route] of [handleCalculateRoute]. *)
Record RouteInfo := {
  ri_summary : jsstring;
  ri_distance : Distance;
  ri_duration : Duration;
  ri_durationInTraffic : Duration;
  ri_trafficDelay : Duration;
  ri_steps : list Step;
  ri_warnings : list jsstring;
  ri_polyline : jsstring
}.

Record RouteMetadata := {
  rm_timestamp : jsstring;
  rm_trafficModel : jsstring;
  rm_requestedWaypoints : nat
}.

Record RouteResult := {
  rr_success : bool;
  rr_route : RouteInfo;
  rr_metadata : RouteMetadata
}.

(** [options] of a compared route: ['default'], or the entry of
    [compareOptions] (which an index out of range would leave undefined). *)
Inductive UsedOptions := used_default | used (o : option CompareOption).

Record ComparedRoute := {
  cr_id : nat;
  cr_label : option jsstring;
  cr_summary : jsstring;
  cr_distance : Distance;
  cr_duration : Duration;
  cr_durationInTraffic : Duration;
  cr_trafficDelay : Duration;
  cr_options : UsedOptions
}.

Record ComparisonSummary := {
  fastestRoute : FastestRoute;
  shortestRoute : ShortestRoute;
  totalRoutesCompared : nat
}.

Record Comparison := {
  cmp_routes : list ComparedRoute;
  cmp_recommendation : Recommendation;
  cmp_summary : ComparisonSummary
}.

Record CompareMetadata := {
  cm_timestamp : jsstring;
  cm_routesCompared : nat;
  cm_origin : option jsstring;
  cm_destination : option jsstring
}.

Record CompareResult := {
  cmpr_success : bool;
  cmpr_comparison : Comparison;
  cmpr_metadata : CompareMetadata
}.

Record TrafficRoute := { tr_summary : jsstring; tr_distance : jsstring }.

Record Traffic := {
  currentDuration : Duration;
  tf_durationInTraffic : Duration;
  tf_trafficDelay : Duration;
  trafficCondition : TrafficCondition;
  tf_route : TrafficRoute
}.

Record TrafficMetadata := {
  tm_timestamp : jsstring;
  tm_departureTime : jsstring;
  tm_origin : option jsstring;
  tm_destination : option jsstring
}.

Record TrafficResult := {
  tfr_success : bool;
  tfr_traffic : Traffic;
  tfr_metadata : TrafficMetadata
}.

Record Money := {
  amount : Num.number;
  currency : jsstring;
  money_text : jsstring;
  note : option jsstring
}.

Record Breakdown := {
  bd_distance : jsstring;
  bd_fuelNeeded : jsstring;
  bd_fuelEfficiency : jsstring;
  bd_fuelPrice : jsstring
}.

Record Costs := {
  fuel : Money;
  tolls : Money;
  total : Money;
  breakdown : Breakdown
}.

Record CostRoute := {
  cost_distance : jsstring;
  cost_duration : jsstring;
  cost_summary : jsstring
}.

Record Assumptions := {
  as_fuelEfficiency : jsstring;
  as_fuelPrice : jsstring;
  as_tollEstimate : jsstring
}.

Record CostMetadata := { cmd_timestamp : jsstring; assumptions : Assumptions }.

Record CostResult := {
  cst_success : bool;
  costs : Costs;
  cst_route : CostRoute;
  cst_metadata : CostMetadata
}.

(** The [result] object a handler serialises. *)
Inductive Payload :=
  | route_payload (r : RouteResult)
  | compare_payload (r : CompareResult)
  | traffic_payload (r : TrafficResult)
  | cost_payload (r : CostResult).

(** The [text] of a content item: a plain string, or
    [JSON.stringify(result, null, 2)], which is kept as the value it prints. *)
Inductive Text := plain (s : jsstring) | JSON_stringify (p : Payload).

Record ContentItem := { type : jsstring; text : Text }.

(** What the [CallToolRequestSchema] handler resolves to. *)
Record ToolResult := { content : list ContentItem; isError : option bool }.

(** [{ content: [{ type: 'text', text: JSON.stringify(result, null, 2) }] }] *)
Definition text_result (p : Payload) : ToolResult :=
  {| content := [{| type := lit "text"; text := JSON_stringify p |}];
     isError := None |}.

(** ** Tool handlers ([index.js], lines 251-509) *)

Section handlers.
Context `{Platform}.

(** [{ seconds: s, text: formatDuration(s) }] *)
Definition duration_of (s : Z) : Duration :=
  {| seconds := s; duration_text := formatDuration s |}.

(** The [result] object of [handleCalculateRoute]. *)
Definition route_result (waypoints : list jsstring) (options : Options)
    (route : Route) (timestamp : jsstring) : RouteResult :=
  {| rr_success := true;
     rr_route :=
       {| ri_summary := summary route;
          ri_distance :=
            {| meters := distance route;
               kilometers := Some (km_text (distance route));
               distance_text := km_text (distance route) ++ lit " km" |};
          ri_duration := duration_of (duration route);
          ri_durationInTraffic := duration_of (durationInTraffic route);
          ri_trafficDelay := duration_of (durationInTraffic route - duration route);
          ri_steps := take 8 (steps route);
          ri_warnings := warnings route;
          ri_polyline := polyline route |};
     rr_metadata :=
       {| rm_timestamp := timestamp;
          rm_trafficModel := str_or (trafficModel options) (lit "best_guess");
          rm_requestedWaypoints := length waypoints |} |}.

(** The request of [handleCalculateRoute]:
    [{ origin: origin.trim(), destination: destination.trim(),
       waypoints: waypoints.map(w => w.trim()).filter(w => w), ...options }],
    built once both strings are known to be present.  The spread copies the
    keys of [options], which are the four of the input schema; a key of
    another name, which would also be copied, is outside [Options]. *)
Definition calculate_request (args : Args) : RouteRequest :=
  let waypoints := default [] (waypoints args) in
  let options :=
    default {| avoidTolls := None; avoidHighways := None;
               departureTime := None; trafficModel := None |} (options args) in
  {| rq_origin := optional_trim (origin args);
     rq_destination := optional_trim (destination args);
     rq_waypoints := Some (filter (λ w, w ≠ []) (trim <$> waypoints));
     rq_name := None;
     rq_avoidTolls := avoidTolls options;
     rq_avoidHighways := avoidHighways options;
     rq_departureTime := departureTime options;
     rq_trafficModel := trafficModel options;
     rq_alternatives := None |}.

Definition handleCalculateRoute (args : Args) (o : Outside)
    : Result ToolResult * Outside :=
  let waypoints := default [] (waypoints args) in
  let options :=
    default {| avoidTolls := None; avoidHighways := None;
               departureTime := None; trafficModel := None |} (options args) in
  if negb (truthy (optional_trim (origin args)))
     || negb (truthy (optional_trim (destination args)))
  then (Throw (lit "Origin and destination are required and cannot be empty"), o)
  else
    let '(r, o1) := calculateRoute (calculate_request args) o in
    match r with
    | Throw message => (Throw message, o1)
    | Ok route =>
        (Ok (text_result
               (route_payload (route_result waypoints options route (timestamp_now o1)))),
         o1)
    end.

(** The requests of [handleCompareRoutes], in the order it issues them:
    [{ origin, destination, waypoints, alternatives: true }], then
    [{ origin, destination, waypoints, ...option }] for every entry of
    [compareOptions], whose keys are the four of the input schema. *)
Definition compare_requests (args : Args) : list RouteRequest :=
  let waypoints := default [] (waypoints args) in
  let compareOptions := default [] (compareOptions args) in
  {| rq_origin := origin args; rq_destination := destination args;
     rq_waypoints := Some waypoints; rq_name := None;
     rq_avoidTolls := None; rq_avoidHighways := None;
     rq_departureTime := None; rq_trafficModel := None;
     rq_alternatives := Some true |}
  :: ((λ option,
        {| rq_origin := origin args; rq_destination := destination args;
           rq_waypoints := Some waypoints; rq_name := co_name option;
           rq_avoidTolls := co_avoidTolls option;
           rq_avoidHighways := co_avoidHighways option;
           rq_departureTime := None;
           rq_trafficModel := co_trafficModel option;
           rq_alternatives := None |}) <$> compareOptions).

Definition compare_labels (args : Args) : list jsstring :=
  lit "Default Route"
  :: imap (λ index option,
             str_or (co_name option)
                    (lit "Option " ++ toString (inject_Z (Z.of_nat index + 1))))
          (default [] (compareOptions args)).

(** The calls that fill [routePromises]: each is started, in order, before
    any of them is awaited.  The outcomes are listed in request order. *)
Fixpoint issue_all (requests : list RouteRequest) (o : Outside)
    : list (Result Route) * Outside :=
  match requests with
  | [] => ([], o)
  | rq :: requests' =>
      let '(r, o1) := calculateRoute rq o in
      let '(rs, o2) := issue_all requests' o1 in
      (r :: rs, o2)
  end.

(** The rejection that settles first among the promises from [index] on,
    [found] being the first so far.  Two promises do not settle at the same
    time; were the times equal, the earlier request would be taken. *)
Fixpoint first_rejection (at_ : nat → Z) (index : nat)
    (promises : list (Result Route)) (found : option (nat * jsstring))
    : option (nat * jsstring) :=
  match promises with
  | [] => found
  | Ok _ :: promises' => first_rejection at_ (S index) promises' found
  | Throw message :: promises' =>
      first_rejection at_ (S index) promises'
        (match found with
         | Some (i, m) =>
             if at_ index <? at_ i then Some (index, message) else Some (i, m)
         | None => Some (index, message)
         end)
  end.

(** The values of the fulfilled promises, in request order. *)
Fixpoint fulfilled (promises : list (Result Route)) : list Route :=
  match promises with
  | [] => []
  | Ok route :: promises' => route :: fulfilled promises'
  | Throw _ :: promises' => fulfilled promises'
  end.

(** [Promise.all(promises)], once every promise has settled or one has
    rejected: the values in request order, or the reason of the rejection
    that settled first. *)
Definition Promise_all (at_ : nat → Z) (promises : list (Result Route))
    : Result (list Route) :=
  match first_rejection at_ 0 promises None with
  | Some (_, message) => Throw message
  | None => Ok (fulfilled promises)
  end.

(** [await Promise.all(routePromises)] for the promises of [requests]. *)
Definition await_all (requests : list RouteRequest) (o : Outside)
    : Result (list Route) * Outside :=
  let '(promises, o1) := issue_all requests o in
  (Promise_all (settled_at (world o1)) promises, o1).

Definition compared_route (args : Args) (labels : list jsstring)
    (index : nat) (route : Route) : ComparedRoute :=
  {| cr_id := index;
     cr_label := labels !! index;
     cr_summary := summary route;
     cr_distance :=
       {| meters := distance route; kilometers := None;
          distance_text := km_text (distance route) ++ lit " km" |};
     cr_duration := duration_of (duration route);
     cr_durationInTraffic := duration_of (durationInTraffic route);
     cr_trafficDelay := duration_of (durationInTraffic route - duration route);
     cr_options :=
       match index with
       | O => used_default
       | S i => used (default [] (compareOptions args) !! i)
       end |}.

Definition handleCompareRoutes (args : Args) (o : Outside)
    : Result ToolResult * Outside :=
  let routeLabels := compare_labels args in
  let '(r, o1) := await_all (compare_requests args) o in
  match r with
  | Throw message => (Throw message, o1)
  | Ok routes =>
      match findBestRoute routes routeLabels,
            findFastestRoute routes routeLabels,
            findShortestRoute routes routeLabels with
      | Ok recommendation, Ok fastestRoute, Ok shortestRoute =>
          (Ok (text_result (compare_payload
             {| cmpr_success := true;
                cmpr_comparison :=
                  {| cmp_routes := imap (compared_route args routeLabels) routes;
                     cmp_recommendation := recommendation;
                     cmp_summary :=
                       {| fastestRoute := fastestRoute;
                          shortestRoute := shortestRoute;
                          totalRoutesCompared := length routes |} |};
                cmpr_metadata :=
                  {| cm_timestamp := timestamp_now o1;
                     cm_routesCompared := length routes;
                     cm_origin := origin args;
                     cm_destination := destination args |} |})), o1)
      | Throw message, _, _ | Ok _, Throw message, _ | Ok _, Ok _, Throw message =>
          (Throw message, o1)
      end
  end.

(** [GoogleMapsService.getTrafficInfo] ([google-maps.js]). *)
Definition getTrafficInfo (origin destination : option jsstring)
    (departureTime : jsstring) (o : Outside) : Result TrafficData * Outside :=
  let '(r, o1) :=
    calculateRoute
      {| rq_origin := origin; rq_destination := destination;
         rq_waypoints := None; rq_name := None;
         rq_avoidTolls := None; rq_avoidHighways := None;
         rq_departureTime := Some departureTime;
         rq_trafficModel := Some (lit "best_guess");
         rq_alternatives := None |} o in
  match r with
  | Ok route =>
      (Ok {| td_spread := route;
             td_route := {| brief_summary := summary route;
                            brief_distance := distance route |} |}, o1)
  | Throw message =>
      (Throw (lit "Traffic info retrieval failed: " ++ message), o1)
  end.

(** The [result] object of [handleGetLiveTraffic]. *)
Definition traffic_result (args : Args) (departureTime : jsstring)
    (trafficData : TrafficData) (timestamp : jsstring) : TrafficResult :=
  let data := td_spread trafficData in
  let trafficDelay := durationInTraffic data - duration data in
  {| tfr_success := true;
     tfr_traffic :=
       {| currentDuration := duration_of (duration data);
          tf_durationInTraffic := duration_of (durationInTraffic data);
          tf_trafficDelay := duration_of trafficDelay;
          trafficCondition := getTrafficCondition trafficData;
          tf_route :=
            {| tr_summary :=
                 str_or (Some (brief_summary (td_route trafficData))) (summary data);
               tr_distance := km_text (distance data) ++ lit " km" |} |};
     tfr_metadata :=
       {| tm_timestamp := timestamp;
          tm_departureTime := departureTime;
          tm_origin := origin args;
          tm_destination := destination args |} |}.

Definition handleGetLiveTraffic (args : Args) (o : Outside)
    : Result ToolResult * Outside :=
  let departureTime := default (lit "now") (arg_departureTime args) in
  let '(r, o1) := getTrafficInfo (origin args) (destination args) departureTime o in
  match r with
  | Throw message => (Throw message, o1)
  | Ok trafficData =>
      (Ok (text_result
             (traffic_payload
                (traffic_result args departureTime trafficData (timestamp_now o1)))),
       o1)
  end.

(** [Math.round(x * 100) / 100] *)
Definition round_cents (x : Num.number) : Num.number :=
  (B64.Math_round (x * B64.literal 100) / B64.literal 100)%b64.

(** [given || default], for a vehicle option as the request writes it. *)
Definition effective (given : option Q) (default : Q) : Num.number :=
  B64.or (B64.parse <$> given) (B64.literal default).

(** The [result] object of [handleEstimateCosts]. *)
Definition cost_result (vehicleOptions : VehicleOptions) (route : Route)
    (timestamp : jsstring) : CostResult :=
  let fuelEfficiency := effective (fuelEfficiency vehicleOptions) 8.0 in
  let fuelPrice := effective (fuelPrice vehicleOptions) 1.50 in
  let distanceKm := (B64.of_Z (distance route) / B64.literal 1000)%b64 in
  let fuelNeeded := (distanceKm / B64.literal 100 * fuelEfficiency)%b64 in
  let fuelCost := (fuelNeeded * fuelPrice)%b64 in
  let tollCost := (distanceKm * B64.literal 0.05)%b64 in
  {| cst_success := true;
     costs :=
       {| fuel :=
            {| amount := round_cents fuelCost;
               currency := lit "USD";
               money_text := lit "$" ++ number_toFixed (round_cents fuelCost) 2;
               note := None |};
          tolls :=
            {| amount := round_cents tollCost;
               currency := lit "USD";
               money_text := lit "$" ++ number_toFixed (round_cents tollCost) 2;
               note := Some (lit "Estimated based on $0.05/km") |};
          total :=
            {| amount := round_cents (fuelCost + tollCost)%b64;
               currency := lit "USD";
               money_text :=
                 lit "$" ++ number_toFixed (round_cents (fuelCost + tollCost)%b64) 2;
               note := None |};
          breakdown :=
            {| bd_distance := number_toFixed distanceKm 1 ++ lit " km";
               bd_fuelNeeded := number_toFixed fuelNeeded 1 ++ lit " L";
               bd_fuelEfficiency := number_toString fuelEfficiency ++ lit " L/100km";
               bd_fuelPrice := lit "$" ++ number_toString fuelPrice ++ lit "/L" |} |};
     cst_route :=
       {| cost_distance := number_toFixed distanceKm 1 ++ lit " km";
          cost_duration := formatDuration (duration route);
          cost_summary := summary route |};
     cst_metadata :=
       {| cmd_timestamp := timestamp;
          assumptions :=
            {| as_fuelEfficiency := number_toString fuelEfficiency ++ lit " L/100km";
               as_fuelPrice := lit "$" ++ number_toString fuelPrice ++ lit " per liter";
               as_tollEstimate := lit "Estimated at $0.05 per kilometer" |} |} |}.

(** [{ origin, destination }], the request of [handleEstimateCosts]. *)
Definition estimate_request (args : Args) : RouteRequest :=
  {| rq_origin := origin args; rq_destination := destination args;
     rq_waypoints := None; rq_name := None;
     rq_avoidTolls := None; rq_avoidHighways := None;
     rq_departureTime := None; rq_trafficModel := None;
     rq_alternatives := None |}.

(** [vehicleOptions = {}] stands in for an absent key. *)
Definition handleEstimateCosts (args : Args) (o : Outside)
    : Result ToolResult * Outside :=
  let vehicleOptions :=
    default {| fuelEfficiency := None; fuelPrice := None |} (vehicleOptions args) in
  let '(r, o1) := calculateRoute (estimate_request args) o in
  match r with
  | Throw message => (Throw message, o1)
  | Ok route =>
      (Ok (text_result
             (cost_payload (cost_result vehicleOptions route (timestamp_now o1)))),
       o1)
  end.

End handlers.

(** ** Request handlers ([index.js], lines 183-249) *)

(** The parts of [extra] that [getClientIP] reads; [None] when the optional
    chain ends in [undefined]. *)
Record Extra := {
  x_forwarded_for : option jsstring;
  connection_remoteAddress : option jsstring;
  socket_remoteAddress : option jsstring
}.

Definition getClientIP (extra : Extra) : jsstring :=
  str_or (optional_trim (split_first 0x2C <$> x_forwarded_for extra))
    (str_or (connection_remoteAddress extra)
       (str_or (socket_remoteAddress extra) (lit "unknown"))).

(** The names of the entries of [tools]. *)
Definition tools : list jsstring :=
  [lit "calculate_route"; lit "compare_routes"; lit "get_live_traffic";
   lit "estimate_costs"].

(** The message of the error both request handlers throw on a denial. *)
Definition rate_limit_message : jsstring :=
  lit "Rate limit exceeded. Please try again later.".

Section server.
Context `{Platform}.

(** The module-level [requestCounts] and the outside. *)
Record Server := {
  requestCounts : gmap jsstring RateWindow;
  outside : Outside
}.

(** The [ListToolsRequestSchema] handler. *)
Definition listTools (extra : Extra) (s : Server)
    : Result (list jsstring) * Server :=
  let clientIP := getClientIP extra in
  let '(allowed, counts) :=
    checkRateLimit clientIP (Date_now (world (outside s))) (requestCounts s) in
  let s1 := {| requestCounts := counts; outside := outside s |} in
  if negb allowed
  then (Throw rate_limit_message, s1)
  else (Ok tools, s1).

(** The [switch] inside the [try] block. *)
Definition dispatch (name : jsstring) (args : Args) (o : Outside)
    : Result ToolResult * Outside :=
  if decide (name = lit "calculate_route") then handleCalculateRoute args o
  else if decide (name = lit "compare_routes") then handleCompareRoutes args o
  else if decide (name = lit "get_live_traffic") then handleGetLiveTraffic args o
  else if decide (name = lit "estimate_costs") then handleEstimateCosts args o
  else (Throw (lit "Unknown tool: " ++ name), o).

(** The object the [catch] block returns. *)
Definition error_result (message : jsstring) : ToolResult :=
  {| content := [{| type := lit "text"; text := plain (lit "Error: " ++ message) |}];
     isError := Some true |}.

(** The [CallToolRequestSchema] handler.  [Throw] is an exception that
    leaves the handler; [Ok] is the value it resolves to. *)
Definition callTool (name : jsstring) (args : Args) (extra : Extra) (s : Server)
    : Result ToolResult * Server :=
  let clientIP := getClientIP extra in
  let '(allowed, counts) :=
    checkRateLimit clientIP (Date_now (world (outside s))) (requestCounts s) in
  if negb allowed
  then (Throw rate_limit_message,
        {| requestCounts := counts; outside := outside s |})
  else
    let '(r, o1) := dispatch name args (outside s) in
    (Ok (match r with
         | Ok result => result
         | Throw message => error_result message
         end),
     {| requestCounts := counts; outside := o1 |}).

End server.

(** ** Specification vocabulary *)

(** Entry [i] of [routes] is [r], no entry has a smaller [key], and every
    entry before [i] has a strictly larger one: [r] is the first-listed
    minimum. *)
Definition first_minimum (key : Route → Z) (routes : list Route) (i : nat) (r : Route) : Prop :=
  routes !! i = Some r
  ∧ (∀ j r', routes !! j = Some r' → key r ≤ key r')
  ∧ (∀ j r', (j < i)%nat → routes !! j = Some r' → key r < key r').

(** [n] is the integer nearest to [y], a tie going to the larger one: what
    [Math.round] computes. *)
Definition nearest_half_up (y : Q) (n : Z) : Prop :=
  (inject_Z n - (1 # 2) <= y ∧ y < inject_Z n + (1 # 2))%Q.

(** [n] is the integer nearest to [y], a tie going to the one of larger
    magnitude: round-half-away-from-zero. *)
Definition nearest_half_away (y : Q) (n : Z) : Prop :=
  (Qabs (y - inject_Z n) < 1 # 2
   ∨ (Qabs (y - inject_Z n) == 1 # 2 ∧ Qabs y < Qabs (inject_Z n)))%Q.

(** [r] is [x] rounded to 2 decimal places, a whole number [n] of
    hundredths chosen by [nearest]. *)
Definition rounded_2dp (nearest : Q → Z → Prop) (x r : Q) : Prop :=
  ∃ n : Z, nearest (x * 100)%Q n ∧ (r == inject_Z n / 100)%Q.

(** The error of rounding relative to the size of a normal double, and the
    error of rounding below the normal range. *)
Definition roundoff : Q := 2 ^ (-53).
Definition underflow : Q := 2 ^ (-1075).

(** [a] is a finite number within [e] of the exact value [v]. *)
Definition near (a : Num.number) (v e : Q) : Prop :=
  ∃ x, a = Num.Fin x ∧ (Qabs (x - v) <= e)%Q.

(** [a] is the double nearest to [n] hundredths, and [n] is at most half a
    cent and a thousandth of a cent from the exact amount [x]. *)
Definition reported_cents (a : Num.number) (n : Z) (x : Q) : Prop :=
  a = B64.round (inject_Z n / 100)
  ∧ (Qabs (inject_Z n - x * 100) <= (1 # 2) + (1 # 1000))%Q.

(** Promise [i] settles before promise [j] or is promise [j]. *)
Definition settles_first (at_ : nat → Z) (i j : nat) : Prop :=
  at_ i < at_ j ∨ (at_ i = at_ j ∧ (i ≤ j)%nat).

(** The callback that the three [reduce] calls share, for the field [key]
    they compare. *)
Definition pick (key : Route → Z) (labels : list jsstring) : Best → Route → nat → Best :=
  λ best current index,
    if key current <? key (best_route best)
    then {| best_route := current; best_index := index; best_label := labels !! index |}
    else best.

(** [s] is missing, or empty once trimmed. *)
Definition blank (s : option jsstring) : Prop :=
  match s with
  | None => True
  | Some s => trim s = []
  end.

Global Instance blank_dec (s : option jsstring) : Decision (blank s).
Proof. destruct s as [s|]; cbn; apply _. Defined.

(** [args] with other [vehicleOptions]. *)
Definition with_vehicle (args : Args) (fuelEfficiency fuelPrice : option Q) : Args :=
  {| origin := origin args; destination := destination args;
     waypoints := waypoints args; options := options args;
     compareOptions := compareOptions args;
     arg_departureTime := arg_departureTime args;
     vehicleOptions :=
       Some {| fuelEfficiency := fuelEfficiency; fuelPrice := fuelPrice |} |}.

(** ** A test double for the platform, and sample inputs *)

Module Sample.

(** The world is the clock; the provider answers from a table and takes one
    millisecond; concurrent calls settle in the order given; the renderings
    are left blank. *)
Definition platform_settling (at_ : nat → Z) (answer : RouteRequest → Result Route)
    : Platform :=
  {| World := Z;
     Date_now := λ w, w;
     toISOString := λ _, [];
     toFixed := λ _ _, [];
     toString := λ _, [];
     googleMaps_calculateRoute := λ rq w, (answer rq, w + 1);
     settled_at := λ _, at_ |}.

(** The same, concurrent calls settling in request order. *)
Definition platform (answer : RouteRequest → Result Route) : Platform :=
  platform_settling Z.of_nat answer.

Definition ip_a : jsstring := lit "203.0.113.7".
Definition ip_b : jsstring := lit "198.51.100.2".

Definition from (ip : jsstring) : Extra :=
  {| x_forwarded_for := Some ip; connection_remoteAddress := None;
     socket_remoteAddress := None |}.

Definition route_of (distance duration durationInTraffic : Z) : Route :=
  {| summary := lit "I-90 E"; distance := distance; duration := duration;
     durationInTraffic := durationInTraffic; steps := [];
     polyline := lit "a~l~Fjk~uOwHJy@P"; warnings := []; copyrights := lit "Map data" |}.

(** A route of ten steps. *)
Definition winding_route : Route :=
  {| summary := lit "MA-2 W"; distance := 4200; duration := 600;
     durationInTraffic := 660;
     steps := (λ n, {| stepNumber := Z.of_nat n; instruction := lit "Turn left";
                       step_distance := lit "0.4 km"; step_duration := lit "1 min";
                       maneuver := lit "turn-left" |}) <$> seq 1 10;
     polyline := lit "a~l~Fjk~uOwHJy@P"; warnings := [lit "Tolls"];
     copyrights := lit "Map data" |}.

(** A server whose clock reads [now], with the given [requestCounts]. *)
Definition server_at (P : Platform) (clock : @World P)
    (counts : gmap jsstring RateWindow) : @Server P :=
  {| requestCounts := counts; outside := {| world := clock; issued := [] |} |}.

Definition trip (origin destination : String.string) (v : option VehicleOptions) : Args :=
  {| origin := Some (lit origin); destination := Some (lit destination);
     waypoints := None; options := None; compareOptions := None;
     arg_departureTime := None; vehicleOptions := v |}.

End Sample.
Import Sample.

(** ** The provider adapter ([google-maps.js]) *)

Module Adapter.

(** [{ text, value }] of the Directions API. *)
Record TextValue := { tv_text : jsstring; tv_value : Z }.

(** What the adapter reads of a step, a leg and a route of the response. *)
Record ApiStep := {
  html_instructions : jsstring;
  api_step_distance : TextValue;
  api_step_duration : TextValue;
  api_maneuver : option jsstring
}.

Record Leg := {
  leg_distance : TextValue;
  leg_duration : TextValue;
  duration_in_traffic : option TextValue;
  leg_steps : list ApiStep
}.

Record ApiRoute := {
  api_summary : jsstring;
  legs : list Leg;
  overview_polyline_points : jsstring;
  api_warnings : option (list jsstring);
  api_copyrights : jsstring
}.

(** [response.data] of a resolved [client.directions] call. *)
Record DirectionsData := { routes : option (list ApiRoute) }.

(** What the [catch] blocks read of a caught error: [error.response?.data]
    with its [error_message] and [status], and [error.message]. *)
Record ErrorData := { error_message : option jsstring; status : option jsstring }.
Record Failure := { response_data : option ErrorData; failure_message : jsstring }.

(** [params.params] of the directions request. *)
Record Params := {
  p_origin : option jsstring;
  p_destination : option jsstring;
  p_key : jsstring;
  p_units : jsstring;
  p_departure_time : option jsstring;
  p_traffic_model : jsstring;
  p_alternatives : bool;
  p_waypoints : option jsstring;
  p_avoid : option jsstring
}.

(** [list.join(sep)] *)
Fixpoint join (sep : jsstring) (l : list jsstring) : jsstring :=
  match l with
  | [] => []
  | [x] => x
  | x :: l' => x ++ sep ++ join sep l'
  end.

(** The request that [calculateRoute] builds from its argument. *)
Definition directions_params (apiKey : jsstring) (rq : RouteRequest) : Params :=
  let waypoints := default [] (rq_waypoints rq) in
  let avoidOptions :=
    (if default false (rq_avoidTolls rq) then [lit "tolls"] else [])
    ++ (if default false (rq_avoidHighways rq) then [lit "highways"] else []) in
  {| p_origin := rq_origin rq;
     p_destination := rq_destination rq;
     p_key := apiKey;
     p_units := lit "metric";
     p_departure_time :=
       if decide (rq_departureTime rq = Some (lit "now")) then Some (lit "now")
       else rq_departureTime rq;
     p_traffic_model := str_or (rq_trafficModel rq) (lit "best_guess");
     p_alternatives := negb (bool_decide (rq_alternatives rq = Some false));
     p_waypoints :=
       if (0 <? length waypoints)%nat then Some (join (lit "|") waypoints) else None;
     p_avoid :=
       if (0 <? length avoidOptions)%nat then Some (join (lit "|") avoidOptions) else None |}.

(** [text.replace(/<[^>]*>/g, '')].  Outside a match, a [<] opens one when a
    [>] follows somewhere; the match runs to the first [>]. *)
Fixpoint strip_from (inside : bool) (s : jsstring) : jsstring :=
  match s with
  | [] => []
  | c :: s' =>
      if inside then
        if (c =? 0x3E)%N then strip_from false s' else strip_from true s'
      else if (c =? 0x3C)%N && existsb (N.eqb 0x3E) s' then strip_from true s'
      else c :: strip_from false s'
  end.

Definition strip_tags (s : jsstring) : jsstring := strip_from false s.

(** The callback of [leg.steps.map]. *)
Definition convert_step (index : nat) (step : ApiStep) : Step :=
  {| stepNumber := Z.of_nat index + 1;
     instruction := strip_tags (html_instructions step);
     step_distance := tv_text (api_step_distance step);
     step_duration := tv_text (api_step_duration step);
     maneuver := str_or (api_maneuver step) (lit "continue") |}.

(** The [try] block after the [await]: the result object, or the error thrown
    on the way ([Error] for an empty list of routes, the [TypeError] of the
    first property read on [route.legs[0]] when there is no leg). *)
Definition read_response (data : DirectionsData) : Result Route :=
  match routes data with
  | None | Some [] => Throw (lit "No route found between the specified locations")
  | Some (route :: _) =>
      match legs route with
      | [] => Throw (TypeError_undefined "steps")
      | leg :: _ =>
          Ok {| summary := api_summary route;
                distance := tv_value (leg_distance leg);
                duration := tv_value (leg_duration leg);
                durationInTraffic :=
                  match duration_in_traffic leg with
                  | Some d => if tv_value d =? 0 then tv_value (leg_duration leg)
                              else tv_value d
                  | None => tv_value (leg_duration leg)
                  end;
                steps := imap convert_step (leg_steps leg);
                polyline := overview_polyline_points route;
                warnings := default [] (api_warnings route);
                copyrights := api_copyrights route |}
      end
  end.

(** The message of the error that the [catch] block of [calculateRoute]
    throws for a caught error. *)
Definition route_error (e : Failure) : jsstring :=
  let data := response_data e in
  if truthy (data ≫= error_message)
  then lit "Google Maps API: " ++ default [] (data ≫= error_message)
  else if decide (data ≫= status = Some (lit "ZERO_RESULTS"))
  then lit "No route found. Please check that your origin and destination are valid locations."
  else if decide (data ≫= status = Some (lit "NOT_FOUND"))
  then lit "One or more locations could not be found. Please check your addresses."
  else if decide (data ≫= status = Some (lit "OVER_QUERY_LIMIT"))
  then lit "Google Maps API quota exceeded. Please try again later."
  else if decide (data ≫= status = Some (lit "REQUEST_DENIED"))
  then lit "Google Maps API request denied. Please check API key configuration."
  else lit "Route calculation failed: " ++ failure_message e.

(** An error raised by the adapter's own code carries no [response]. *)
Definition own_error (message : jsstring) : Failure :=
  {| response_data := None; failure_message := message |}.

(** [results[0]] of the geocoding response, as [geocode] reads it. *)
Record GeocodeEntry := {
  formatted_address : jsstring;
  geometry_location : Q * Q;
  place_id : jsstring
}.

Record GeocodeData := { results : option (list GeocodeEntry) }.

Record Place := {
  place_address : jsstring;
  place_location : Q * Q;
  placeId : jsstring
}.

(** The two calls of [@googlemaps/google-maps-services-js] that the service
    makes, and the rest of what lies outside the source text.  [Net] is the
    state behind the client. *)
Record Runtime := {
  Net : Type;
  rt_Date_now : Net → Z;
  rt_toISOString : Z → jsstring;
  rt_toFixed : Q → nat → jsstring;
  rt_toString : Q → jsstring;
  rt_settled_at : Net → nat → Z;
  client_directions : Params → Net → (DirectionsData + Failure) * Net;
  client_geocode : jsstring → jsstring → Net → (GeocodeData + Failure) * Net
}.

Section service.
Context (R : Runtime) (apiKey : jsstring).

(** [GoogleMapsService.calculateRoute] *)
Definition service_calculateRoute (rq : RouteRequest) (w : Net R)
    : Result Route * Net R :=
  let '(response, w1) := client_directions R (directions_params apiKey rq) w in
  match response with
  | inl data =>
      match read_response data with
      | Ok result => (Ok result, w1)
      | Throw message => (Throw (route_error (own_error message)), w1)
      end
  | inr e => (Throw (route_error e), w1)
  end.

(** [GoogleMapsService.geocode]; the client is called with the address and
    the key. *)
Definition service_geocode (address : jsstring) (w : Net R) : Result Place * Net R :=
  let '(response, w1) := client_geocode R address apiKey w in
  match response with
  | inl data =>
      match results data with
      | None | Some [] =>
          (Throw (lit "Geocoding failed: " ++ lit "Location not found: " ++ address), w1)
      | Some (result :: _) =>
          (Ok {| place_address := formatted_address result;
                 place_location := geometry_location result;
                 placeId := place_id result |}, w1)
      end
  | inr e => (Throw (lit "Geocoding failed: " ++ failure_message e), w1)
  end.

(** The platform of the handlers when the service runs on [R]. *)
Definition service : Platform :=
  {| World := Net R;
     Date_now := rt_Date_now R;
     toISOString := rt_toISOString R;
     toFixed := rt_toFixed R;
     toString := rt_toString R;
     googleMaps_calculateRoute := service_calculateRoute;
     settled_at := rt_settled_at R |}.

End service.

End Adapter.
Import Adapter.

(** ** Health and statistics endpoints ([index.js], lines 571-624) *)

(** [s.startsWith(prefix)] *)
Fixpoint startsWith (s prefix : jsstring) : bool :=
  match prefix, s with
  | [], _ => true
  | p :: prefix', c :: s' => (c =? p)%N && startsWith s' prefix'
  | _ :: _, [] => false
  end.

(** [Array.from(requestCounts.values()).reduce((sum, count) => sum + count.count, 0)] *)
Definition totalRequests (requestCounts : gmap jsstring RateWindow) : Z :=
  foldl (λ sum c, sum + count c) 0 ((map_to_list requestCounts).*2).

Record HttpRequest := { req_method : jsstring; req_url : jsstring }.

Record HealthBody := {
  hb_status : jsstring;
  hb_service : jsstring;
  hb_timestamp : jsstring;
  hb_version : jsstring;
  hb_access : jsstring;
  hb_endpoint : jsstring;
  activeConnections : nat;
  hb_totalRequests : Z
}.

Record StatsBody := {
  activeIPs : nat;
  sb_totalRequests : Z;
  rateLimitWindow : jsstring;
  sb_timestamp : jsstring;
  sb_service : jsstring;
  sb_version : jsstring
}.

(** What [res.end] is called with: nothing, or [JSON.stringify] of an object. *)
Inductive HttpBody :=
  | no_body
  | health_body (b : HealthBody)
  | stats_body (b : StatsBody)
  | error_body (error : jsstring).

(** What the listener does to [res]: the headers it sets, then the status and
    content type of [writeHead] and the body of [end], if it ends the
    response at all. *)
Record HttpAnswer := {
  ans_status : Z;
  ans_content_type : option jsstring;
  ans_body : HttpBody
}.

Record HttpResponse := {
  res_headers : list (jsstring * jsstring);
  res_answer : option HttpAnswer
}.

Definition cors_headers : list (jsstring * jsstring) :=
  [(lit "Access-Control-Allow-Origin", lit "*");
   (lit "Access-Control-Allow-Methods", lit "GET, POST, OPTIONS");
   (lit "Access-Control-Allow-Headers", lit "Content-Type")].

Section endpoints.
Context `{Platform}.

(** The listener of [httpServer.on('request', ...)]. *)
Definition onRequest (req : HttpRequest) (s : Server) : HttpResponse :=
  let json := Some (lit "application/json") in
  {| res_headers := cors_headers;
     res_answer :=
       if decide (req_method req = lit "OPTIONS")
       then Some {| ans_status := 200; ans_content_type := None; ans_body := no_body |}
       else if bool_decide (req_url req = lit "/")
               || bool_decide (req_url req = lit "/health")
       then Some {| ans_status := 200; ans_content_type := json;
                    ans_body := health_body
                      {| hb_status := lit "healthy";
                         hb_service := lit "google-maps-mcp";
                         hb_timestamp := timestamp_now (outside s);
                         hb_version := lit "1.0.0";
                         hb_access := lit "public";
                         hb_endpoint := lit "/sse";
                         activeConnections := size (requestCounts s);
                         hb_totalRequests := totalRequests (requestCounts s) |} |}
       else if decide (req_url req = lit "/stats")
       then Some {| ans_status := 200; ans_content_type := json;
                    ans_body := stats_body
                      {| activeIPs := size (requestCounts s);
                         sb_totalRequests := totalRequests (requestCounts s);
                         rateLimitWindow :=
                           toString (inject_Z RATE_LIMIT) ++ lit " requests per hour";
                         sb_timestamp := timestamp_now (outside s);
                         sb_service := lit "google-maps-mcp";
                         sb_version := lit "1.0.0" |} |}
       else if negb (startsWith (req_url req) (lit "/sse"))
       then Some {| ans_status := 404; ans_content_type := json;
                    ans_body := error_body (lit "Not found") |}
       else None |}.

End endpoints.

(** ** Vocabulary for traces of the rate limiter *)

Definition is_admit (e : event) : bool :=
  match e with Admit _ _ => true | Cleanup _ => false end.

(** The event is a cleanup tick or a call of [ip]. *)
Definition concerns (ip : jsstring) (e : event) : bool :=
  match e with Admit ip' _ => bool_decide (ip' = ip) | Cleanup _ => true end.

(** The clock does not go back: no event is earlier than [t] or than the
    event before it. *)
Fixpoint clock_from (t : Z) (es : list event) : Prop :=
  match es with
  | [] => True
  | e :: es' => t ≤ time_of e ∧ clock_from (time_of e) es'
  end.

(** The object that [checkRateLimit] stores for a caller whose stored
    object was [stored]. *)
Definition next_window (now : Z) (stored : option RateWindow) : RateWindow :=
  let count0 := default {| count := 0; window := now |} stored in
  if now - window count0 >? WINDOW
  then {| count := 1; window := now |}
  else {| count := count count0 + 1; window := window count0 |}.

(** The map with cleanup ticks against the map without them, when no later
    event comes before [t]: a window is the same in both, or it was swept
    and the next call would have restarted it anyway. *)
Definition swept (t : Z) (m1 m2 : gmap jsstring RateWindow) : Prop :=
  ∀ ip, m1 !! ip = m2 !! ip
        ∨ (m1 !! ip = None ∧ ∃ w, m2 !! ip = Some w ∧ t - window w > WINDOW).

(** The sum that [totalRequests] folds, over the stored objects in any
    order. *)
Definition sum_counts (l : list RateWindow) : Z :=
  foldr (λ c acc, count c + acc) 0 l.

(** Every stored object has counted at least one request. *)
Definition counted (m : gmap jsstring RateWindow) : Prop :=
  ∀ ip w, m !! ip = Some w → 1 ≤ count w.

(** ** Vocabulary for the requests a tool call sends *)

(** The request of [getTrafficInfo]:
    [{ origin, destination, departureTime, trafficModel: 'best_guess' }]. *)
Definition traffic_request (args : Args) : RouteRequest :=
  {| rq_origin := origin args; rq_destination := destination args;
     rq_waypoints := None; rq_name := None;
     rq_avoidTolls := None; rq_avoidHighways := None;
     rq_departureTime := Some (default (lit "now") (arg_departureTime args));
     rq_trafficModel := Some (lit "best_guess");
     rq_alternatives := None |}.

(** The provider requests of an admitted call of tool [name], in order. *)
Definition requests_of (name : jsstring) (args : Args) : list RouteRequest :=
  if decide (name = lit "calculate_route") then
    if decide (blank (origin args) ∨ blank (destination args)) then []
    else [calculate_request args]
  else if decide (name = lit "compare_routes") then compare_requests args
  else if decide (name = lit "get_live_traffic") then [traffic_request args]
  else if decide (name = lit "estimate_costs") then [estimate_request args]
  else [].

(** ** Vocabulary for markup *)

(** No [<] of [s] has a [>] somewhere after it: nothing in [s] matches
    [/<[^>]*>/]. *)
Definition tagless (s : jsstring) : Prop :=
  ∀ pre post, s = pre ++ 0x3C%N :: post → 0x3E%N ∉ post.

(** ** Vocabulary for the provider adapter *)

(** [data] cut to the part the adapter reads: the first route, with its
    first leg only. *)
Definition first_leg_only (data : DirectionsData) : DirectionsData :=
  {| routes :=
       match routes data with
       | Some (route :: _) =>
           Some [{| api_summary := api_summary route;
                    legs := take 1 (legs route);
                    overview_polyline_points := overview_polyline_points route;
                    api_warnings := api_warnings route;
                    api_copyrights := api_copyrights route |}]
       | other => other
       end |}.

(** ** A test double for the client, and sample responses *)

Module Fixtures.

(** The client answers from a table and takes one millisecond; the state
    behind it is the clock. *)
Definition runtime (answer : Params → DirectionsData + Failure) : Runtime :=
  {| Net := Z;
     rt_Date_now := λ w, w;
     rt_toISOString := λ _, [];
     rt_toFixed := λ _ _, [];
     rt_toString := λ _, [];
     rt_settled_at := λ _, Z.of_nat;
     client_directions := λ p w, (answer p, w + 1);
     client_geocode := λ _ _ w, (inl {| results := None |}, w + 1) |}.

Definition api_step (html : String.string) : ApiStep :=
  {| html_instructions := lit html;
     api_step_distance := {| tv_text := lit "0.4 km"; tv_value := 400 |};
     api_step_duration := {| tv_text := lit "1 min"; tv_value := 60 |};
     api_maneuver := None |}.

Definition api_leg (meters seconds : Z) (traffic : option Z) (steps : list ApiStep) : Leg :=
  {| leg_distance := {| tv_text := []; tv_value := meters |};
     leg_duration := {| tv_text := []; tv_value := seconds |};
     duration_in_traffic := (λ v, {| tv_text := []; tv_value := v |}) <$> traffic;
     leg_steps := steps |}.

(** A route through one waypoint: two legs. *)
Definition leg_one : Leg :=
  api_leg 12000 900 (Some 0)
    [api_step "Head <b>north</b>"; api_step "Turn <b>left</b> onto Main St"].

Definition leg_two : Leg := api_leg 30000 1800 None [api_step "Continue"].

Definition two_leg_route : ApiRoute :=
  {| api_summary := lit "I-90 E";
     legs := [leg_one; leg_two];
     overview_polyline_points := lit "a~l~Fjk~uOwHJy@P";
     api_warnings := None;
     api_copyrights := lit "Map data" |}.

Definition two_leg_response : DirectionsData := {| routes := Some [two_leg_route] |}.

Definition over_quota : Failure :=
  {| response_data := Some {| error_message := None;
                              status := Some (lit "OVER_QUERY_LIMIT") |};
     failure_message := lit "Request failed with status code 429" |}.

End Fixtures.
Import Fixtures.

(** ** Vocabulary for strings *)

(** [s] does not begin with white space. *)
Definition headed (s : jsstring) : Prop :=
  match s with
  | [] => True
  | c :: _ => isWhiteSpace c = false
  end.

(** [s] is not empty and has white space at neither end: what [trim]
    returns for a string that is not blank. *)
Definition trimmed (s : jsstring) : Prop := s ≠ [] ∧ headed s ∧ headed (rev s).

(** A header value of [n] letters: no comma, no white space. *)
Definition plain_hop (n : nat) : jsstring := replicate n 0x61%N.

(** * Properties *)

Section rate_limiter.
Implicit Types (m : gmap jsstring RateWindow) (ip : jsstring).

(** The answers to calls number 1 to [1 + n] are the answer to the first,
    then those to the next [n]. *)
Lemma fmap_seqZ_first {A} (f : Z → A) (n : nat) :
  f <$> seqZ 1 (Z.of_nat (1 + n)) = f 1 :: ((λ k, f (1 + k)) <$> seqZ 1 (Z.of_nat n)).
Proof.
  rewrite (seqZ_cons 1) by lia. rewrite fmap_cons. f_equal.
  replace (Z.pred (Z.of_nat (1 + n))) with (Z.of_nat n) by lia.
  change (Z.succ 1) with (1 + 1).
  by rewrite <- (fmap_add_seqZ 1 1), <- list_fmap_compose.
Qed.

(** A call of one identity leaves the windows of all others alone. *)
Lemma checkRateLimit_other ip ip' now m :
  ip' ≠ ip → (checkRateLimit ip' now m).2 !! ip = m !! ip.
Proof. intros. unfold checkRateLimit; simpl. by rewrite lookup_insert_ne. Qed.

(** The call that starts a window counts as its first request. *)
Lemma checkRateLimit_fresh ip now m :
  starts_window ip now m →
  checkRateLimit ip now m = (true, <[ip := {| count := 1; window := now |}]> m).
Proof.
  unfold starts_window, checkRateLimit. destruct (m !! ip) as [w|]; simpl.
  - intros Hage. destruct (Z.gtb_spec (now - window w) WINDOW); [done | lia].
  - intros _. replace (now - now) with 0 by lia. done.
Qed.

(** Inside a live window the count goes up, allowed or not. *)
Lemma checkRateLimit_live ip now m w :
  m !! ip = Some w → now - window w ≤ WINDOW →
  checkRateLimit ip now m =
    (count w + 1 <=? RATE_LIMIT,
     <[ip := {| count := count w + 1; window := window w |}]> m).
Proof.
  intros Hw Hage. unfold checkRateLimit. rewrite Hw; simpl.
  destruct (Z.gtb_spec (now - window w) WINDOW); [lia | done].
Qed.

Lemma cleanup_live ip now m w :
  m !! ip = Some w → now - window w ≤ WINDOW → cleanup now m !! ip = Some w.
Proof.
  intros Hw Hage. unfold cleanup. apply map_lookup_filter_Some. split; [done|].
  simpl. lia.
Qed.

Lemma run_admit ip now es m :
  run (Admit ip now :: es) m =
    ((ip, (checkRateLimit ip now m).1) :: (run es (checkRateLimit ip now m).2).1,
     (run es (checkRateLimit ip now m).2).2).
Proof.
  cbn [run]. destruct (checkRateLimit ip now m) as [allowed m1].
  cbn [fst snd]. by destruct (run es m1).
Qed.

Lemma decisions_cons_eq ip b log :
  decisions ip ((ip, b) :: log) = b :: decisions ip log.
Proof. unfold decisions. by rewrite filter_cons_True. Qed.

Lemma decisions_cons_ne ip ip' b log :
  ip' ≠ ip → decisions ip ((ip', b) :: log) = decisions ip log.
Proof. intros. unfold decisions. by rewrite filter_cons_False. Qed.

(** While every event falls inside the window of [ip], the [k]-th further
    call of [ip] sees the count raised by [k], whatever the other
    identities and the cleanup timer do in between. *)
Lemma run_live ip es : ∀ m w,
  m !! ip = Some w →
  Forall (λ e, time_of e - window w ≤ WINDOW) es →
  decisions ip (run es m).1 =
    (λ k, count w + k <=? RATE_LIMIT) <$> seqZ 1 (Z.of_nat (calls_of ip es))
  ∧ (run es m).2 !! ip =
    Some {| count := count w + Z.of_nat (calls_of ip es); window := window w |}.
Proof.
  induction es as [|e es IH]; intros m w Hw Hes.
  - simpl. rewrite Hw. split; [done|]. destruct w; simpl. do 2 f_equal. lia.
  - apply Forall_cons in Hes as [He Hes]. destruct e as [ip' now|now].
    + rewrite run_admit. simpl in He. cbn [calls_of fst snd].
      destruct (decide (ip' = ip)) as [->|Hne].
      * rewrite decisions_cons_eq, (checkRateLimit_live _ _ _ _ Hw He).
        cbn [fst snd].
        set (w1 := {| count := count w + 1; window := window w |}).
        destruct (IH (<[ip := w1]> m) w1) as [Hd Hm];
          [by rewrite lookup_insert_eq | done |].
        rewrite Hd, Hm. subst w1; cbn [count window]. split.
        -- rewrite fmap_seqZ_first. f_equal.
           apply list_fmap_ext. intros _ k _. f_equal. lia.
        -- do 2 f_equal. lia.
      * rewrite decisions_cons_ne by done.
        apply IH; [by rewrite checkRateLimit_other | done].
    + simpl. simpl in He. apply IH; [by apply cleanup_live | done].
Qed.

(** C1, as the code has it.  A call that finds no window, or one older than
    [WINDOW], starts a window.  As long as the events that follow (calls of
    any identity, cleanup ticks) come no later than [WINDOW] after that
    start, the [k]-th call of the identity in the window is allowed exactly
    when [k <= RATE_LIMIT]; the window keeps its start and counts denied
    calls too.  Once the age of the window exceeds [WINDOW], the next call
    starts a new window with count 1, is allowed, and again the first
    [RATE_LIMIT] calls of that window are the allowed ones. *)
Theorem checkRateLimit_window ip t0 es m :
  starts_window ip t0 m →
  Forall (λ e, time_of e - t0 ≤ WINDOW) es →
  let r := run (Admit ip t0 :: es) m in
  decisions ip r.1 =
    (λ k, k <=? RATE_LIMIT) <$> seqZ 1 (Z.of_nat (1 + calls_of ip es))
  ∧ r.2 !! ip =
    Some {| count := Z.of_nat (1 + calls_of ip es); window := t0 |}
  ∧ ∀ t1, t1 - t0 > WINDOW →
      checkRateLimit ip t1 r.2 =
        (true, <[ip := {| count := 1; window := t1 |}]> r.2)
      ∧ ∀ es1, Forall (λ e, time_of e - t1 ≤ WINDOW) es1 →
          decisions ip (run (Admit ip t1 :: es1) r.2).1 =
            (λ k, k <=? RATE_LIMIT) <$> seqZ 1 (Z.of_nat (1 + calls_of ip es1)).
Proof.
  assert (Hfirst : ∀ t es m, starts_window ip t m →
    Forall (λ e, time_of e - t ≤ WINDOW) es →
    decisions ip (run (Admit ip t :: es) m).1 =
      (λ k, k <=? RATE_LIMIT) <$> seqZ 1 (Z.of_nat (1 + calls_of ip es))
    ∧ (run (Admit ip t :: es) m).2 !! ip =
      Some {| count := Z.of_nat (1 + calls_of ip es); window := t |}).
  { clear. intros t es m Hstart Hes.
    rewrite run_admit, (checkRateLimit_fresh _ _ _ Hstart). cbn [fst snd].
    set (w1 := {| count := 1; window := t |}).
    destruct (run_live ip es (<[ip := w1]> m) w1) as [Hd Hm];
      [by rewrite lookup_insert_eq | done |].
    rewrite decisions_cons_eq, Hd, Hm. subst w1; cbn [count window]. split.
    - by rewrite fmap_seqZ_first.
    - do 2 f_equal. lia. }
  intros Hstart Hes r. destruct (Hfirst t0 es m Hstart Hes) as [Hd Hm].
  split; [done|]. split; [done|]. intros t1 Hage.
  assert (starts_window ip t1 r.2) as Hstart1.
  { unfold starts_window. subst r. by rewrite Hm. }
  split; [by apply checkRateLimit_fresh|].
  intros es1 Hes1. by apply Hfirst.
Qed.

End rate_limiter.

Lemma checkRateLimit_window_witness :
  decisions ip_a
    (run (Admit ip_a 0 :: [Admit ip_b 5; Cleanup 300000; Admit ip_a 3600000]) ∅).1 =
  [true; true].
Proof.
  refine (proj1 (checkRateLimit_window ip_a 0
            [Admit ip_b 5; Cleanup 300000; Admit ip_a 3600000] ∅ _ _)).
  - exact I.
  - repeat constructor; vm_compute; discriminate.
Defined.

(** Fifty-one calls in one window: fifty allowed, the last denied; the
    calls of another identity in between do not count. *)
Example fifty_then_denied :
  decisions ip_a
    (run (replicate 25 (Admit ip_a 0) ++ [Admit ip_b 1000]
          ++ replicate 26 (Admit ip_a 2000)) ∅).1
  = replicate 50 true ++ [false].
Proof. by vm_compute. Qed.

Example getClientIP_samples :
  getClientIP {| x_forwarded_for := Some (lit "203.0.113.7, 10.0.0.1");
                 connection_remoteAddress := Some (lit "10.0.0.9");
                 socket_remoteAddress := None |} = ip_a
  ∧ getClientIP {| x_forwarded_for := Some (lit " ,10.0.0.1");
                   connection_remoteAddress := None;
                   socket_remoteAddress := Some (lit "10.0.0.9") |} = lit "10.0.0.9"
  ∧ getClientIP {| x_forwarded_for := None; connection_remoteAddress := None;
                   socket_remoteAddress := None |} = lit "unknown".
Proof. by vm_compute. Qed.

(** C1 at the boundary.  Fifty calls at time 0 fill the window; a call at age
    exactly [WINDOW] does not start a new window: it is the 51st of the old
    one and is denied. *)
Lemma checkRateLimit_at_window_age :
  let m := (run (replicate 50 (Admit ip_a 0)) ∅).2 in
  m !! ip_a = Some {| count := 50; window := 0 |}
  ∧ 3600000 - 0 = WINDOW
  ∧ (checkRateLimit ip_a 3600000 m).1 = false
  ∧ (checkRateLimit ip_a 3600000 m).2 !! ip_a = Some {| count := 51; window := 0 |}.
Proof. by vm_compute. Qed.

(** ** Route comparison *)

Section comparison.
Context `{Platform}.
Implicit Types (routes : list Route) (labels : list jsstring).

Lemma reduce_pick key labels : ∀ (l : list Route) i best,
  let res := reduce_from (pick key labels) i best l in
  (∀ j r', l !! j = Some r' → key (best_route res) ≤ key r')
  ∧ key (best_route res) ≤ key (best_route best)
  ∧ (res = best
     ∨ ∃ j, l !! j = Some (best_route res)
         ∧ best_index res = (i + j)%nat
         ∧ best_label res = labels !! (i + j)%nat
         ∧ key (best_route res) < key (best_route best)
         ∧ ∀ j' r', (j' < j)%nat → l !! j' = Some r' → key (best_route res) < key r').
Proof.
  induction l as [|current l IH]; intros i best; cbn [reduce_from].
  - split; [by intros j r'|]. split; [lia | by left].
  - set (b1 := pick key labels best current i).
    destruct (IH (S i) b1) as (Hmin & Hle & Hcase).
    set (res := reduce_from (pick key labels) (S i) b1 l) in *.
    assert (key (best_route b1) ≤ key current ∧ key (best_route b1) ≤ key (best_route best)
            ∧ (b1 = best
               ∨ (best_route b1 = current ∧ best_index b1 = i
                  ∧ best_label b1 = labels !! i
                  ∧ key current < key (best_route best)))) as (Hb1c & Hb1b & Hb1).
    { subst b1. unfold pick.
      destruct (Z.ltb_spec (key current) (key (best_route best))); cbn; [|by auto with lia].
      split; [lia|]. split; [lia|]. by right. }
    split; [|split; [lia|]].
    + intros [|j] r' Hj; cbn in Hj; [injection Hj as <-; lia | by eapply Hmin].
    + destruct Hcase as [Hres | (j & Hj & Hidx & Hlab & Hstrict & Hbefore)].
      * destruct Hb1 as [Hb1 | (Hr & Hi & Hl & Hlt)]; [left; congruence|].
        right. exists 0%nat. rewrite Hres, Nat.add_0_r.
        split; [by rewrite Hr|]. split; [done|]. split; [done|].
        split; [by rewrite Hr|]. intros; lia.
      * right. exists (S j). rewrite Nat.add_succ_r. split; [done|].
        split; [done|]. split; [done|]. split; [lia|].
        intros [|j'] r' Hlt Hj'; cbn in Hj'.
        -- injection Hj' as <-. lia.
        -- apply (Hbefore j'); [lia | done].
Qed.

Lemma reduce_first_minimum key labels route0 rest :
  let res := reduce (pick key labels)
               {| best_route := route0; best_index := 0; best_label := labels !! 0%nat |}
               (route0 :: rest) in
  first_minimum key (route0 :: rest) (best_index res) (best_route res)
  ∧ best_label res = labels !! best_index res.
Proof.
  intros res. unfold reduce in res.
  destruct (reduce_pick key labels (route0 :: rest) 0
              {| best_route := route0; best_index := 0; best_label := labels !! 0%nat |})
    as (Hmin & _ & Hcase).
  fold res in Hmin, Hcase.
  destruct Hcase as [-> | (j & Hj & Hidx & Hlab & _ & Hbefore)].
  - split; [|done]. split; [done|]. split; [done|]. cbn. intros; lia.
  - rewrite Hidx, Hlab. cbn [Nat.add]. split; [|done]. split; [done|]. by split.
Qed.

Lemma fastest_first_minimum route0 rest labels :
  let b := fastest (route0 :: rest) labels route0 in
  first_minimum durationInTraffic (route0 :: rest) (best_index b) (best_route b)
  ∧ best_label b = labels !! best_index b.
Proof. exact (reduce_first_minimum durationInTraffic labels route0 rest). Qed.

Lemma shortest_first_minimum route0 rest labels :
  let b := shortest (route0 :: rest) labels route0 in
  first_minimum distance (route0 :: rest) (best_index b) (best_route b)
  ∧ best_label b = labels !! best_index b.
Proof. exact (reduce_first_minimum distance labels route0 rest). Qed.

(** C3.  On a non-empty list of routes the three searches succeed.  The
    recommended entry is the first-listed one of minimum
    [durationInTraffic], with its own index and label; the fastest label is
    the label of that same entry; the shortest label is the label of the
    first-listed entry of minimum [distance].  On a single route all three
    name that route, entry 0. *)
Theorem compare_first_minimum route0 rest labels :
  let routes := route0 :: rest in
  (∃ rec fast short,
     findBestRoute routes labels = Ok rec
     ∧ findFastestRoute routes labels = Ok fast
     ∧ findShortestRoute routes labels = Ok short
     ∧ first_minimum durationInTraffic routes
         (best_index (recommended rec)) (best_route (recommended rec))
     ∧ best_label (recommended rec) = labels !! best_index (recommended rec)
     ∧ fastest_label fast = best_label (recommended rec)
     ∧ ∃ i r, first_minimum distance routes i r ∧ shortest_label short = labels !! i)
  ∧ findBestRoute [route0] labels =
      Ok {| recommended :=
              {| best_route := route0; best_index := 0; best_label := labels !! 0%nat |};
            reason := lit "Fastest travel time considering current traffic conditions";
            timeSaved := 0 |}
  ∧ findFastestRoute [route0] labels =
      Ok {| fastest_label := labels !! 0%nat;
            fastest_duration := formatDuration (durationInTraffic route0) |}
  ∧ findShortestRoute [route0] labels =
      Ok {| shortest_label := labels !! 0%nat;
            shortest_distance := km_text (distance route0) ++ lit " km" |}.
Proof.
  intros routes. split.
  - eexists _, _, _.
    split; [reflexivity|]. split; [reflexivity|]. split; [reflexivity|].
    cbn [recommended fastest_label shortest_label].
    destruct (fastest_first_minimum route0 rest labels) as [Hf Hfl].
    destruct (shortest_first_minimum route0 rest labels) as [Hs Hsl].
    split; [done|]. split; [done|]. split; [done|]. by eexists _, _.
  - unfold findBestRoute, findFastestRoute, findShortestRoute,
      fastest, shortest, reduce.
    cbn [reduce_from best_route best_label]. by rewrite !Z.ltb_irrefl, Z.sub_diag.
Qed.

End comparison.

(** Three routes tie on the time in traffic and the last two on the
    distance: the first of each tie is named. *)
Example compare_tie :
  let a := route_of 5000 300 360 in
  let b := route_of 4000 320 360 in
  let c := route_of 4000 340 360 in
  let labels := [lit "Default Route"; lit "No tolls"; lit "No highways"] in
  let P := platform (λ _, Ok a) in
  (∃ rec, findBestRoute [a; b; c] labels = Ok rec
          ∧ best_index (recommended rec) = 0%nat
          ∧ best_label (recommended rec) = Some (lit "Default Route"))
  ∧ (∃ short, @findShortestRoute P [a; b; c] labels = Ok short
              ∧ shortest_label short = Some (lit "No tolls")).
Proof. split; by eexists. Qed.

(** The index reported for the minimum is determined by the list alone. *)
Lemma first_minimum_unique key routes i r i' r' :
  first_minimum key routes i r → first_minimum key routes i' r' → i = i' ∧ r = r'.
Proof.
  intros (Hi & Hmin & Hfirst) (Hi' & Hmin' & Hfirst').
  assert (i = i') as ->.
  { destruct (Nat.lt_trichotomy i i') as [Hlt | [-> | Hlt]]; [|done|].
    - specialize (Hfirst' _ _ Hlt Hi). specialize (Hmin _ _ Hi'). lia.
    - specialize (Hfirst _ _ Hlt Hi'). specialize (Hmin' _ _ Hi). lia. }
  split; [done | congruence].
Qed.

(** ** Traffic classification *)

Section traffic.
Context `{Platform}.

Lemma Qltb_lt (x y : Q) : Num.Qltb x y = true ↔ (x < y)%Q.
Proof.
  unfold Num.Qltb. rewrite negb_true_iff, <- not_true_iff_false, Qle_bool_iff.
  split; [apply Qnot_le_lt | apply Qlt_not_le].
Qed.

Lemma Qltb_ge (x y : Q) : Num.Qltb x y = false ↔ (y <= x)%Q.
Proof.
  unfold Num.Qltb. by rewrite negb_false_iff, Qle_bool_iff.
Qed.

Ltac case_Qltb x c H :=
  destruct (Num.Qltb x c) eqn:H; [apply Qltb_lt in H | apply Qltb_ge in H].

Lemma Qeq_bool_inject_Z (z : Z) : Qeq_bool (inject_Z z) 0 = bool_decide (z = 0).
Proof.
  case_bool_decide as Hz.
  - by subst.
  - apply not_true_iff_false. rewrite Qeq_bool_iff. unfold Qeq; simpl. lia.
Qed.

Lemma Qltb_inject_Z (z : Z) : Num.Qltb 0 (inject_Z z) = bool_decide (0 < z).
Proof.
  case_bool_decide as Hz.
  - apply Qltb_lt. unfold Qlt; simpl. lia.
  - apply Qltb_ge. unfold Qle; simpl. lia.
Qed.

(** With a positive divisor the division is the exact quotient. *)
Lemma div_positive (a b : Z) :
  0 < b → Num.div (inject_Z a) (inject_Z b) = Num.Fin (inject_Z a / inject_Z b).
Proof.
  intros Hb. unfold Num.div. rewrite Qeq_bool_inject_Z.
  by rewrite bool_decide_eq_false_2 by lia.
Qed.

(** With a zero divisor it is an infinity of the sign of the dividend, or
    [NaN] for [0 / 0]. *)
Lemma div_zero (a : Z) :
  Num.div (inject_Z a) (inject_Z 0) =
    if bool_decide (a = 0) then Num.NaN
    else if bool_decide (0 < a) then Num.PosInfinity else Num.NegInfinity.
Proof.
  unfold Num.div. change (Qeq_bool (inject_Z 0) 0) with true. cbn match.
  by rewrite Qeq_bool_inject_Z, Qltb_inject_Z.
Qed.

(** C7.  For a positive [duration], with
    [ratio = (durationInTraffic - duration) / duration], the class is
    light below 0.1, moderate from 0.1 and below 0.3, heavy from 0.3 and
    below 0.5, severe from 0.5. *)
Theorem getTrafficCondition_thresholds (trafficData : TrafficData) :
  let data := td_spread trafficData in
  0 < duration data →
  let ratio :=
    (inject_Z (durationInTraffic data - duration data) / inject_Z (duration data))%Q in
  ((ratio < 0.1)%Q → getTrafficCondition trafficData = light)
  ∧ ((0.1 <= ratio)%Q ∧ (ratio < 0.3)%Q → getTrafficCondition trafficData = moderate)
  ∧ ((0.3 <= ratio)%Q ∧ (ratio < 0.5)%Q → getTrafficCondition trafficData = heavy)
  ∧ ((0.5 <= ratio)%Q → getTrafficCondition trafficData = severe).
Proof.
  intros data Hpos ratio. unfold getTrafficCondition. fold data.
  rewrite div_positive by done. fold ratio. cbn [Num.lt].
  case_Qltb ratio 0.1%Q H1; case_Qltb ratio 0.3%Q H3; case_Qltb ratio 0.5%Q H5;
    repeat split; intros; try done; exfalso; lra.
Qed.

(** The same classes without fractions: with [delay] the seconds lost, the
    tests are [10 delay < duration], [10 delay < 3 duration] and
    [2 delay < duration]. *)
Lemma getTrafficCondition_integers (trafficData : TrafficData) :
  let data := td_spread trafficData in
  let delay := durationInTraffic data - duration data in
  0 < duration data →
  getTrafficCondition trafficData =
    if 10 * delay <? duration data then light
    else if 10 * delay <? 3 * duration data then moderate
    else if 2 * delay <? duration data then heavy
    else severe.
Proof.
  intros data delay Hpos. unfold getTrafficCondition. fold data. fold delay.
  rewrite div_positive by done. cbn [Num.lt].
  destruct (duration data) as [|d|d]; try lia.
  assert (∀ a b : positive,
    Num.Qltb (inject_Z delay / inject_Z (Z.pos d)) (Z.pos a # b)
    = (Z.pos b * delay <? Z.pos a * Z.pos d)) as Hlt.
  { intros a b. destruct (Z.ltb_spec (Z.pos b * delay) (Z.pos a * Z.pos d)).
    - apply Qltb_lt. unfold Qlt; cbn. lia.
    - apply Qltb_ge. unfold Qle; cbn. lia. }
  change 0.1%Q with (1 # 10)%Q. change 0.3%Q with (3 # 10)%Q.
  change 0.5%Q with (5 # 10)%Q. rewrite !Hlt.
  replace (10 * delay <? 5 * Z.pos d) with (2 * delay <? Z.pos d)
    by (destruct (Z.ltb_spec (2 * delay) (Z.pos d)),
          (Z.ltb_spec (10 * delay) (5 * Z.pos d)); lia).
  replace (1 * Z.pos d) with (Z.pos d) by lia. done.
Qed.

Lemma getTrafficCondition_zero_duration (trafficData : TrafficData) :
  duration (td_spread trafficData) = 0 →
  getTrafficCondition trafficData =
    if durationInTraffic (td_spread trafficData) <? 0 then light else severe.
Proof.
  intros Hz. unfold getTrafficCondition. rewrite Hz, Z.sub_0_r, div_zero.
  destruct (Z.ltb_spec (durationInTraffic (td_spread trafficData)) 0);
    repeat case_bool_decide; try lia; done.
Qed.

(** C6, as the code has it.  A zero [duration] is not rejected: the
    division is carried out, its infinite or [NaN] value is compared like
    any other, and [get_live_traffic] answers with a success result whose
    class is severe (light if [durationInTraffic] is negative). *)
Theorem handleGetLiveTraffic_zero_duration args o trafficData o1 :
  getTrafficInfo (origin args) (destination args)
    (default (lit "now") (arg_departureTime args)) o = (Ok trafficData, o1) →
  duration (td_spread trafficData) = 0 →
  ∃ r, handleGetLiveTraffic args o = (Ok (text_result (traffic_payload r)), o1)
       ∧ trafficCondition (tfr_traffic r) =
           if durationInTraffic (td_spread trafficData) <? 0 then light else severe.
Proof.
  intros Hinfo Hz. unfold handleGetLiveTraffic. rewrite Hinfo.
  eexists. split; [reflexivity|]. by apply getTrafficCondition_zero_duration.
Qed.

End traffic.

Lemma getTrafficCondition_thresholds_witness :
  getTrafficCondition
    {| td_spread := route_of 100000 3600 3960;
       td_route := {| brief_summary := lit "I-90 E"; brief_distance := 100000 |} |}
  = moderate.
Proof.
  refine (proj1 (proj2 (getTrafficCondition_thresholds _ _)) _).
  - reflexivity.
  - split; vm_compute; first [reflexivity | discriminate].
Defined.

Lemma handleGetLiveTraffic_zero_duration_witness :
  let P := platform (λ _, Ok (route_of 0 0 0)) in
  ∃ r, @handleGetLiveTraffic P (trip "Boston, MA" "Boston, MA" None)
         {| world := 0; issued := [] |}
       = (Ok (text_result (traffic_payload r)),
          {| world := 1;
             issued := [{| rq_origin := Some (lit "Boston, MA");
                           rq_destination := Some (lit "Boston, MA");
                           rq_waypoints := None; rq_name := None;
                           rq_avoidTolls := None; rq_avoidHighways := None;
                           rq_departureTime := Some (lit "now");
                           rq_trafficModel := Some (lit "best_guess");
                           rq_alternatives := None |}] |})
       ∧ trafficCondition (tfr_traffic r) = severe.
Proof.
  intros P.
  refine (@handleGetLiveTraffic_zero_duration P _ _
            {| td_spread := route_of 0 0 0;
               td_route := {| brief_summary := lit "I-90 E"; brief_distance := 0 |} |}
            _ _ _); reflexivity.
Defined.

(** C6 on a concrete call: origin and destination coincide, the provider
    reports 0 seconds, and the handler returns a result, not an error. *)
Lemma zero_duration_is_classified :
  let P := platform (λ _, Ok (route_of 0 0 0)) in
  let out := @handleGetLiveTraffic P (trip "Boston, MA" "Boston, MA" None)
               {| world := 0; issued := [] |} in
  (∀ message, out.1 ≠ Throw message)
  ∧ ∃ r, out.1 = Ok (text_result (traffic_payload r))
         ∧ trafficCondition (tfr_traffic r) = severe.
Proof.
  intros P out. split; [by intros message|]. by eexists.
Qed.

(** ** Binary64 rounding *)

Section rounding.
Local Open Scope Q_scope.
Import B64.

Lemma nearest_even_error (y : Q) : Qabs (inject_Z (nearest_even y) - y) <= 1 # 2.
Proof.
  unfold nearest_even.
  pose proof (Qfloor_le y) as Hlo. pose proof (Qlt_floor y) as Hhi.
  rewrite inject_Z_plus in Hhi. change (inject_Z 1) with 1 in Hhi.
  apply Qabs_Qle_condition.
  destruct (Qcompare_spec (y - inject_Z (Qfloor y)) (1 # 2)) as [Heq|Hlt|Hgt].
  - destruct (Z.even (Qfloor y)).
    + split; lra.
    + rewrite inject_Z_plus. change (inject_Z 1) with 1. split; lra.
  - split; lra.
  - rewrite inject_Z_plus. change (inject_Z 1) with 1. split; lra.
Qed.

Lemma nearest_even_zero (y : Q) : y == 0 → nearest_even y = 0%Z.
Proof.
  intros Hy. unfold nearest_even.
  assert (Qfloor y = 0%Z) as -> by (by rewrite Hy).
  assert ((y - inject_Z 0 ?= 1 # 2) = Lt) as -> by (by rewrite Hy).
  done.
Qed.

Lemma pow2_pos (e : Z) : 0 < 2 ^ e.
Proof. by apply Qpower_0_lt. Qed.

(** [ilog2] does not overshoot. *)
Lemma ilog2_le (x : Q) : 0 < x → 2 ^ ilog2 x <= x.
Proof.
  intros Hx. unfold ilog2.
  set (p := Qnum x). set (q := Qden x).
  destruct (Qle_bool (2 ^ (Z.log2 p - Z.log2 (Z.pos q))) x) eqn:E.
  { by apply Qle_bool_iff. }
  clear E.
  assert (0 < p)%Z as Hp by (unfold Qlt in Hx; simpl in Hx; lia).
  destruct (Z.log2_spec p Hp) as [Hpl _].
  destruct (Z.log2_spec (Z.pos q) ltac:(lia)) as [_ Hqh].
  pose proof (Z.log2_nonneg p) as Hlp. pose proof (Z.log2_nonneg (Z.pos q)) as Hlq.
  replace (Z.log2 p - Z.log2 (Z.pos q) - 1)%Z
    with (Z.log2 p - Z.succ (Z.log2 (Z.pos q)))%Z by lia.
  rewrite Qpower_minus by done.
  set (a := (2 ^ Z.log2 p)%Z) in *. set (b := (2 ^ Z.succ (Z.log2 (Z.pos q)))%Z) in *.
  assert (2 ^ Z.log2 p == inject_Z a) as ->
    by (subst a; rewrite Zpower_Qpower by lia; reflexivity).
  assert (2 ^ Z.succ (Z.log2 (Z.pos q)) == inject_Z b) as ->
    by (subst b; rewrite Zpower_Qpower by lia; reflexivity).
  assert (0 < a)%Z by (subst a; by apply Z.pow_pos_nonneg).
  assert (0 < b)%Z by lia.
  apply Qle_shift_div_r; [unfold Qlt; simpl; lia|].
  unfold Qle, Qmult; simpl. fold p q. nia.
Qed.

(** [ilog2] does not fall short either: it is the integer part of the
    binary logarithm. *)
Lemma ilog2_lt (x : Q) : 0 < x → x < 2 ^ (ilog2 x + 1).
Proof.
  intros Hx. unfold ilog2.
  set (p := Qnum x). set (q := Qden x).
  destruct (Qle_bool (2 ^ (Z.log2 p - Z.log2 (Z.pos q))) x) eqn:E.
  - clear E.
    assert (0 < p)%Z as Hp by (unfold Qlt in Hx; simpl in Hx; lia).
    destruct (Z.log2_spec p Hp) as [_ Hph].
    destruct (Z.log2_spec (Z.pos q) ltac:(lia)) as [Hql _].
    pose proof (Z.log2_nonneg p) as Hlp. pose proof (Z.log2_nonneg (Z.pos q)) as Hlq.
    replace (Z.log2 p - Z.log2 (Z.pos q) + 1)%Z
      with (Z.succ (Z.log2 p) - Z.log2 (Z.pos q))%Z by lia.
    rewrite Qpower_minus by done.
    set (a := (2 ^ Z.succ (Z.log2 p))%Z) in *. set (b := (2 ^ Z.log2 (Z.pos q))%Z) in *.
    assert (2 ^ Z.succ (Z.log2 p) == inject_Z a) as ->
      by (subst a; rewrite Zpower_Qpower by lia; reflexivity).
    assert (2 ^ Z.log2 (Z.pos q) == inject_Z b) as ->
      by (subst b; rewrite Zpower_Qpower by lia; reflexivity).
    assert (0 < b)%Z by (subst b; by apply Z.pow_pos_nonneg).
    apply Qlt_shift_div_l; [unfold Qlt; simpl; lia|].
    unfold Qlt, Qmult; simpl. fold p q. nia.
  - replace (Z.log2 p - Z.log2 (Z.pos q) - 1 + 1)%Z
      with (Z.log2 p - Z.log2 (Z.pos q))%Z by lia.
    apply Qnot_le_lt. intros Hle. apply Qle_bool_iff in Hle. congruence.
Qed.

(** Half a unit in the last place, against the size of the number. *)
Lemma half_ulp (x : Q) :
  ¬ x == 0 → (1 # 2) * 2 ^ exponent x <= roundoff * Qabs x + underflow.
Proof.
  intros Hnz.
  assert (0 < Qabs x) as Hxp.
  { destruct (Qlt_le_dec 0 (Qabs x)) as [|Hle]; [done|].
    exfalso. apply Hnz. apply Qabs_Qle_condition in Hle. lra. }
  assert (0 < roundoff) as Hu by done.
  assert (0 < underflow) as Heta by apply pow2_pos.
  unfold exponent.
  destruct (Z.max_spec (ilog2 (Qabs x) - 52) (-1074)) as [[_ ->] | [_ ->]].
  - assert ((1 # 2) * 2 ^ (-1074) == underflow) as -> by done.
    assert (0 <= roundoff * Qabs x) by (apply Qmult_le_0_compat; lra).
    generalize dependent underflow. generalize dependent (roundoff * Qabs x).
    intros; lra.
  - pose proof (ilog2_le _ Hxp) as Hlog.
    assert ((1 # 2) * 2 ^ (ilog2 (Qabs x) - 52) == roundoff * 2 ^ ilog2 (Qabs x)) as ->.
    { unfold Z.sub. rewrite Qpower_plus by done.
      assert (2 ^ (-52) == 2 * roundoff) as -> by done.
      generalize roundoff (2 ^ ilog2 (Qabs x)). intros; ring. }
    assert (roundoff * 2 ^ ilog2 (Qabs x) <= roundoff * Qabs x)
      by (apply Qmult_le_l; lra).
    generalize dependent underflow. generalize dependent (roundoff * Qabs x).
    generalize dependent (roundoff * 2 ^ ilog2 (Qabs x)). intros; lra.
Qed.

Lemma nearest_zero (x : Q) : x == 0 → nearest x == 0.
Proof.
  intros Hz. unfold nearest. rewrite Qred_correct.
  assert (x / 2 ^ exponent x == 0) as Hq
    by (unfold Qdiv; generalize (/ 2 ^ exponent x); intros; rewrite Hz; ring).
  rewrite (nearest_even_zero _ Hq). change (inject_Z 0) with 0. ring.
Qed.

(** The error of rounding: relative to the size of the number, or, below
    the normal range, half the distance of two subnormal numbers. *)
Lemma nearest_error (x : Q) : Qabs (nearest x - x) <= roundoff * Qabs x + underflow.
Proof.
  pose proof (pow2_pos (exponent x)) as Hs.
  assert (0 < roundoff) as Hu by done.
  assert (0 < underflow) as Heta by apply pow2_pos.
  assert (0 <= roundoff * Qabs x) as Hux
    by (apply Qmult_le_0_compat; [lra | apply Qabs_nonneg]).
  destruct (Qeq_dec x 0) as [Hz | Hnz].
  { assert (nearest x - x == 0) as -> by (rewrite (nearest_zero x Hz); lra).
    change (Qabs 0) with 0.
    generalize dependent underflow. generalize dependent (roundoff * Qabs x).
    intros; lra. }
  unfold nearest. rewrite Qred_correct.
  pose proof (nearest_even_error (x / 2 ^ exponent x)) as Hm.
  pose proof (half_ulp x Hnz) as Hhalf.
  set (s := 2 ^ exponent x) in *.
  set (m := inject_Z (nearest_even (x / s))) in *.
  assert (m * s - x == (m - x / s) * s) as -> by (field; lra).
  rewrite Qabs_Qmult, (Qabs_pos s) by lra.
  assert (Qabs (m - x / s) * s <= (1 # 2) * s)
    by (apply Qmult_le_compat_r; lra).
  generalize dependent underflow. generalize dependent (roundoff * Qabs x).
  generalize dependent (Qabs (m - x / s) * s). intros; lra.
Qed.

(** The result of an operation whose exact result is at most [B] in
    magnitude is finite and within the rounding error of it. *)
Lemma round_near (x B e : Q) :
  Qabs x <= B → B <= 2 ^ 1023 → roundoff * B + underflow <= e → near (round x) x e.
Proof.
  intros HB Hmax He. pose proof (nearest_error x) as Herr.
  pose proof (Qabs_nonneg x) as Hx0.
  assert (0 < roundoff) as Hu by done.
  assert (roundoff * Qabs x <= roundoff * B) as HuB by (apply Qmult_le_l; lra).
  assert (2 ^ 1023 + roundoff * 2 ^ 1023 + underflow < 2 ^ 1024) as Htop
    by (by vm_compute).
  assert (roundoff * B <= roundoff * 2 ^ 1023) as HuM by (apply Qmult_le_l; lra).
  exists (nearest x). split.
  - unfold round.
    destruct (Qle_bool (2 ^ 1024) (Qabs (nearest x))) eqn:E; [|done].
    exfalso. apply Qle_bool_iff in E.
    pose proof (Qabs_triangle (nearest x - x) x) as Htri.
    assert (nearest x - x + x == nearest x) as Heq by ring. rewrite Heq in Htri.
    generalize dependent (Qabs (nearest x)). generalize dependent (Qabs (nearest x - x)).
    generalize dependent (Qabs x). generalize dependent (roundoff * B).
    generalize dependent (2 ^ 1024). generalize dependent (roundoff * 2 ^ 1023).
    generalize dependent (2 ^ 1023). generalize dependent underflow.
    intros. lra.
  - generalize dependent (Qabs (nearest x - x)). generalize dependent (roundoff * Qabs x).
    generalize dependent (roundoff * B). generalize dependent underflow. intros. lra.
Qed.

Lemma Qabs_bound (x v e A : Q) : Qabs (x - v) <= e → Qabs v <= A → Qabs x <= A + e.
Proof.
  intros Hx Hv. apply Qabs_Qle_condition in Hx, Hv. apply Qabs_Qle_condition. lra.
Qed.

Lemma Qabs_mult_le (x y A B : Q) : Qabs x <= A → Qabs y <= B → Qabs (x * y) <= A * B.
Proof.
  intros Hx Hy. rewrite Qabs_Qmult.
  pose proof (Qabs_nonneg x). pose proof (Qabs_nonneg y).
  apply Qmult_le_compat_nonneg; split; done.
Qed.

Lemma near_exact (x : Q) : near (Num.Fin x) x 0.
Proof.
  exists x. split; [done|]. assert (x - x == 0) as -> by ring. done.
Qed.

(** The error of a product of two approximations. *)
Lemma near_mul (a b : Num.number) (va vb ea eb A B e : Q) :
  near a va ea → near b vb eb → Qabs va <= A → Qabs vb <= B →
  (A + ea) * (B + eb) <= 2 ^ 1023 →
  ea * (B + eb) + A * eb + (roundoff * ((A + ea) * (B + eb)) + underflow) <= e →
  near (a * b)%b64 (va * vb) e.
Proof.
  intros (x & -> & Hx) (y & -> & Hy) HA HB Hmax He. cbn [mul].
  pose proof (Qabs_bound _ _ _ _ Hx HA) as Hxa.
  pose proof (Qabs_bound _ _ _ _ Hy HB) as Hyb.
  pose proof (Qabs_mult_le _ _ _ _ Hxa Hyb) as Hxy.
  destruct (round_near (x * y) _ _ Hxy Hmax (Qle_refl _)) as (z & -> & Hz).
  exists z. split; [done|].
  assert (z - va * vb == (z - x * y) + ((x - va) * y + va * (y - vb))) as -> by ring.
  pose proof (Qabs_mult_le _ _ _ _ Hx Hyb) as H1.
  pose proof (Qabs_mult_le _ _ _ _ HA Hy) as H2.
  pose proof (Qabs_triangle (z - x * y) ((x - va) * y + va * (y - vb))) as T1.
  pose proof (Qabs_triangle ((x - va) * y) (va * (y - vb))) as T2.
  generalize dependent (Qabs (z - x * y + ((x - va) * y + va * (y - vb)))).
  generalize dependent (Qabs ((x - va) * y + va * (y - vb))).
  generalize dependent (Qabs ((x - va) * y)). generalize dependent (Qabs (va * (y - vb))).
  generalize dependent (Qabs (z - x * y)).
  generalize dependent (roundoff * ((A + ea) * (B + eb)) + underflow).
  generalize dependent (ea * (B + eb)). generalize dependent (A * eb).
  intros. lra.
Qed.

(** The error of an approximation divided by a positive constant. *)
Lemma near_div (a : Num.number) (va ea A c e : Q) :
  near a va ea → Qabs va <= A → 0 < c →
  (A + ea) / c <= 2 ^ 1023 →
  ea / c + (roundoff * ((A + ea) / c) + underflow) <= e →
  near (a / Num.Fin c)%b64 (va / c) e.
Proof.
  intros (x & -> & Hx) HA Hc Hmax He. cbn [div].
  assert (Qeq_bool c 0 = false) as ->.
  { destruct (Qeq_bool c 0) eqn:E; [|done]. apply Qeq_bool_iff in E. lra. }
  pose proof (Qabs_bound _ _ _ _ Hx HA) as Hxa.
  assert (0 < / c) as Hic by (by apply Qinv_lt_0_compat).
  assert (Qabs (/ c) <= / c) as Hci by (rewrite Qabs_pos; lra).
  pose proof (Qabs_mult_le _ _ _ _ Hxa Hci) as Hxy.
  destruct (round_near (x / c) _ _ Hxy Hmax (Qle_refl _)) as (z & -> & Hz).
  exists z. split; [done|].
  assert (z - va / c == (z - x / c) + (x - va) * / c) as -> by (field; lra).
  pose proof (Qabs_mult_le _ _ _ _ Hx Hci) as H1.
  pose proof (Qabs_triangle (z - x / c) ((x - va) * / c)) as T1.
  unfold Qdiv in *.
  generalize dependent (Qabs (z - x * / c + (x - va) * / c)).
  generalize dependent (Qabs ((x - va) * / c)).
  generalize dependent (Qabs (z - x * / c)).
  generalize dependent (roundoff * ((A + ea) * / c) + underflow).
  generalize dependent (ea * / c).
  intros. lra.
Qed.

(** The error of a sum of two approximations. *)
Lemma near_add (a b : Num.number) (va vb ea eb A B e : Q) :
  near a va ea → near b vb eb → Qabs va <= A → Qabs vb <= B →
  A + ea + (B + eb) <= 2 ^ 1023 →
  ea + eb + (roundoff * (A + ea + (B + eb)) + underflow) <= e →
  near (a + b)%b64 (va + vb) e.
Proof.
  intros (x & -> & Hx) (y & -> & Hy) HA HB Hmax He. cbn [add].
  pose proof (Qabs_bound _ _ _ _ Hx HA) as Hxa.
  pose proof (Qabs_bound _ _ _ _ Hy HB) as Hyb.
  assert (Qabs (x + y) <= A + ea + (B + eb)) as Hxy.
  { pose proof (Qabs_triangle x y). lra. }
  destruct (round_near (x + y) _ _ Hxy Hmax (Qle_refl _)) as (z & -> & Hz).
  exists z. split; [done|].
  assert (z - (va + vb) == (z - (x + y)) + ((x - va) + (y - vb))) as -> by ring.
  pose proof (Qabs_triangle (z - (x + y)) ((x - va) + (y - vb))) as T1.
  pose proof (Qabs_triangle (x - va) (y - vb)) as T2.
  generalize dependent (Qabs (z - (x + y) + (x - va + (y - vb)))).
  generalize dependent (Qabs (x - va + (y - vb))).
  generalize dependent (Qabs (x - va)). generalize dependent (Qabs (y - vb)).
  generalize dependent (Qabs (z - (x + y))).
  generalize dependent (roundoff * (A + ea + (B + eb)) + underflow).
  intros. lra.
Qed.

(** [Math.round] of an approximation: an integer, at most a half further
    from the exact value. *)
Lemma near_Math_round (a : Num.number) (va ea : Q) :
  near a va ea →
  ∃ n : Z, Math_round a = Num.Fin (inject_Z n)
    ∧ Qabs (inject_Z n - va) <= (1 # 2) + ea.
Proof.
  intros (x & -> & Hx). exists (Num.Math_round x). split; [done|].
  unfold Num.Math_round.
  pose proof (Qfloor_le (x + (1 # 2))) as Hlo.
  pose proof (Qlt_floor (x + (1 # 2))) as Hhi.
  rewrite inject_Z_plus in Hhi. change (inject_Z 1) with 1 in Hhi.
  apply Qabs_Qle_condition in Hx. apply Qabs_Qle_condition. lra.
Qed.

End rounding.

(** [B64] against the kernel.  On every distance up to 300 m with the
    default vehicle, on the distances below with another vehicle and with a
    fuel efficiency of 1e17, the products and sums that
    [handleEstimateCosts] rounds, and the quotient of the distance by 100,
    are in [B64] what they are in the binary64 arithmetic of the kernel. *)
Example B64_agrees_with_the_kernel :
  let distances :=
    [700; 1875; 2900; 7500; 12500; 20700; 42300; 100000; 123456; 1609344;
     40075017; 10 ^ 8] in
  forallb (λ d, Kernel.agree d 80 150) (seqZ 0 301 ++ distances) = true
  ∧ forallb (λ d, Kernel.agree d 65 189) distances = true
  ∧ forallb (λ d, Kernel.agree d (10 ^ 18) 150) distances = true.
Proof. by vm_compute. Qed.

(** The same at the extremes: overflow to an infinity, results that are
    subnormal or vanish, ties. *)
Example B64_agrees_at_the_extremes :
  Kernel.agree_on Kernel.extremes Kernel.partners = true.
Proof. by vm_compute. Qed.

(** ** Cost estimation *)

Section costs.
Context `{Platform}.

Ltac closed := by vm_compute.

Lemma Math_round_half_up (y : Q) : nearest_half_up y (Num.Math_round y).
Proof.
  unfold nearest_half_up, Num.Math_round.
  pose proof (Qfloor_le (y + (1 # 2))) as Hlo.
  pose proof (Qlt_floor (y + (1 # 2))) as Hhi.
  rewrite inject_Z_plus in Hhi. change (inject_Z 1) with 1%Q in Hhi.
  split; lra.
Qed.

Lemma literal_100 : B64.literal 100 = Num.Fin 100.
Proof. by vm_compute. Qed.

Lemma literal_1000 : B64.literal 1000 = Num.Fin 1000.
Proof. by vm_compute. Qed.

(** The handler fails only when the provider call does, and with the
    provider's message; otherwise it returns [cost_result]. *)
Lemma handleEstimateCosts_unfold args o :
  handleEstimateCosts args o =
    let vehicleOptions :=
      default {| fuelEfficiency := None; fuelPrice := None |} (vehicleOptions args) in
    match (calculateRoute (estimate_request args) o).1 with
    | Throw message => (Throw message, (calculateRoute (estimate_request args) o).2)
    | Ok route =>
        (Ok (text_result (cost_payload
               (cost_result vehicleOptions route
                  (timestamp_now (calculateRoute (estimate_request args) o).2)))),
         (calculateRoute (estimate_request args) o).2)
    end.
Proof.
  unfold handleEstimateCosts.
  by destruct (calculateRoute (estimate_request args) o) as [[route|message] o1].
Qed.

(** [Math.round(x * 100) / 100] takes the product as binary64 has it to the
    nearest integer, a tie going up, and divides that by 100. *)
Lemma round_cents_half_up (x : Num.number) (y : Q) :
  (x * B64.literal 100)%b64 = Num.Fin y →
  round_cents x = B64.round (inject_Z (Num.Math_round y) / 100)
  ∧ nearest_half_up y (Num.Math_round y).
Proof.
  intros Hy. unfold round_cents. rewrite Hy, literal_100.
  split; [done | apply Math_round_half_up].
Qed.

(** [Math.round(x * 100) / 100] of an approximation: a whole number of
    cents, half a cent and a hundred times the error from the exact value. *)
Lemma near_round_cents (x : Num.number) (v e A E : Q) :
  near x v e → (Qabs v <= A)%Q →
  ((A + e) * (100 + 0) <= 2 ^ 1023)%Q →
  (e * (100 + 0) + A * 0 + (roundoff * ((A + e) * (100 + 0)) + underflow) <= E)%Q →
  ∃ n : Z, round_cents x = B64.round (inject_Z n / 100)
    ∧ (Qabs (inject_Z n - v * 100) <= (1 # 2) + E)%Q.
Proof.
  intros Hx HA Hmax HE. unfold round_cents. rewrite literal_100.
  pose proof (near_mul x (Num.Fin 100) v 100 e 0 A 100 E Hx (near_exact 100) HA
                ltac:(done) Hmax HE) as Hm.
  destruct (near_Math_round _ _ _ Hm) as (n & -> & Hn).
  exists n. done.
Qed.

Lemma distance_bound (d : Z) (c B : Q) :
  0 ≤ d ≤ 10 ^ 8 → (0 < c)%Q → (10 ^ 8 / c <= B)%Q → (Qabs (inject_Z d / c) <= B)%Q.
Proof.
  intros Hd Hc HB.
  assert (0 <= inject_Z d)%Q as H0 by (unfold Qle; simpl; lia).
  assert (inject_Z d <= 10 ^ 8)%Q as H1 by (unfold Qle; simpl; lia).
  assert (0 < / c)%Q as Hic by (by apply Qinv_lt_0_compat).
  unfold Qdiv in *.
  assert (0 <= inject_Z d * / c)%Q by (apply Qmult_le_0_compat; lra).
  assert (inject_Z d * / c <= 10 ^ 8 * / c)%Q by (apply Qmult_le_compat_r; lra).
  rewrite Qabs_pos by done. lra.
Qed.

Lemma near_distanceKm (d : Z) :
  0 ≤ d ≤ 10 ^ 8 →
  near (B64.of_Z d / B64.literal 1000)%b64 (inject_Z d / 1000) (1 # 10 ^ 10).
Proof.
  intros Hd. rewrite literal_1000.
  assert (Qabs (inject_Z d) <= 10 ^ 8)%Q as HA.
  { rewrite Qabs_pos by (unfold Qle; simpl; lia). unfold Qle; simpl. lia. }
  assert (near (B64.of_Z d) (inject_Z d) (2 # 10 ^ 8)) as H0
    by (apply (round_near _ (10 ^ 8)); [done | closed | closed]).
  apply (near_div _ _ (2 # 10 ^ 8) (10 ^ 8)); [done | done | done | closed | closed].
Qed.

Lemma near_fuelCost (d : Z) (fe fp : Q) :
  0 ≤ d ≤ 10 ^ 8 → (Qabs fe <= 1000)%Q → (Qabs fp <= 1000)%Q →
  near (B64.of_Z d / B64.literal 1000 / B64.literal 100 * Num.Fin fe * Num.Fin fp)%b64
       (inject_Z d / 1000 / 100 * fe * fp) (4 # 10 ^ 6)
  ∧ (Qabs (inject_Z d / 1000 / 100 * fe * fp) <= 10 ^ 9)%Q.
Proof.
  intros Hd Hfe Hfp.
  pose proof (near_distanceKm d Hd) as Hkm.
  assert (near (B64.of_Z d / B64.literal 1000 / B64.literal 100)%b64
            (inject_Z d / 1000 / 100) (2 # 10 ^ 12)) as H2.
  { rewrite literal_100.
    apply (near_div _ _ (1 # 10 ^ 10) (10 ^ 5)); [done | | done | closed | closed].
    apply distance_bound; [done | done | closed]. }
  assert (Qabs (inject_Z d / 1000 / 100) <= 10 ^ 3)%Q as HA2.
  { assert (inject_Z d / 1000 / 100 == inject_Z d / 100000)%Q as -> by (field; done).
    apply distance_bound; [done | done | closed]. }
  assert (near (B64.of_Z d / B64.literal 1000 / B64.literal 100 * Num.Fin fe)%b64
            (inject_Z d / 1000 / 100 * fe) (3 # 10 ^ 9)) as H3.
  { apply (near_mul _ _ _ _ (2 # 10 ^ 12) 0 (10 ^ 3) 1000);
      [done | apply near_exact | done | done | closed | closed]. }
  pose proof (Qabs_mult_le _ _ _ _ HA2 Hfe) as HA3.
  pose proof (Qabs_mult_le _ _ _ _ HA3 Hfp) as HA4.
  split; [|exact HA4].
  apply (near_mul _ _ _ _ (3 # 10 ^ 9) 0 (10 ^ 3 * 1000) 1000);
    [done | apply near_exact | done | done | closed | closed].
Qed.

Lemma near_tollCost (d : Z) :
  0 ≤ d ≤ 10 ^ 8 →
  near (B64.of_Z d / B64.literal 1000 * B64.literal 0.05)%b64
       (inject_Z d / 1000 * 0.05) (1 # 10 ^ 11)
  ∧ (Qabs (inject_Z d / 1000 * 0.05) <= 10 ^ 5 * 0.05)%Q.
Proof.
  intros Hd.
  pose proof (near_distanceKm d Hd) as Hkm.
  assert (near (B64.literal 0.05) 0.05 (1 # 10 ^ 17)) as H05
    by (apply (round_near _ 0.05); closed).
  assert (Qabs (inject_Z d / 1000) <= 10 ^ 5)%Q as HA
    by (apply distance_bound; [done | done | closed]).
  split; [|apply Qabs_mult_le; [done | closed]].
  apply (near_mul _ _ _ _ (1 # 10 ^ 10) (1 # 10 ^ 17) (10 ^ 5) 0.05);
    [done | done | done | closed | closed | closed].
Qed.

(** Away from the half cents the reported number of cents is decided. *)
Lemma reported_cents_decided (a : Num.number) (n k : Z) (x : Q) :
  reported_cents a n x → (Qabs (x * 100 - inject_Z k) < 499 # 1000)%Q → n = k.
Proof.
  intros [_ Hn] Hk.
  apply Qabs_Qle_condition in Hn. apply Qabs_Qlt_condition in Hk.
  assert (inject_Z (n - k) < inject_Z 1)%Q as Hhi.
  { unfold Z.sub. rewrite inject_Z_plus, inject_Z_opp. change (inject_Z 1) with 1%Q. lra. }
  assert (inject_Z (-1) < inject_Z (n - k))%Q as Hlo.
  { unfold Z.sub. rewrite inject_Z_plus, inject_Z_opp. change (inject_Z (-1)) with (-1)%Q. lra. }
  rewrite <- Zlt_Qlt in Hhi, Hlo. lia.
Qed.

(** The three amounts of an estimate, for a route of at most 100 000 km and
    values in effect of at most 1000 in magnitude. *)
Lemma cost_result_cents vehicleOptions route timestamp (fe fp : Q) :
  0 ≤ distance route ≤ 10 ^ 8 →
  effective (fuelEfficiency vehicleOptions) 8.0 = Num.Fin fe → (Qabs fe <= 1000)%Q →
  effective (fuelPrice vehicleOptions) 1.50 = Num.Fin fp → (Qabs fp <= 1000)%Q →
  let c := costs (cost_result vehicleOptions route timestamp) in
  let distanceKm := (inject_Z (distance route) / 1000)%Q in
  ∃ fuel_cents toll_cents total_cents : Z,
    reported_cents (amount (fuel c)) fuel_cents (distanceKm / 100 * fe * fp)
    ∧ reported_cents (amount (tolls c)) toll_cents (distanceKm * 0.05)
    ∧ reported_cents (amount (total c)) total_cents
        (distanceKm / 100 * fe * fp + distanceKm * 0.05).
Proof.
  intros Hd Hfe Hfea Hfp Hfpa c distanceKm. subst c distanceKm.
  cbn [costs cost_result fuel tolls total amount]. rewrite Hfe, Hfp.
  destruct (near_fuelCost (distance route) fe fp Hd Hfea Hfpa) as [Hfuel HAf].
  destruct (near_tollCost (distance route) Hd) as [Htoll HAt].
  destruct (near_round_cents _ _ _ _ (1 # 1000) Hfuel HAf ltac:(closed) ltac:(closed))
    as (nf & Hnf & Hbf).
  destruct (near_round_cents _ _ _ _ (1 # 1000) Htoll HAt ltac:(closed) ltac:(closed))
    as (nt & Hnt & Hbt).
  pose proof (near_add _ _ _ _ _ _ _ _ (5 # 10 ^ 6) Hfuel Htoll HAf HAt
                ltac:(closed) ltac:(closed)) as Hsum.
  assert (Qabs (inject_Z (distance route) / 1000 / 100 * fe * fp
                + inject_Z (distance route) / 1000 * 0.05) <= 10 ^ 9 + 10 ^ 5 * 0.05)%Q
    as HAs.
  { pose proof (Qabs_triangle (inject_Z (distance route) / 1000 / 100 * fe * fp)
                  (inject_Z (distance route) / 1000 * 0.05)) as T.
    generalize dependent (Qabs (inject_Z (distance route) / 1000 / 100 * fe * fp
                                + inject_Z (distance route) / 1000 * 0.05)%Q).
    generalize dependent (Qabs (inject_Z (distance route) / 1000 / 100 * fe * fp)%Q).
    generalize dependent (Qabs (inject_Z (distance route) / 1000 * 0.05)%Q).
    intros. lra. }
  destruct (near_round_cents _ _ _ _ (1 # 1000) Hsum HAs ltac:(closed) ltac:(closed))
    as (ns & Hns & Hbs).
  exists nf, nt, ns. done.
Qed.

(** C4, as the code has it.  The fuel, toll and total cost are
    [distanceKm / 100 * fuelEfficiency * fuelPrice], [distanceKm * 0.05] and
    their sum, computed in binary64, and each amount of the estimate is
    [Math.round(cost * 100) / 100].  For a route of at most 100 000 km and
    values in effect (the supplied ones, or 8.0 and 1.50) of at most 1000
    in magnitude, each amount is the double nearest to a whole number of
    cents, and that number is at most 0.501 from the exact value of the
    formula in cents: the exact value rounded to the nearest cent, unless
    it lies within a thousandth of a cent of a half cent. *)
Theorem handleEstimateCosts_amounts args o route o1 (fe fp : Q) :
  calculateRoute (estimate_request args) o = (Ok route, o1) →
  0 ≤ distance route ≤ 10 ^ 8 →
  let given := default {| fuelEfficiency := None; fuelPrice := None |} (vehicleOptions args) in
  effective (fuelEfficiency given) 8.0 = Num.Fin fe → (Qabs fe <= 1000)%Q →
  effective (fuelPrice given) 1.50 = Num.Fin fp → (Qabs fp <= 1000)%Q →
  let distanceKm := (inject_Z (distance route) / 1000)%Q in
  let fuelCost := (distanceKm / 100 * fe * fp)%Q in
  let tollCost := (distanceKm * 0.05)%Q in
  ∃ r (fuel_cents toll_cents total_cents : Z),
    handleEstimateCosts args o = (Ok (text_result (cost_payload r)), o1)
    ∧ reported_cents (amount (fuel (costs r))) fuel_cents fuelCost
    ∧ reported_cents (amount (tolls (costs r))) toll_cents tollCost
    ∧ reported_cents (amount (total (costs r))) total_cents (fuelCost + tollCost)
    ∧ (∀ k : Z, (Qabs (tollCost * 100 - inject_Z k) < 499 # 1000)%Q → toll_cents = k)
    ∧ (∀ k : Z, (Qabs (fuelCost * 100 - inject_Z k) < 499 # 1000)%Q → fuel_cents = k)
    ∧ (∀ k : Z, (Qabs ((fuelCost + tollCost) * 100 - inject_Z k) < 499 # 1000)%Q →
         total_cents = k).
Proof.
  intros Hcall Hd given Hfe Hfea Hfp Hfpa distanceKm fuelCost tollCost.
  rewrite handleEstimateCosts_unfold, Hcall. cbn [fst snd]. fold given.
  destruct (cost_result_cents given route (timestamp_now o1) fe fp Hd Hfe Hfea Hfp Hfpa)
    as (nf & nt & ns & Hnf & Hnt & Hns).
  eexists _, nf, nt, ns. split; [reflexivity|].
  split; [exact Hnf|]. split; [exact Hnt|]. split; [exact Hns|].
  split; [|split]; intros k Hk.
  - exact (reported_cents_decided _ _ _ _ Hnt Hk).
  - exact (reported_cents_decided _ _ _ _ Hnf Hk).
  - exact (reported_cents_decided _ _ _ _ Hns Hk).
Qed.

(** What [||] makes of a vehicle option. *)
Lemma parse_zero (q : Q) : (q == 0)%Q → B64.falsy (B64.parse q) = true.
Proof.
  intros Hq. unfold B64.parse, B64.round.
  pose proof (nearest_zero q Hq) as Hz.
  destruct (Qle_bool (2 ^ 1024) (Qabs (B64.nearest q))) eqn:E.
  - exfalso. apply Qle_bool_iff in E. rewrite Hz in E. by vm_compute in E.
  - cbn [B64.falsy]. by apply Qeq_bool_iff.
Qed.

Lemma effective_falsy (q d : Q) : (q == 0)%Q → effective (Some q) d = B64.literal d.
Proof. intros Hq. unfold effective. cbn. by rewrite (parse_zero q Hq). Qed.


(** The estimate depends on [vehicleOptions] only through the two values
    in effect. *)
Lemma handleEstimateCosts_effective args fe fp o :
  let given := default {| fuelEfficiency := None; fuelPrice := None |} (vehicleOptions args) in
  effective (fuelEfficiency given) 8.0 = effective fe 8.0 →
  effective (fuelPrice given) 1.50 = effective fp 1.50 →
  handleEstimateCosts args o = handleEstimateCosts (with_vehicle args fe fp) o.
Proof.
  intros given Hfe Hfp. rewrite !handleEstimateCosts_unfold.
  change (estimate_request (with_vehicle args fe fp)) with (estimate_request args).
  destruct (calculateRoute (estimate_request args) o) as [[route|message] o1];
    cbn [fst snd]; [|done].
  do 3 f_equal. unfold cost_result. fold given. cbn [default vehicleOptions with_vehicle].
  cbn [fuelEfficiency fuelPrice]. by rewrite Hfe, Hfp.
Qed.


(** C10.  A supplied [fuelEfficiency] or [fuelPrice] of zero is falsy: the
    call behaves in every respect like the call with the default (8.0,
    1.50) in its place, so it fails only if the provider call fails, and
    the estimate is computed with the default. *)
Theorem handleEstimateCosts_falsy args o q :
  let given := default {| fuelEfficiency := None; fuelPrice := None |} (vehicleOptions args) in
  (q == 0)%Q →
  (fuelEfficiency given = Some q →
     handleEstimateCosts args o =
       handleEstimateCosts (with_vehicle args (Some 8.0%Q) (fuelPrice given)) o
     ∧ ∀ route o1, calculateRoute (estimate_request args) o = (Ok route, o1) →
         ∃ r, handleEstimateCosts args o = (Ok (text_result (cost_payload r)), o1)
           ∧ amount (fuel (costs r)) =
               round_cents (B64.of_Z (distance route) / B64.literal 1000
                            / B64.literal 100 * B64.literal 8.0
                            * effective (fuelPrice given) 1.50)%b64)
  ∧ (fuelPrice given = Some q →
     handleEstimateCosts args o =
       handleEstimateCosts (with_vehicle args (fuelEfficiency given) (Some 1.50%Q)) o
     ∧ ∀ route o1, calculateRoute (estimate_request args) o = (Ok route, o1) →
         ∃ r, handleEstimateCosts args o = (Ok (text_result (cost_payload r)), o1)
           ∧ amount (fuel (costs r)) =
               round_cents (B64.of_Z (distance route) / B64.literal 1000
                            / B64.literal 100 * effective (fuelEfficiency given) 8.0
                            * B64.literal 1.50)%b64).
Proof.
  intros given Hq. split; intros Hsome.
  - split.
    + apply handleEstimateCosts_effective; [|done].
      fold given. by rewrite Hsome, effective_falsy.
    + intros route o1 Hcall. rewrite handleEstimateCosts_unfold, Hcall.
      eexists. split; [reflexivity|].
      cbn [costs cost_result fuel amount]. fold given.
      by rewrite Hsome, effective_falsy.
  - split.
    + apply handleEstimateCosts_effective; [done|].
      fold given. by rewrite Hsome, effective_falsy.
    + intros route o1 Hcall. rewrite handleEstimateCosts_unfold, Hcall.
      eexists. split; [reflexivity|].
      cbn [costs cost_result fuel amount]. fold given.
      by rewrite Hsome, effective_falsy.
Qed.

End costs.

(** The estimate of the specification: 100 km at 8.0 L/100km and 1.50 per
    liter costs 12.00 in fuel, 5.00 in tolls, 17.00 in total; the defaults
    give the same. *)
Example estimate_100km :
  let P := platform (λ _, Ok (route_of 100000 3600 3960)) in
  let given := {| fuelEfficiency := Some 8.0%Q; fuelPrice := Some 1.50%Q |} in
  let absent := {| fuelEfficiency := None; fuelPrice := None |} in
  let r := @cost_result P given (route_of 100000 3600 3960) [] in
  amount (fuel (costs r)) = Num.Fin 12
  ∧ amount (tolls (costs r)) = Num.Fin 5
  ∧ amount (total (costs r)) = Num.Fin 17
  ∧ @cost_result P absent (route_of 100000 3600 3960) [] = r.
Proof. by vm_compute. Qed.

Lemma handleEstimateCosts_amounts_witness :
  let P := platform (λ _, Ok (route_of 100000 3600 3960)) in
  let args := trip "New York, NY" "Boston, MA"
                (Some {| fuelEfficiency := Some 8.0%Q; fuelPrice := Some 1.50%Q |}) in
  let fuelCost := (inject_Z 100000 / 1000 / 100 * 8 * (3 # 2))%Q in
  let tollCost := (inject_Z 100000 / 1000 * 0.05)%Q in
  ∃ r (fuel_cents toll_cents total_cents : Z),
    @handleEstimateCosts P args {| world := 0; issued := [] |}
    = (Ok (text_result (cost_payload r)),
       {| world := 1; issued := [@estimate_request args] |})
    ∧ reported_cents (amount (fuel (costs r))) fuel_cents fuelCost
    ∧ reported_cents (amount (tolls (costs r))) toll_cents tollCost
    ∧ reported_cents (amount (total (costs r))) total_cents (fuelCost + tollCost)
    ∧ (∀ k : Z, (Qabs (tollCost * 100 - inject_Z k) < 499 # 1000)%Q → toll_cents = k)
    ∧ (∀ k : Z, (Qabs (fuelCost * 100 - inject_Z k) < 499 # 1000)%Q → fuel_cents = k)
    ∧ (∀ k : Z, (Qabs ((fuelCost + tollCost) * 100 - inject_Z k) < 499 # 1000)%Q →
         total_cents = k).
Proof.
  intros P args fuelCost tollCost.
  refine (@handleEstimateCosts_amounts P args {| world := 0; issued := [] |}
            (route_of 100000 3600 3960) _ 8 (3 # 2) _ _ _ _ _ _).
  - reflexivity.
  - vm_compute. split; discriminate.
  - reflexivity.
  - vm_compute; discriminate.
  - reflexivity.
  - vm_compute; discriminate.
Defined.

(** C4 on an ordinary route.  Over 700 m the toll is 0.035 exactly, which
    round-half-away-from-zero takes to 0.04; the handler reports 0.03,
    the binary64 product of 0.7 and 0.05 times 100 being
    3.4999999999999996. *)
Lemma toll_of_700_meters :
  let P := platform (λ _, Ok (route_of 700 120 120)) in
  let args := trip "Harvard Square" "Central Square" None in
  let out := @handleEstimateCosts P args {| world := 0; issued := [] |} in
  let tollCost := (inject_Z 700 / 1000 * 0.05)%Q in
  ∃ r, out.1 = Ok (text_result (cost_payload r))
    ∧ (tollCost == 0.035)%Q
    ∧ rounded_2dp nearest_half_away tollCost 0.04
    ∧ amount (tolls (costs r)) = B64.literal 0.03
    ∧ B64.literal 0.03 ≠ B64.literal 0.04.
Proof.
  intros P args out tollCost. eexists. split; [reflexivity|].
  split; [by vm_compute|]. split; [|split; by vm_compute].
  exists 4. split; [|by vm_compute].
  right. split; by vm_compute.
Qed.

(** A negative tie.  A fuel efficiency of -1 over 12.5 km at price 1 gives a
    fuel cost of -0.125, every step being exact in binary64; the handler
    reports -0.12, the tie having gone up, where round-half-away-from-zero
    gives -0.13. *)
Example negative_tie_goes_up :
  let P := platform (λ _, Ok (route_of 12500 900 900)) in
  let args := trip "Cambridge, MA" "Boston, MA"
                (Some {| fuelEfficiency := Some (-1)%Q; fuelPrice := Some 1%Q |}) in
  let out := @handleEstimateCosts P args {| world := 0; issued := [] |} in
  ∃ r, out.1 = Ok (text_result (cost_payload r))
    ∧ amount (fuel (costs r)) = B64.literal (-0.12)
    ∧ rounded_2dp nearest_half_away (inject_Z 12500 / 1000 / 100 * (-1) * 1) (-0.13).
Proof.
  intros P args out. eexists. split; [reflexivity|]. split; [by vm_compute|].
  exists (-13). split; [|by vm_compute]. right. split; by vm_compute.
Qed.



Lemma handleEstimateCosts_falsy_witness :
  let P := platform (λ _, Ok (route_of 100000 3600 3960)) in
  let args := trip "New York, NY" "Boston, MA"
                (Some {| fuelEfficiency := Some 0%Q; fuelPrice := Some 2%Q |}) in
  let o := {| world := 0; issued := [] |} in
  @handleEstimateCosts P args o =
    @handleEstimateCosts P (with_vehicle args (Some 8.0%Q) (Some 2%Q)) o.
Proof.
  intros P args o.
  refine (proj1 (proj1 (@handleEstimateCosts_falsy P args o 0%Q _) _));
    reflexivity.
Defined.

(** ** calculate_route *)

Section trimming.
Implicit Types s : jsstring.

Lemma trimStart_nil s : trimStart s = [] ↔ forallb isWhiteSpace s = true.
Proof.
  induction s as [|c s IH]; cbn; [done|].
  destruct (isWhiteSpace c); cbn; [done|]. split; intros; done.
Qed.

Lemma trimStart_suffix s : ∃ spaces, s = spaces ++ trimStart s
                                     ∧ forallb isWhiteSpace spaces = true.
Proof.
  induction s as [|c s (spaces & Hs & Hsp)]; cbn; [by exists []|].
  destruct (isWhiteSpace c) eqn:Hc; [|by exists []].
  exists (c :: spaces). cbn. rewrite Hc. split; [by f_equal | done].
Qed.

(** A string trims to the empty string exactly when all of its code units
    are white space. *)
Lemma trim_nil s : trim s = [] ↔ forallb isWhiteSpace s = true.
Proof.
  unfold trim, trimEnd. split.
  - intros Hnil. apply (f_equal (@rev N)) in Hnil. rewrite rev_involutive in Hnil.
    cbn in Hnil. apply trimStart_nil in Hnil.
    rewrite forallb_forall in Hnil.
    destruct (trimStart_suffix s) as (spaces & Hs & Hsp).
    rewrite Hs, forallb_app, Hsp. cbn. apply forallb_forall.
    intros c Hc. apply Hnil. by apply in_rev in Hc.
  - intros Hall. apply trimStart_nil in Hall. by rewrite Hall.
Qed.

End trimming.

Example trim_samples :
  trim (lit "  Boston, MA ") = lit "Boston, MA"
  ∧ trim (lit "   ") = []
  ∧ trim [0x3000; 0x09; 0xA0; 0x0A; 0xFEFF]%N = []
  ∧ trim (lit " a b ") = lit "a b".
Proof. by vm_compute. Qed.

Section calculate_route.
Context `{Platform}.

Lemma blank_falsy (s : option jsstring) : blank s ↔ truthy (optional_trim s) = false.
Proof.
  destruct s as [s|]; cbn; [|done].
  destruct (trim s); split; intros; done.
Qed.

(** A missing or blank origin or destination makes the handler throw before
    it touches the outside. *)
Lemma handleCalculateRoute_blank args o :
  blank (origin args) ∨ blank (destination args) →
  handleCalculateRoute args o =
    (Throw (lit "Origin and destination are required and cannot be empty"), o).
Proof.
  rewrite !blank_falsy. intros Hblank. unfold handleCalculateRoute.
  destruct Hblank as [-> | ->]; cbn [negb orb]; [done|].
  by rewrite orb_true_r.
Qed.

Lemma handleCalculateRoute_not_blank args o :
  ¬ (blank (origin args) ∨ blank (destination args)) →
  handleCalculateRoute args o =
    match (calculateRoute (calculate_request args) o).1 with
    | Throw message => (Throw message, (calculateRoute (calculate_request args) o).2)
    | Ok route =>
        (Ok (text_result (route_payload
               (route_result (default [] (waypoints args))
                  (default {| avoidTolls := None; avoidHighways := None;
                              departureTime := None; trafficModel := None |}
                           (options args))
                  route (timestamp_now (calculateRoute (calculate_request args) o).2)))),
         (calculateRoute (calculate_request args) o).2)
    end.
Proof.
  rewrite !blank_falsy. intros Hnb. unfold handleCalculateRoute.
  destruct (truthy (optional_trim (origin args))); [|tauto].
  destruct (truthy (optional_trim (destination args))); [|tauto].
  cbn [negb orb].
  by destruct (calculateRoute (calculate_request args) o) as [[route|message] o1].
Qed.

(** C9.  A successful [calculate_route] call carries the route that the
    provider returned to one request: its steps cut to the first 8, its
    distance, duration, warnings and polyline as they are. *)
Theorem handleCalculateRoute_steps args o result o1 :
  handleCalculateRoute args o = (Ok result, o1) →
  ∃ route r,
    calculateRoute (calculate_request args) o = (Ok route, o1)
    ∧ result = text_result (route_payload r)
    ∧ ri_steps (rr_route r) = take 8 (steps route)
    ∧ (length (ri_steps (rr_route r)) ≤ 8)%nat
    ∧ meters (ri_distance (rr_route r)) = distance route
    ∧ seconds (ri_duration (rr_route r)) = duration route
    ∧ seconds (ri_durationInTraffic (rr_route r)) = durationInTraffic route
    ∧ ri_warnings (rr_route r) = warnings route
    ∧ ri_polyline (rr_route r) = polyline route.
Proof.
  intros Hcall.
  destruct (decide (blank (origin args) ∨ blank (destination args))) as [Hb|Hnb];
    [by rewrite handleCalculateRoute_blank in Hcall|].
  rewrite (handleCalculateRoute_not_blank args o Hnb) in Hcall.
  destruct (calculateRoute (calculate_request args) o) as [[route|message] o2] eqn:Hprov;
    cbn [fst snd] in Hcall; [|done].
  injection Hcall as <- <-. eexists route, _.
  split; [done|]. split; [reflexivity|]. cbn.
  repeat split. rewrite length_take. lia.
Qed.

(** With both strings present the handler sends exactly one request. *)
Lemma handleCalculateRoute_issues_one args o :
  ¬ (blank (origin args) ∨ blank (destination args)) →
  issued (handleCalculateRoute args o).2 = issued o ++ [calculate_request args].
Proof.
  intros Hnb. rewrite (handleCalculateRoute_not_blank args o Hnb).
  unfold calculateRoute.
  by destruct (googleMaps_calculateRoute (calculate_request args) (world o))
    as [[route|message] w].
Qed.

End calculate_route.

(** ** The dispatcher *)

Section dispatcher.
Context `{Platform}.

Lemma callTool_unfold name args extra s :
  callTool name args extra s =
    let admission :=
      checkRateLimit (getClientIP extra) (Date_now (world (outside s)))
        (requestCounts s) in
    if admission.1
    then (Ok (match (dispatch name args (outside s)).1 with
              | Ok result => result
              | Throw message => error_result message
              end),
          {| requestCounts := admission.2;
             outside := (dispatch name args (outside s)).2 |})
    else (Throw rate_limit_message,
          {| requestCounts := admission.2; outside := outside s |}).
Proof.
  unfold callTool.
  destruct (checkRateLimit _ _ _) as [[|] counts]; cbn [negb fst snd]; [|done].
  by destruct (dispatch name args (outside s)).
Qed.

Lemma dispatch_calculate_route args o :
  dispatch (lit "calculate_route") args o = handleCalculateRoute args o.
Proof. done. Qed.

Lemma dispatch_unknown name args o :
  name ∉ tools → dispatch name args o = (Throw (lit "Unknown tool: " ++ name), o).
Proof.
  unfold tools. rewrite !not_elem_of_cons. intros (? & ? & ? & ? & _).
  unfold dispatch. by rewrite !decide_False.
Qed.

(** The [ListToolsRequestSchema] handler treats a denial the same way. *)
Lemma listTools_denied extra s :
  (checkRateLimit (getClientIP extra) (Date_now (world (outside s)))
     (requestCounts s)).1 = false →
  (listTools extra s).1 = Throw rate_limit_message.
Proof.
  unfold listTools. destruct (checkRateLimit _ _ _) as [allowed counts].
  cbn [fst]. by intros ->.
Qed.

(** C8.  A [calculate_route] call whose origin or destination is missing
    or blank fails with the message of the validation and sends nothing to
    the provider: the handler throws with the outside untouched; an admitted
    call through the dispatcher returns the error result; and admitted or
    not, the call leaves the outside (the world behind the provider, the
    requests issued) as it was. *)
Theorem calculate_route_blank args extra s :
  blank (origin args) ∨ blank (destination args) →
  let message := lit "Origin and destination are required and cannot be empty" in
  let admission :=
    checkRateLimit (getClientIP extra) (Date_now (world (outside s)))
      (requestCounts s) in
  handleCalculateRoute args (outside s) = (Throw message, outside s)
  ∧ (admission.1 = true →
       callTool (lit "calculate_route") args extra s =
         (Ok (error_result message),
          {| requestCounts := admission.2; outside := outside s |}))
  ∧ outside (callTool (lit "calculate_route") args extra s).2 = outside s.
Proof.
  intros Hblank message admission.
  pose proof (handleCalculateRoute_blank args (outside s) Hblank) as Hthrow.
  split; [done|].
  rewrite callTool_unfold. cbv zeta. fold admission.
  rewrite dispatch_calculate_route, Hthrow.
  split; [by intros -> | by destruct (admission.1)].
Qed.

(** C2, as the code has it.  An exception raised inside the [try] block --
    an unknown tool name, a failed validation, a failure of the provider
    call -- never leaves the handler: the call resolves to the error result
    with [isError: true] and the text ["Error: " + message].  A denial by
    the rate limiter is raised before the [try] block: the handler throws
    it to its caller, having run no handler and touched nothing outside. *)
Theorem callTool_errors name args extra s :
  let admission :=
    checkRateLimit (getClientIP extra) (Date_now (world (outside s)))
      (requestCounts s) in
  let handled := dispatch name args (outside s) in
  (admission.1 = false →
     callTool name args extra s =
       (Throw rate_limit_message,
        {| requestCounts := admission.2; outside := outside s |}))
  ∧ (admission.1 = true →
       ∃ result,
         callTool name args extra s =
           (Ok result, {| requestCounts := admission.2; outside := handled.2 |})
         ∧ (∀ value, handled.1 = Ok value → result = value)
         ∧ (∀ message, handled.1 = Throw message →
              isError result = Some true
              ∧ content result =
                  [{| type := lit "text";
                      text := plain (lit "Error: " ++ message) |}]))
  ∧ (name ∉ tools →
       handled = (Throw (lit "Unknown tool: " ++ name), outside s)).
Proof.
  intros admission handled. split; [|split].
  - intros Hdenied. rewrite callTool_unfold. cbv zeta. fold admission. by rewrite Hdenied.
  - intros Hadmit. rewrite callTool_unfold. cbv zeta. fold admission handled. rewrite Hadmit.
    eexists. split; [reflexivity|].
    split; [by intros value -> | by intros message ->].
  - apply dispatch_unknown.
Qed.

End dispatcher.

Lemma calculate_route_blank_witness :
  let P := platform (λ _, Ok winding_route) in
  let args := trip "Boston, MA" "   " None in
  let s := server_at P 1000 ∅ in
  @callTool P (lit "calculate_route") args (from ip_a) s =
    (Ok (@error_result (lit "Origin and destination are required and cannot be empty")),
     {| requestCounts := (checkRateLimit ip_a 1000 ∅).2; outside := outside s |}).
Proof.
  intros P args s.
  refine (proj1 (proj2 (@calculate_route_blank P args (from ip_a) s _)) _).
  - right. reflexivity.
  - reflexivity.
Defined.

Lemma handleCalculateRoute_steps_witness :
  let P := platform (λ _, Ok winding_route) in
  let args := trip "Concord, MA" "Boston, MA" None in
  let o := {| world := 1000; issued := [] |} in
  ∃ route r,
    @calculateRoute P (calculate_request args) o =
      (Ok route, ({| world := 1001; issued := [calculate_request args] |} : @Outside P))
    ∧ (@handleCalculateRoute P args o).1 = Ok (text_result (route_payload r))
    ∧ length (steps route) = 10%nat
    ∧ ri_steps (rr_route r) = take 8 (steps route)
    ∧ (length (ri_steps (rr_route r)) ≤ 8)%nat.
Proof.
  intros P args o.
  destruct (@handleCalculateRoute_steps P args o _ _ eq_refl)
    as (route & r & Hcall & Hres & Hsteps & Hlen & _).
  exists route, r. split; [exact Hcall|]. split; [by rewrite <- Hres|].
  split; [|by split]. by injection Hcall as <-.
Defined.

Lemma callTool_errors_witness :
  let P := platform (λ _, Ok winding_route) in
  let args := trip "Concord, MA" "Boston, MA" None in
  let full := server_at P 1000 {[ ip_a := {| count := 50; window := 0 |} ]} in
  let idle := server_at P 1000 ∅ in
  @callTool P (lit "geocode") args (from ip_a) full =
    (Throw rate_limit_message,
     {| requestCounts := (checkRateLimit ip_a 1000 (requestCounts full)).2;
        outside := outside full |})
  ∧ @dispatch P (lit "geocode") args (outside idle) =
      (Throw (lit "Unknown tool: geocode"), outside idle).
Proof.
  intros P args full idle. split.
  - refine (proj1 (@callTool_errors P (lit "geocode") args (from ip_a) full) _).
    reflexivity.
  - refine (proj2 (proj2 (@callTool_errors P (lit "geocode") args (from ip_a) idle)) _).
    apply (bool_decide_unpack _). reflexivity.
Defined.

(** C2 on a denial.  An identity that has used up its window calls a tool:
    the handler throws, it does not resolve to an error result, and the
    provider is not called. *)
Lemma rate_limit_denial_is_thrown :
  let P := platform (λ _, Ok winding_route) in
  let args := trip "Concord, MA" "Boston, MA" None in
  let s := server_at P 1000 {[ ip_a := {| count := 50; window := 0 |} ]} in
  let out := @callTool P (lit "calculate_route") args (from ip_a) s in
  out.1 = Throw rate_limit_message
  ∧ (∀ result, out.1 ≠ Ok result)
  ∧ outside out.2 = outside s.
Proof. intros P args s out. split; [done|]. split; [by intros result | done]. Qed.

(** ** The rate limiter over time *)

Section traces.
Implicit Types (m : gmap jsstring RateWindow) (ip : jsstring) (es : list event).

(** What a call answers, and what it stores, depends on the map only through
    the window of the caller. *)
Lemma checkRateLimit_local ip now m m' :
  m !! ip = m' !! ip →
  (checkRateLimit ip now m).1 = (checkRateLimit ip now m').1
  ∧ (checkRateLimit ip now m).2 !! ip = (checkRateLimit ip now m').2 !! ip.
Proof.
  intros Heq. unfold checkRateLimit. cbn [fst snd].
  by rewrite !lookup_insert_eq, Heq.
Qed.

Lemma cleanup_lookup ip now m :
  cleanup now m !! ip =
    match m !! ip with
    | Some w => if decide (now - window w > WINDOW) then None else Some w
    | None => None
    end.
Proof.
  unfold cleanup. rewrite map_lookup_filter.
  destruct (m !! ip) as [w|]; cbn; [|done].
  case_decide; case_guard; cbn in *; done.
Qed.

Lemma run_cleanup now es m : run (Cleanup now :: es) m = run es (cleanup now m).
Proof. done. Qed.

Lemma run_isolated ip es : ∀ m m',
  m !! ip = m' !! ip →
  decisions ip (run es m).1 = decisions ip (run (filter (concerns ip) es) m').1
  ∧ (run es m).2 !! ip = (run (filter (concerns ip) es) m').2 !! ip.
Proof.
  induction es as [|[ip' now|now] es IH]; intros m m' Heq; [done| |].
  - destruct (decide (ip' = ip)) as [->|Hne].
    + rewrite filter_cons_True by (cbn; by case_bool_decide).
      rewrite !run_admit. cbn [fst snd]. rewrite !decisions_cons_eq.
      destruct (checkRateLimit_local ip now m m' Heq) as [-> Hm].
      destruct (IH _ _ Hm) as [-> ->]. done.
    + rewrite filter_cons_False
        by (cbn; rewrite bool_decide_eq_false_2 by done; intros []).
      rewrite run_admit. cbn [fst snd]. rewrite decisions_cons_ne by done.
      apply IH. by rewrite checkRateLimit_other.
  - rewrite filter_cons_True by done. rewrite !run_cleanup.
    apply IH. by rewrite !cleanup_lookup, Heq.
Qed.

(** Isolation of identities.  The answers an identity gets, and the window
    kept for it, are the same as if no other identity had ever called. *)
Theorem decisions_isolated ip es m :
  decisions ip (run es m).1 = decisions ip (run (filter (concerns ip) es) m).1
  ∧ (run es m).2 !! ip = (run (filter (concerns ip) es) m).2 !! ip.
Proof. by apply run_isolated. Qed.

Lemma swept_later t t' m1 m2 : t ≤ t' → swept t m1 m2 → swept t' m1 m2.
Proof.
  intros Hle Hs ip. destruct (Hs ip) as [Heq | (Hnone & w & Hw & Hage)]; [by left|].
  right. split; [done|]. exists w. split; [done | lia].
Qed.

Lemma checkRateLimit_next ip now m :
  checkRateLimit ip now m =
    (count (next_window now (m !! ip)) <=? RATE_LIMIT,
     <[ip := next_window now (m !! ip)]> m).
Proof. done. Qed.

(** A call that finds an expired window stores what a first call stores. *)
Lemma next_window_expired now w :
  now - window w > WINDOW → next_window now (Some w) = next_window now None.
Proof.
  intros Hage. unfold next_window. simpl. rewrite Z.sub_diag.
  change (0 >? WINDOW) with false.
  destruct (Z.gtb_spec (now - window w) WINDOW); [done | lia].
Qed.

Lemma swept_admit ip now m1 m2 :
  swept now m1 m2 →
  (checkRateLimit ip now m1).1 = (checkRateLimit ip now m2).1
  ∧ swept now (checkRateLimit ip now m1).2 (checkRateLimit ip now m2).2.
Proof.
  intros Hs. rewrite !checkRateLimit_next. cbn [fst snd].
  assert (next_window now (m1 !! ip) = next_window now (m2 !! ip)) as ->.
  { destruct (Hs ip) as [-> | (-> & w & -> & Hage)]; [done|].
    by rewrite next_window_expired. }
  split; [done|]. intros ip'. destruct (decide (ip' = ip)) as [->|Hne].
  - left. by rewrite !lookup_insert_eq.
  - rewrite !lookup_insert_ne by done. apply Hs.
Qed.

Lemma swept_cleanup now m1 m2 : swept now m1 m2 → swept now (cleanup now m1) m2.
Proof.
  intros Hs ip. rewrite cleanup_lookup.
  destruct (Hs ip) as [Heq | (Hnone & w & Hw & Hage)].
  - rewrite Heq. destruct (m2 !! ip) as [w|]; [|by left].
    case_decide; [|by left]. right. split; [done|]. by exists w.
  - rewrite Hnone. right. split; [done|]. by exists w.
Qed.

Lemma run_swept es : ∀ t m1 m2,
  clock_from t es → swept t m1 m2 →
  (run es m1).1 = (run (filter is_admit es) m2).1.
Proof.
  induction es as [|[ip now|now] es IH]; intros t m1 m2 Hclock Hs; [done| |];
    destruct Hclock as [Ht Hclock]; cbn [time_of] in *.
  - rewrite filter_cons_True by done. rewrite !run_admit. cbn [fst].
    destruct (swept_admit ip now m1 m2 (swept_later _ _ _ _ Ht Hs)) as [-> Hs'].
    f_equal. by eapply IH.
  - rewrite filter_cons_False by (cbn; intros []). rewrite run_cleanup.
    eapply IH; [done|]. apply swept_cleanup. by eapply swept_later.
Qed.

(** The cleanup timer is invisible.  As long as the clock does not go back,
    every call gets the answer it would get if the timer never ran. *)
Theorem cleanup_is_invisible t es m :
  clock_from t es →
  (run es m).1 = (run (filter is_admit es) m).1.
Proof. intros Hclock. eapply run_swept; [done|]. intros ip. by left. Qed.

End traces.

Lemma cleanup_is_invisible_witness :
  (run [Admit ip_a 0; Cleanup 300000; Admit ip_b 3600000; Cleanup 3600001;
        Admit ip_a 3600001] ∅).1
  = (run [Admit ip_a 0; Admit ip_b 3600000; Admit ip_a 3600001] ∅).1.
Proof.
  refine (cleanup_is_invisible 0
            [Admit ip_a 0; Cleanup 300000; Admit ip_b 3600000; Cleanup 3600001;
             Admit ip_a 3600001] ∅ _).
  cbn. repeat split; lia.
Defined.

(** ** Usage totals of the health and statistics endpoints *)

Section totals.
Context `{Platform}.
Implicit Types (m : gmap jsstring RateWindow) (ip : jsstring) (es : list event).

Lemma foldl_sum_counts (a : Z) (l : list RateWindow) :
  foldl (λ sum c, sum + count c) a l = a + sum_counts l.
Proof.
  unfold sum_counts. revert a.
  induction l as [|c l IH]; intros a; cbn; [lia|]. rewrite IH. lia.
Qed.

Lemma sum_counts_perm (l1 l2 : list RateWindow) :
  l1 ≡ₚ l2 → sum_counts l1 = sum_counts l2.
Proof. unfold sum_counts. induction 1; cbn in *; lia. Qed.

Lemma totalRequests_sum m : totalRequests m = sum_counts (map_to_list m).*2.
Proof. unfold totalRequests. by rewrite foldl_sum_counts, Z.add_0_l. Qed.

Lemma totalRequests_empty : totalRequests ∅ = 0.
Proof. unfold totalRequests. by rewrite map_to_list_empty. Qed.

Lemma totalRequests_insert_None m ip w :
  m !! ip = None → totalRequests (<[ip := w]> m) = count w + totalRequests m.
Proof.
  intros Hnone. rewrite !totalRequests_sum.
  rewrite (sum_counts_perm _ (w :: (map_to_list m).*2)); [done|].
  by rewrite (map_to_list_insert m ip w Hnone).
Qed.

Lemma totalRequests_delete m ip w :
  m !! ip = Some w → totalRequests m = count w + totalRequests (delete ip m).
Proof.
  intros Hsome. rewrite <- (totalRequests_insert_None (delete ip m) ip w)
    by apply lookup_delete_eq.
  by rewrite insert_delete_id.
Qed.

Lemma totalRequests_insert_Some m ip w0 w :
  m !! ip = Some w0 →
  totalRequests (<[ip := w]> m) = totalRequests m - count w0 + count w.
Proof.
  intros Hsome. rewrite <- insert_delete_eq.
  rewrite totalRequests_insert_None by apply lookup_delete_eq.
  rewrite (totalRequests_delete m ip w0 Hsome). lia.
Qed.

Lemma counted_delete m ip : counted m → counted (delete ip m).
Proof. intros Hm ip' w [_ Hw]%lookup_delete_Some. by eapply Hm. Qed.

Lemma size_le_totalRequests m : counted m → Z.of_nat (size m) ≤ totalRequests m.
Proof.
  induction m as [|ip w m Hnone IH] using map_ind; intros Hm.
  - by rewrite map_size_empty, totalRequests_empty.
  - rewrite map_size_insert_None, totalRequests_insert_None by done.
    assert (1 ≤ count w) by (apply (Hm ip); by rewrite lookup_insert_eq).
    assert (counted m).
    { intros ip' w' Hw'. apply (Hm ip'). rewrite lookup_insert_ne; [done|].
      intros ->. congruence. }
    specialize (IH ltac:(done)). lia.
Qed.

Lemma totalRequests_cleanup now m : counted m → totalRequests (cleanup now m) ≤ totalRequests m.
Proof.
  unfold cleanup. induction m as [|ip w m Hnone IH] using map_ind; intros Hm.
  - by rewrite map_filter_empty.
  - assert (1 ≤ count w) by (apply (Hm ip); by rewrite lookup_insert_eq).
    assert (counted m).
    { intros ip' w' Hw'. apply (Hm ip'). rewrite lookup_insert_ne; [done|].
      intros ->. congruence. }
    specialize (IH ltac:(done)). rewrite map_filter_insert.
    rewrite totalRequests_insert_None by done. case_decide.
    + rewrite totalRequests_insert_None; [lia|].
      apply map_lookup_filter_None. by left.
    + rewrite delete_id by done. lia.
Qed.

Lemma counted_cleanup now m : counted m → counted (cleanup now m).
Proof.
  intros Hm ip w Hw. unfold cleanup in Hw.
  apply map_lookup_filter_Some in Hw as [Hw _]. by eapply Hm.
Qed.

Lemma next_window_counted now stored :
  (∀ w, stored = Some w → 1 ≤ count w) → 1 ≤ count (next_window now stored).
Proof.
  intros Hw. unfold next_window.
  destruct (_ >? _); cbn; [lia|]. destruct stored as [w|]; cbn; [|lia].
  specialize (Hw w eq_refl). lia.
Qed.

Lemma counted_admit ip now m : counted m → counted (checkRateLimit ip now m).2.
Proof.
  intros Hm ip' w. rewrite checkRateLimit_next. cbn [snd].
  destruct (decide (ip' = ip)) as [->|Hne].
  - rewrite lookup_insert_eq. intros [= <-]. apply next_window_counted.
    intros w'. apply Hm.
  - rewrite lookup_insert_ne by done. apply Hm.
Qed.

(** A call raises the total by one, or lowers it when it restarts a window
    that had counted more than one request. *)
Lemma totalRequests_admit ip now m :
  counted m → totalRequests (checkRateLimit ip now m).2 ≤ totalRequests m + 1.
Proof.
  intros Hm. rewrite checkRateLimit_next. cbn [snd].
  destruct (m !! ip) as [w|] eqn:Hw.
  - rewrite (totalRequests_insert_Some m ip w) by done.
    specialize (Hm ip w Hw). unfold next_window. cbn [default].
    destruct (_ >? _); cbn; lia.
  - rewrite totalRequests_insert_None by done. unfold next_window. cbn.
    rewrite Z.sub_diag. change (0 >? WINDOW) with false. cbn. lia.
Qed.

Lemma run_counted es : ∀ m,
  counted m →
  counted (run es m).2
  ∧ totalRequests (run es m).2 ≤ totalRequests m + Z.of_nat (length (filter is_admit es)).
Proof.
  induction es as [|[ip now|now] es IH]; intros m Hm.
  - cbn. split; [done | lia].
  - rewrite run_admit, filter_cons_True by done. cbn [snd length].
    destruct (IH _ (counted_admit ip now m Hm)) as [Hc Hle].
    split; [done|]. pose proof (totalRequests_admit ip now m Hm). lia.
  - rewrite run_cleanup, filter_cons_False by (cbn; intros []).
    destruct (IH _ (counted_cleanup now m Hm)) as [Hc Hle].
    split; [done|]. pose proof (totalRequests_cleanup now m Hm). lia.
Qed.

(** The numbers of the health endpoint.  On a server whose map is what the
    calls and cleanup ticks since start-up have made of it, [GET /health]
    reports no more active identities than requests, and never more
    requests than calls were made. *)
Theorem health_totals es req s :
  requestCounts s = (run es ∅).2 →
  req_method req ≠ lit "OPTIONS" →
  req_url req = lit "/health" ∨ req_url req = lit "/" →
  ∃ b, res_answer (onRequest req s) =
         Some {| ans_status := 200;
                 ans_content_type := Some (lit "application/json");
                 ans_body := health_body b |}
       ∧ Z.of_nat (activeConnections b) ≤ hb_totalRequests b
       ∧ hb_totalRequests b ≤ Z.of_nat (length (filter is_admit es)).
Proof.
  intros Hs Hmethod Hurl. unfold onRequest. cbn [res_answer].
  rewrite decide_False by done.
  assert (bool_decide (req_url req = lit "/")
          || bool_decide (req_url req = lit "/health") = true) as ->.
  { destruct Hurl as [-> | ->]; done. }
  eexists. split; [reflexivity|]. cbn [activeConnections hb_totalRequests].
  rewrite Hs. destruct (run_counted es ∅) as [Hc Hle]; [by intros ip w|].
  rewrite totalRequests_empty in Hle. split; [by apply size_le_totalRequests | lia].
Qed.

End totals.

Lemma health_totals_witness :
  let P := platform (λ _, Ok winding_route) in
  let es := [Admit ip_a 0; Admit ip_a 10; Cleanup 300000; Admit ip_b 3700000] in
  let s := server_at P 3700001 (run es ∅).2 in
  ∃ b, res_answer (@onRequest P {| req_method := lit "GET"; req_url := lit "/health" |} s) =
         Some {| ans_status := 200;
                 ans_content_type := Some (lit "application/json");
                 ans_body := health_body b |}
       ∧ Z.of_nat (activeConnections b) ≤ hb_totalRequests b
       ∧ hb_totalRequests b ≤ Z.of_nat (length (filter is_admit es)).
Proof.
  intros P es s.
  refine (@health_totals P es _ s _ _ _).
  - reflexivity.
  - vm_compute. discriminate.
  - left. reflexivity.
Defined.

(** ** What a tool call sends to the provider *)

Section requests.
Context `{Platform}.

Lemma calculateRoute_issued rq o :
  issued (calculateRoute rq o).2 = issued o ++ [rq].
Proof.
  unfold calculateRoute. by destruct (googleMaps_calculateRoute rq (world o)).
Qed.

Lemma issue_all_cons rq requests o :
  issue_all (rq :: requests) o =
    ((calculateRoute rq o).1 :: (issue_all requests (calculateRoute rq o).2).1,
     (issue_all requests (calculateRoute rq o).2).2).
Proof.
  cbn [issue_all]. destruct (calculateRoute rq o) as [r o1]. cbn [fst snd].
  by destruct (issue_all requests o1).
Qed.

(** All the requests are sent, in order, whether or not some of them fail. *)
Lemma issue_all_issued requests : ∀ o,
  issued (issue_all requests o).2 = issued o ++ requests.
Proof.
  induction requests as [|rq requests IH]; intros o.
  - cbn. by rewrite app_nil_r.
  - rewrite issue_all_cons. cbn [snd].
    by rewrite IH, calculateRoute_issued, <- app_assoc.
Qed.

Lemma issue_all_length requests : ∀ o,
  length (issue_all requests o).1 = length requests.
Proof.
  induction requests as [|rq requests IH]; intros o; [done|].
  rewrite issue_all_cons. cbn. by rewrite IH.
Qed.

Lemma await_all_unfold requests o :
  await_all requests o =
    (Promise_all (settled_at (world (issue_all requests o).2)) (issue_all requests o).1,
     (issue_all requests o).2).
Proof. unfold await_all. by destruct (issue_all requests o). Qed.

Lemma await_all_issued requests o :
  issued (await_all requests o).2 = issued o ++ requests.
Proof. rewrite await_all_unfold. apply issue_all_issued. Qed.

Lemma settles_first_trans (at_ : nat → Z) (i j k : nat) :
  settles_first at_ i j → settles_first at_ j k → settles_first at_ i k.
Proof. unfold settles_first. lia. Qed.

Lemma settles_first_total (at_ : nat → Z) (i j : nat) :
  settles_first at_ i j ∨ settles_first at_ j i.
Proof. unfold settles_first. lia. Qed.

Lemma settles_first_antisym (at_ : nat → Z) (i j : nat) :
  settles_first at_ i j → settles_first at_ j i → i = j.
Proof. unfold settles_first. lia. Qed.

(** [first_rejection] finds the rejection that settles first. *)
Lemma first_rejection_spec (at_ : nat → Z) promises : ∀ k found,
  (∀ i m, found = Some (i, m) → (i < k)%nat) →
  match first_rejection at_ k promises found with
  | None => found = None ∧ ∀ j m, promises !! j ≠ Some (Throw m)
  | Some (i, m) =>
      (found = Some (i, m) ∨ ∃ j, i = (k + j)%nat ∧ promises !! j = Some (Throw m))
      ∧ (∀ i0 m0, found = Some (i0, m0) → settles_first at_ i i0)
      ∧ (∀ j m', promises !! j = Some (Throw m') → settles_first at_ i (k + j))
  end.
Proof.
  induction promises as [|[route|message] promises IH]; intros k found Hfound;
    cbn [first_rejection].
  - destruct found as [[i m]|].
    + split; [by left|]. split; [|done].
      intros i0 m0 [= <- <-]. right. lia.
    + done.
  - specialize (IH (S k) found ltac:(intros i m Hf; specialize (Hfound i m Hf); lia)).
    destruct (first_rejection at_ (S k) promises found) as [[i m]|].
    + destruct IH as (Hin & Hold & Hrest). split; [|split; [done|]].
      * destruct Hin as [?|(j & -> & Hj)]; [by left|].
        right. exists (S j). split; [lia | done].
      * intros [|j] m' Hj; [done|].
        replace (k + S j)%nat with (S k + j)%nat by lia. by apply (Hrest j m').
    + destruct IH as [-> Hnone]. split; [done|]. intros [|j] m'; [done | apply Hnone].
  - set (found' := match found with
                   | Some (i, m) =>
                       if at_ k <? at_ i then Some (k, message) else Some (i, m)
                   | None => Some (k, message)
                   end).
    assert (∀ i m, found' = Some (i, m) → (i < S k)%nat) as Hfound'.
    { intros i m. subst found'. destruct found as [[i0 m0]|].
      - specialize (Hfound i0 m0 eq_refl).
        destruct (at_ k <? at_ i0); intros [= <- <-]; lia.
      - intros [= <- <-]. lia. }
    assert (∃ i m, found' = Some (i, m)
              ∧ (found = Some (i, m) ∨ (i = k ∧ m = message))
              ∧ settles_first at_ i k
              ∧ ∀ i0 m0, found = Some (i0, m0) → settles_first at_ i i0)
      as (i1 & m1 & Hf1 & Hsrc & Hk & Hold1).
    { subst found'. destruct found as [[i0 m0]|].
      - specialize (Hfound i0 m0 eq_refl).
        destruct (Z.ltb_spec (at_ k) (at_ i0)).
        + exists k, message. split; [done|]. split; [by right|].
          split; [right; lia|]. intros ? ? [= <- <-]. left. lia.
        + exists i0, m0. split; [done|]. split; [by left|].
          split; [unfold settles_first; lia|]. intros ? ? [= <- <-]. right. lia.
      - exists k, message. split; [done|]. split; [by right|].
        split; [right; lia | done]. }
    specialize (IH (S k) found' Hfound'). rewrite Hf1 in IH |- *.
    destruct (first_rejection at_ (S k) promises (Some (i1, m1))) as [[i m]|];
      [|by destruct IH].
    destruct IH as (Hin & Hold & Hrest).
    specialize (Hold i1 m1 eq_refl).
    split; [|split].
    + destruct Hin as [[= -> ->]|(j & -> & Hj)].
      * destruct Hsrc as [?|[-> ->]]; [by left|].
        right. exists 0%nat. split; [lia | done].
      * right. exists (S j). split; [lia | done].
    + intros i0 m0 Hf. eapply settles_first_trans; [exact Hold | by eapply Hold1].
    + intros [|j] m' Hj.
      * replace (k + 0)%nat with k by lia. by eapply settles_first_trans.
      * replace (k + S j)%nat with (S k + j)%nat by lia. by apply (Hrest j m').
Qed.

Lemma fulfilled_all (promises : list (Result Route)) :
  (∀ j m, promises !! j ≠ Some (Throw m)) → promises = Ok <$> fulfilled promises.
Proof.
  induction promises as [|[route|message] promises IH]; intros Hall; [done| |].
  - cbn. f_equal. apply IH. intros j m. apply (Hall (S j) m).
  - by destruct (Hall 0%nat message).
Qed.

(** [Promise.all] rejects with the reason of the rejection that settles
    first, and fulfils, with every value, when there is none. *)
Lemma Promise_all_Throw (at_ : nat → Z) promises message :
  Promise_all at_ promises = Throw message
  ↔ ∃ i, promises !! i = Some (Throw message)
       ∧ ∀ j m, promises !! j = Some (Throw m) → settles_first at_ i j.
Proof.
  unfold Promise_all.
  pose proof (first_rejection_spec at_ promises 0 None ltac:(done)) as Hspec.
  destruct (first_rejection at_ 0 promises None) as [[i m]|].
  - destruct Hspec as ([?|(j & -> & Hj)] & _ & Hrest); [done|]. cbn in Hrest.
    split.
    + intros [= <-]. by exists j.
    + intros (i & Hi & Hfirst). f_equal.
      assert (j = i) as ->
        by (apply (settles_first_antisym at_); [by eapply Hrest | by eapply Hfirst]).
      congruence.
  - destruct Hspec as [_ Hnone]. split; [done|].
    intros (i & Hi & _). by destruct (Hnone i message).
Qed.

Lemma Promise_all_Ok (at_ : nat → Z) promises routes :
  Promise_all at_ promises = Ok routes ↔ promises = Ok <$> routes.
Proof.
  unfold Promise_all.
  pose proof (first_rejection_spec at_ promises 0 None ltac:(done)) as Hspec.
  destruct (first_rejection at_ 0 promises None) as [[i m]|].
  - destruct Hspec as ([?|(j & -> & Hj)] & _); [done|].
    split; [done|]. intros ->. rewrite list_lookup_fmap in Hj.
    by destruct (routes !! j).
  - destruct Hspec as [_ Hnone]. pose proof (fulfilled_all promises Hnone) as Hall.
    split.
    + by intros [= <-].
    + intros ->. f_equal. clear. induction routes as [|r routes IH]; [done|].
      cbn. by f_equal.
Qed.

Lemma await_all_length requests o routes :
  (await_all requests o).1 = Ok routes → length routes = length requests.
Proof.
  rewrite await_all_unfold. cbn [fst]. intros Hall%Promise_all_Ok.
  by rewrite <- (issue_all_length requests o), Hall, length_fmap.
Qed.

Lemma handleCompareRoutes_issued args o :
  issued (handleCompareRoutes args o).2 = issued o ++ compare_requests args.
Proof.
  unfold handleCompareRoutes. cbv zeta.
  pose proof (await_all_issued (compare_requests args) o) as Hissued.
  destruct (await_all (compare_requests args) o) as [[routes|message] o1];
    cbn [snd] in Hissued; [|done].
  by destruct (findBestRoute routes (compare_labels args)),
       (findFastestRoute routes (compare_labels args)),
       (findShortestRoute routes (compare_labels args)).
Qed.

Lemma handleGetLiveTraffic_issued args o :
  issued (handleGetLiveTraffic args o).2 = issued o ++ [traffic_request args].
Proof.
  unfold handleGetLiveTraffic, getTrafficInfo.
  pose proof (calculateRoute_issued (traffic_request args) o) as Hissued.
  change (calculateRoute _ o) with (calculateRoute (traffic_request args) o).
  by destruct (calculateRoute (traffic_request args) o) as [[route|message] o1].
Qed.

Lemma handleEstimateCosts_issued args o :
  issued (handleEstimateCosts args o).2 = issued o ++ [estimate_request args].
Proof.
  rewrite handleEstimateCosts_unfold. cbv zeta.
  pose proof (calculateRoute_issued (estimate_request args) o) as Hissued.
  by destruct (calculateRoute (estimate_request args) o) as [[route|message] o1].
Qed.

(** The upstream cost of a tool call whose arguments are an object typed as
    the input schemas.  A denied call sends nothing.  An admitted call
    sends exactly the requests of its tool -- none for an unknown tool or a
    rejected [calculate_route], one for the single-route tools, one plus
    the number of options for [compare_routes] -- whatever the provider
    answers. *)
Theorem callTool_requests name args extra s :
  let admitted :=
    (checkRateLimit (getClientIP extra) (Date_now (world (outside s)))
       (requestCounts s)).1 in
  issued (outside (callTool name args extra s).2) =
    issued (outside s) ++ (if admitted then requests_of name args else []).
Proof.
  intros admitted. rewrite callTool_unfold. cbv zeta. fold admitted.
  destruct admitted; cbn [snd outside]; [|by rewrite app_nil_r].
  unfold dispatch, requests_of.
  repeat case_decide; rewrite ?app_nil_r;
    auto using handleCompareRoutes_issued, handleGetLiveTraffic_issued,
               handleEstimateCosts_issued, handleCalculateRoute_issues_one.
  by rewrite handleCalculateRoute_blank.
Qed.

End requests.

(** ** compare_routes and get_live_traffic *)

Section outcomes.
Context `{Platform}.

Lemma compare_requests_length args :
  length (compare_requests args) = S (length (default [] (compareOptions args))).
Proof. unfold compare_requests. cbn. by rewrite length_fmap. Qed.

Lemma compare_labels_length args :
  length (compare_labels args) = S (length (default [] (compareOptions args))).
Proof. unfold compare_labels. cbn. by rewrite length_imap. Qed.

(** The outcome of [compare_routes].  Every request is sent before any is
    awaited.  The call fails exactly when one of its requests fails, and
    then with the message of the failed request whose promise settles
    first, which need not be the first in request order; it never fails
    with an error of its own.  When all succeed there is one compared route
    per request, numbered from 0 in request order, entry 0 labelled
    "Default Route", each with its label and the figures of its own route;
    the recommendation is the first-listed route of least time in traffic,
    and the time it saves over the default route is never negative. *)
Theorem handleCompareRoutes_outcome args o :
  let n := length (default [] (compareOptions args)) in
  let promises := (issue_all (compare_requests args) o).1 in
  let o1 := (issue_all (compare_requests args) o).2 in
  (handleCompareRoutes args o).2 = o1
  ∧ (∀ message, (handleCompareRoutes args o).1 = Throw message ↔
       ∃ i, promises !! i = Some (Throw message)
         ∧ ∀ j m, promises !! j = Some (Throw m) →
             settles_first (settled_at (world o1)) i j)
  ∧ (∀ fetched, promises = Ok <$> fetched →
       ∃ r, handleCompareRoutes args o = (Ok (text_result (compare_payload r)), o1)
         ∧ let c := cmpr_comparison r in
           length fetched = S n
           ∧ length (cmp_routes c) = S n
           ∧ totalRoutesCompared (cmp_summary c) = S n
           ∧ compare_labels args !! 0%nat = Some (lit "Default Route")
           ∧ (∀ i route, fetched !! i = Some route →
                ∃ entry, cmp_routes c !! i = Some entry
                  ∧ cr_id entry = i
                  ∧ cr_label entry = compare_labels args !! i
                  ∧ meters (cr_distance entry) = distance route
                  ∧ seconds (cr_durationInTraffic entry) = durationInTraffic route)
           ∧ first_minimum durationInTraffic fetched
               (best_index (recommended (cmp_recommendation c)))
               (best_route (recommended (cmp_recommendation c)))
           ∧ 0 ≤ timeSaved (cmp_recommendation c)).
Proof.
  intros n promises o1. unfold handleCompareRoutes. cbv zeta.
  rewrite await_all_unfold. fold promises o1.
  pose proof (Promise_all_Throw (settled_at (world o1)) promises) as Hthrow.
  pose proof (Promise_all_Ok (settled_at (world o1)) promises) as Hok.
  destruct (Promise_all (settled_at (world o1)) promises) as [fetched|message].
  - assert (promises = Ok <$> fetched) as Hall by (by apply Hok).
    assert (length fetched = S n) as Hlen.
    { unfold n. rewrite <- compare_requests_length,
        <- (issue_all_length (compare_requests args) o).
      fold promises. by rewrite Hall, length_fmap. }
    destruct fetched as [|route0 rest]; [done|].
    cbn [findBestRoute findFastestRoute findShortestRoute fst snd].
    split; [done|]. split.
    { intros message. split; [done|]. intros Hex. by apply Hthrow in Hex. }
    intros fetched' Hfetched'.
    assert (fetched' = route0 :: rest) as ->
      by (apply Hok in Hfetched'; congruence).
    eexists. split; [reflexivity|].
    cbn [cmpr_comparison cmp_routes cmp_summary totalRoutesCompared
         cmp_recommendation recommended timeSaved].
    destruct (fastest_first_minimum route0 rest (compare_labels args))
      as [Hmin _].
    split; [done|]. split; [by rewrite length_imap|]. split; [done|].
    split; [done|]. split; [|split; [done|]].
    + intros i route Hi. rewrite list_lookup_imap, Hi. cbn. by eexists.
    + destruct Hmin as (_ & Hleast & _).
      specialize (Hleast 0%nat route0 eq_refl). lia.
  - cbn [fst snd]. split; [done|]. split.
    + intros message'. rewrite <- Hthrow. split; congruence.
    + intros fetched Hfetched. apply Hok in Hfetched. done.
Qed.

(** The outcome of [get_live_traffic].  A failure of the provider call is
    reported with the prefix "Traffic info retrieval failed: ".  On a
    success the delay in seconds is the difference of the two durations,
    negative if traffic is faster, while its text then reads "0m". *)
Theorem handleGetLiveTraffic_outcome args o :
  let out := calculateRoute (traffic_request args) o in
  (∀ message, out.1 = Throw message →
     handleGetLiveTraffic args o =
       (Throw (lit "Traffic info retrieval failed: " ++ message), out.2))
  ∧ (∀ route, out.1 = Ok route →
       ∃ r, handleGetLiveTraffic args o = (Ok (text_result (traffic_payload r)), out.2)
         ∧ seconds (tf_trafficDelay (tfr_traffic r)) =
             durationInTraffic route - duration route
         ∧ (durationInTraffic route ≤ duration route →
              duration_text (tf_trafficDelay (tfr_traffic r)) = lit "0m")
         ∧ tr_summary (tf_route (tfr_traffic r)) = summary route
         ∧ tm_departureTime (tfr_metadata r) =
             default (lit "now") (arg_departureTime args)).
Proof.
  intros out. subst out. unfold handleGetLiveTraffic, getTrafficInfo.
  change (calculateRoute _ o) with (calculateRoute (traffic_request args) o).
  destruct (calculateRoute (traffic_request args) o) as [[route|message] o1];
    cbn [fst snd].
  - split; [done|]. intros ? [= <-]. eexists. split; [reflexivity|].
    cbn. split; [done|]. split; [|split; [by destruct (summary route) | done]].
    intros Hle. unfold formatDuration.
    destruct (Z.eqb_spec (durationInTraffic route - duration route) 0); [done|].
    destruct (Z.ltb_spec (durationInTraffic route - duration route) 0); [done | lia].
  - split; [by intros ? [= <-] | done].
Qed.

(** How a duration reads.  Nothing or less reads "0m".  A positive number
    of seconds is cut to whole minutes: it reads as hours and minutes from
    one hour on and as minutes alone below, the minutes staying under 60
    and the seconds beyond the last whole minute not shown. *)
Theorem formatDuration_parts (seconds : Z) :
  (seconds ≤ 0 → formatDuration seconds = lit "0m")
  ∧ (0 < seconds →
       ∃ hours minutes,
         0 ≤ hours ∧ 0 ≤ minutes < 60
         ∧ hours * 3600 + minutes * 60 ≤ seconds < hours * 3600 + minutes * 60 + 60
         ∧ formatDuration seconds =
             if 3600 <=? seconds
             then toString (inject_Z hours) ++ lit "h "
                  ++ toString (inject_Z minutes) ++ lit "m"
             else toString (inject_Z minutes) ++ lit "m").
Proof.
  unfold formatDuration. split; intros Hs.
  - destruct (Z.eqb_spec seconds 0); [done|].
    destruct (Z.ltb_spec seconds 0); [done | lia].
  - destruct (Z.eqb_spec seconds 0); [lia|].
    destruct (Z.ltb_spec seconds 0); [lia|]. cbn [orb].
    rewrite Z.rem_mod_nonneg by lia.
    exists (seconds / 3600), (seconds `mod` 3600 / 60).
    split; [apply Z.div_pos; lia|].
    split; [split; [apply Z.div_pos; [apply Z.mod_pos_bound|]; lia|];
            apply Z.div_lt_upper_bound; [lia|];
            pose proof (Z.mod_pos_bound seconds 3600); lia|].
    split.
    + pose proof (Z.div_mod seconds 3600 ltac:(lia)).
      pose proof (Z.div_mod (seconds `mod` 3600) 60 ltac:(lia)).
      pose proof (Z.mod_pos_bound (seconds `mod` 3600) 60 ltac:(lia)). lia.
    + destruct (Z.leb_spec 3600 seconds), (Z.gtb_spec (seconds / 3600) 0);
        try done.
      * assert (1 ≤ seconds / 3600) by (apply Z.div_le_lower_bound; lia). lia.
      * assert (seconds / 3600 = 0) by (apply Z.div_small; lia). lia.
Qed.

End outcomes.

(** Two failing requests.  When the promises settle in request order the
    call fails with the failure of the first request; when the second
    request is refused before the first, it fails with that of the second. *)
Example second_failure_settles_first :
  let answer rq :=
    match rq_name rq with
    | None => Throw (lit "first request failed")
    | Some _ => Throw (lit "second request failed")
    end in
  let args :=
    {| origin := Some (lit "Boston, MA"); destination := Some (lit "Albany, NY");
       waypoints := None; options := None;
       compareOptions :=
         Some [{| co_name := Some (lit "No tolls"); co_avoidTolls := Some true;
                  co_avoidHighways := None; co_trafficModel := None |}];
       arg_departureTime := None; vehicleOptions := None |} in
  let in_order := platform answer in
  let reversed := platform_settling (λ i, - Z.of_nat i) answer in
  (@handleCompareRoutes in_order args (@Build_Outside in_order 0 [])).1
    = Throw (lit "first request failed")
  ∧ (@handleCompareRoutes reversed args (@Build_Outside reversed 0 [])).1
    = Throw (lit "second request failed").
Proof. by vm_compute. Qed.

(** ** The parts of a cost estimate *)

Section cost_parts.
Context `{Platform}.

Lemma inject_Z_between (k lo hi : Z) (d : positive) :
  (lo # d <= inject_Z k)%Q → (inject_Z k <= hi # d)%Q →
  lo ≤ k * Z.pos d ∧ k * Z.pos d ≤ hi.
Proof. unfold Qle; cbn. lia. Qed.

(** The three amounts of an estimate against each other, for a route of at
    most 100 000 km and values in effect of at most 1000 in magnitude.
    Each amount is the double nearest to a whole number of cents.  The
    total is rounded from the sum of the costs, not added up from the two
    amounts: it is within one cent of fuel plus tolls.  The toll is within
    half a cent of five cents per kilometer, whatever the vehicle. *)
Theorem cost_result_parts vehicleOptions route timestamp (fe fp : Q) :
  0 ≤ distance route ≤ 10 ^ 8 →
  effective (fuelEfficiency vehicleOptions) 8.0 = Num.Fin fe → (Qabs fe <= 1000)%Q →
  effective (fuelPrice vehicleOptions) 1.50 = Num.Fin fp → (Qabs fp <= 1000)%Q →
  let c := costs (cost_result vehicleOptions route timestamp) in
  ∃ fuel_cents toll_cents total_cents : Z,
    amount (fuel c) = B64.round (inject_Z fuel_cents / 100)
    ∧ amount (tolls c) = B64.round (inject_Z toll_cents / 100)
    ∧ amount (total c) = B64.round (inject_Z total_cents / 100)
    ∧ -1 ≤ total_cents - (fuel_cents + toll_cents) ≤ 1
    ∧ -100 ≤ 200 * toll_cents - distance route ≤ 100.
Proof.
  intros Hd Hfe Hfea Hfp Hfpa c.
  destruct (cost_result_cents vehicleOptions route timestamp fe fp Hd Hfe Hfea Hfp Hfpa)
    as (nf & nt & ns & [Hnf Hbf] & [Hnt Hbt] & [Hns Hbs]).
  exists nf, nt, ns. split; [exact Hnf|]. split; [exact Hnt|]. split; [exact Hns|].
  apply Qabs_Qle_condition in Hbf, Hbt, Hbs.
  set (f := (inject_Z (distance route) / 1000 / 100 * fe * fp)%Q) in *.
  split.
  - assert (-1503 # 1000 <= inject_Z (ns - (nf + nt)))%Q as Hlo.
    { unfold Z.sub. rewrite !inject_Z_plus, inject_Z_opp, inject_Z_plus.
      clearbody f. lra. }
    assert (inject_Z (ns - (nf + nt)) <= 1503 # 1000)%Q as Hhi.
    { unfold Z.sub. rewrite !inject_Z_plus, inject_Z_opp, inject_Z_plus.
      clearbody f. lra. }
    pose proof (inject_Z_between _ _ _ _ Hlo Hhi). lia.
  - unfold Qdiv in Hbt. change (/ 1000)%Q with (1 # 1000)%Q in Hbt.
    assert (-1002 # 10 <= inject_Z (200 * nt - distance route))%Q as Hlo.
    { unfold Z.sub. rewrite inject_Z_plus, inject_Z_opp, inject_Z_mult.
      change (inject_Z 200) with 200%Q. lra. }
    assert (inject_Z (200 * nt - distance route) <= 1002 # 10)%Q as Hhi.
    { unfold Z.sub. rewrite inject_Z_plus, inject_Z_opp, inject_Z_mult.
      change (inject_Z 200) with 200%Q. lra. }
    pose proof (inject_Z_between _ _ _ _ Hlo Hhi). lia.
Qed.

End cost_parts.

Lemma cost_result_parts_witness :
  let P := platform (λ _, Ok (route_of 80 60 60)) in
  let c := costs (@cost_result P {| fuelEfficiency := Some 5%Q; fuelPrice := Some 1%Q |}
                    (route_of 80 60 60) []) in
  ∃ fuel_cents toll_cents total_cents : Z,
    amount (fuel c) = B64.round (inject_Z fuel_cents / 100)
    ∧ amount (tolls c) = B64.round (inject_Z toll_cents / 100)
    ∧ amount (total c) = B64.round (inject_Z total_cents / 100)
    ∧ -1 ≤ total_cents - (fuel_cents + toll_cents) ≤ 1
    ∧ -100 ≤ 200 * toll_cents - 80 ≤ 100.
Proof.
  intros P c.
  refine (@cost_result_parts P {| fuelEfficiency := Some 5%Q; fuelPrice := Some 1%Q |}
            (route_of 80 60 60) [] 5 1 _ _ _ _ _).
  - vm_compute. split; discriminate.
  - reflexivity.
  - vm_compute; discriminate.
  - reflexivity.
  - vm_compute; discriminate.
Defined.

(** A total that is a cent above its parts: over 80 m at 5 L/100km and a
    price of 1, fuel and tolls are 0.4 cents each and show as 0, while
    their sum of 0.8 cents shows as 0.01. *)
Example total_above_its_parts :
  let P := platform (λ _, Ok (route_of 80 60 60)) in
  let c := costs (@cost_result P {| fuelEfficiency := Some 5%Q; fuelPrice := Some 1%Q |}
                    (route_of 80 60 60) []) in
  amount (fuel c) = Num.Fin 0 ∧ amount (tolls c) = Num.Fin 0
  ∧ amount (total c) = B64.literal 0.01.
Proof. by vm_compute. Qed.

(** ** Markup stripping *)

Section markup.
Implicit Types s pre body rest post : jsstring.

Lemma existsb_gt s : existsb (N.eqb 0x3E) s = true ↔ 0x3E%N ∈ s.
Proof.
  rewrite existsb_exists. split.
  - intros (c & Hin & ->%N.eqb_eq). by apply list_elem_of_In.
  - intros Hin. exists 0x3E%N. split; [by apply list_elem_of_In | done].
Qed.

(** Inside a match, everything up to the first [>] goes. *)
Lemma strip_from_inside body rest :
  0x3E%N ∉ body →
  strip_from true (body ++ 0x3E%N :: rest) = strip_from false rest.
Proof.
  induction body as [|c body IH]; intros Hbody; [done|].
  apply not_elem_of_cons in Hbody as [Hc Hbody]. cbn.
  rewrite (proj2 (N.eqb_neq c 0x3E)) by done. by apply IH.
Qed.

(** Stripping only removes code units. *)
Lemma strip_from_elem inside s c : c ∈ strip_from inside s → c ∈ s.
Proof.
  revert inside. induction s as [|d s IH]; intros inside; [done|]. cbn.
  destruct inside.
  - destruct (d =? 0x3E)%N; intros Hc%IH; by right.
  - destruct ((d =? 0x3C)%N && existsb (N.eqb 0x3E) s).
    + intros Hc%IH. by right.
    + intros [->|Hc%IH]%elem_of_cons; [left | by right].
Qed.

Lemma tagless_tail c s : tagless (c :: s) → tagless s.
Proof. intros Hs pre post ->. by apply (Hs (c :: pre) post). Qed.

Lemma tagless_fixed s : tagless s → strip_tags s = s.
Proof.
  unfold strip_tags. induction s as [|c s IH]; intros Hs; [done|]. cbn.
  destruct (N.eqb_spec c 0x3C) as [->|Hc]; cbn [andb].
  - destruct (existsb (N.eqb 0x3E) s) eqn:Hgt.
    + apply existsb_gt in Hgt. by destruct (Hs [] s eq_refl).
    + f_equal. by eapply IH, tagless_tail.
  - f_equal. by eapply IH, tagless_tail.
Qed.

Lemma strip_from_tagless inside s : tagless (strip_from inside s).
Proof.
  revert inside. induction s as [|c s IH]; intros inside.
  - intros pre post Heq. by destruct pre.
  - cbn. destruct inside.
    + destruct (c =? 0x3E)%N; apply IH.
    + destruct (N.eqb_spec c 0x3C) as [->|Hc]; cbn [andb].
      * destruct (existsb (N.eqb 0x3E) s) eqn:Hgt; [apply IH|].
        intros pre post Heq. destruct pre as [|d pre]; simplify_eq/=.
        -- intros Hin%strip_from_elem.
           apply existsb_gt in Hin. congruence.
        -- by eapply IH.
      * intros pre post Heq. destruct pre as [|d pre]; simplify_eq/=.
        by eapply IH.
Qed.

(** The leftmost match.  When the text has a [<] with a [>] after it, the
    text before the first such [<] is kept, the match up to the next [>] is
    dropped, and stripping goes on behind it. *)
Theorem strip_tags_match pre body rest :
  0x3C%N ∉ pre → 0x3E%N ∉ body →
  strip_tags (pre ++ 0x3C%N :: body ++ 0x3E%N :: rest) = pre ++ strip_tags rest.
Proof.
  unfold strip_tags. intros Hpre Hbody.
  induction pre as [|c pre IH]; cbn.
  - assert (existsb (N.eqb 0x3E) (body ++ 0x3E%N :: rest) = true) as ->.
    { apply existsb_gt. apply elem_of_app. right. left. }
    by apply strip_from_inside.
  - apply not_elem_of_cons in Hpre as [Hc Hpre].
    rewrite (proj2 (N.eqb_neq c 0x3C)) by done. cbn [andb]. f_equal. by apply IH.
Qed.

(** What stripping leaves.  The result has no [<] with a [>] after it, text
    without such a pair is returned as it is, and so stripping twice is
    stripping once. *)
Theorem strip_tags_clean s :
  tagless (strip_tags s)
  ∧ (tagless s → strip_tags s = s)
  ∧ strip_tags (strip_tags s) = strip_tags s.
Proof.
  split; [apply strip_from_tagless|]. split; [apply tagless_fixed|].
  apply tagless_fixed, strip_from_tagless.
Qed.

End markup.

Lemma strip_tags_match_witness :
  strip_tags (lit "Turn " ++ 0x3C%N :: lit "b" ++ 0x3E%N :: lit "left</b> onto Main St")
  = lit "Turn " ++ strip_tags (lit "left</b> onto Main St").
Proof.
  refine (strip_tags_match (lit "Turn ") (lit "b") (lit "left</b> onto Main St") _ _);
    apply (bool_decide_unpack _); reflexivity.
Defined.

Example strip_tags_samples :
  strip_tags (lit "Turn <b>left</b> onto Main St") = lit "Turn left onto Main St"
  ∧ strip_tags (lit "a < b and c > d") = lit "a  d"
  ∧ strip_tags (lit "x > y < z") = lit "x > y < z"
  ∧ strip_tags (lit "<<b>>") = lit ">".
Proof. by vm_compute. Qed.

(** ** The provider adapter *)

Section adapter.
Context (R : Runtime) (apiKey : jsstring).

(** Reading a response.  Only the first route and its first leg are read:
    later routes and later legs (the stretches after a waypoint) change
    nothing.  The result takes distance and duration from that leg; its
    time in traffic is the leg's, or the duration when the leg has none or
    has 0, so it is 0 only when the duration is; its steps are the leg's,
    one for one, numbered from 1, their instructions stripped of markup. *)
Theorem read_response_first_leg data route others leg later :
  routes data = Some (route :: others) →
  legs route = leg :: later →
  ∃ r, read_response data = Ok r
    ∧ read_response (first_leg_only data) = Ok r
    ∧ distance r = tv_value (leg_distance leg)
    ∧ duration r = tv_value (leg_duration leg)
    ∧ (durationInTraffic r = 0 → duration r = 0)
    ∧ (duration_in_traffic leg = None → durationInTraffic r = duration r)
    ∧ length (steps r) = length (leg_steps leg)
    ∧ (∀ i step, leg_steps leg !! i = Some step →
         ∃ st, steps r !! i = Some st
           ∧ stepNumber st = Z.of_nat i + 1
           ∧ instruction st = strip_tags (html_instructions step)
           ∧ tagless (instruction st)
           ∧ maneuver st ≠ []).
Proof.
  intros Hroutes Hlegs. unfold read_response, first_leg_only.
  rewrite Hroutes. cbn [routes legs]. rewrite Hlegs. cbn [take].
  eexists. split; [reflexivity|]. split; [reflexivity|]. cbn.
  split; [done|]. split; [done|]. split; [|split; [by intros ->|]].
  { destruct (duration_in_traffic leg) as [d|]; [|done].
    destruct (Z.eqb_spec (tv_value d) 0); [done | by intros ?]. }
  split; [by rewrite length_imap|].
  intros i step Hstep. rewrite list_lookup_imap, Hstep. cbn.
  eexists. split; [reflexivity|]. cbn. split; [done|]. split; [done|].
  split; [apply strip_from_tagless|].
  by destruct (api_maneuver step) as [[|c m]|].
Qed.

(** The outcome of [calculateRoute].  It calls the client once.  A failure
    of the client is reported by [route_error], where a message of the API
    takes precedence over its status.  A response without routes, or whose
    first route has no leg, is reported as "Route calculation failed: "
    followed by the message of the error the adapter ran into; anything else
    is a result. *)
Theorem service_calculateRoute_outcome rq w :
  let call := client_directions R (directions_params apiKey rq) w in
  let out := service_calculateRoute R apiKey rq w in
  out.2 = call.2
  ∧ (∀ e, call.1 = inr e →
       out.1 = Throw (route_error e)
       ∧ ∀ d message, response_data e = Some d → error_message d = Some message →
           message ≠ [] → route_error e = lit "Google Maps API: " ++ message)
  ∧ (∀ data, call.1 = inl data →
       match routes data with
       | None | Some [] =>
           out.1 = Throw (lit "Route calculation failed: "
                          ++ lit "No route found between the specified locations")
       | Some (route :: _) =>
           match legs route with
           | [] => out.1 = Throw (lit "Route calculation failed: "
                                  ++ TypeError_undefined "steps")
           | _ :: _ => out.1 = read_response data ∧ ∃ r, out.1 = Ok r
           end
       end).
Proof.
  intros call out. subst call out. unfold service_calculateRoute.
  destruct (client_directions R (directions_params apiKey rq) w) as [[data|e] w1];
    cbn [fst snd].
  - split; [by destruct (read_response data)|]. split; [done|].
    intros ? [= <-]. unfold read_response.
    destruct (routes data) as [[|route others]|]; [done| |done].
    destruct (legs route) as [|leg later]; [done|]. split; [done | by eexists].
  - split; [done|]. split; [|done]. intros ? [= <-]. split; [done|].
    intros d [|c message] Hd Hm Hne; [done|].
    unfold route_error. by rewrite Hd; cbn; rewrite Hm.
Qed.

(** The outcome of [geocode].  It calls the client once; it returns the first
    result; every failure, the empty result list included, is reported with
    the prefix "Geocoding failed: ". *)
Theorem service_geocode_outcome address w :
  let call := client_geocode R address apiKey w in
  let out := service_geocode R apiKey address w in
  out.2 = call.2
  ∧ (∀ e, call.1 = inr e →
       out.1 = Throw (lit "Geocoding failed: " ++ failure_message e))
  ∧ (∀ data, call.1 = inl data →
       match results data with
       | Some (result :: _) =>
           out.1 = Ok {| place_address := formatted_address result;
                         place_location := geometry_location result;
                         placeId := place_id result |}
       | _ => out.1 = Throw (lit "Geocoding failed: Location not found: " ++ address)
       end)
  ∧ ∀ message, out.1 = Throw message →
      ∃ reason, message = lit "Geocoding failed: " ++ reason.
Proof.
  intros call out. subst call out. unfold service_geocode.
  destruct (client_geocode R address apiKey w) as [[data|e] w1]; cbn [fst snd].
  - split; [by destruct (results data) as [[|result others]|]|]. split; [done|].
    split.
    + intros ? [= <-]. by destruct (results data) as [[|result others]|].
    + intros message. destruct (results data) as [[|result others]|];
        cbn [fst]; intros [= <-]; by eexists.
  - split; [done|]. split; [by intros ? [= <-]|]. split; [done|].
    intros message [= <-]. by eexists.
Qed.

Lemma requests_of_cases name args rq :
  rq ∈ requests_of name args →
  (name = lit "calculate_route" ∧ rq = calculate_request args)
  ∨ (name = lit "compare_routes" ∧ rq ∈ compare_requests args)
  ∨ (name = lit "get_live_traffic" ∧ rq = traffic_request args)
  ∨ (name = lit "estimate_costs" ∧ rq = estimate_request args).
Proof.
  unfold requests_of.
  destruct (decide (name = lit "calculate_route")) as [->|_].
  { case_decide; [by intros ?%elem_of_nil|]. intros ->%list_elem_of_singleton. by left. }
  destruct (decide (name = lit "compare_routes")) as [->|_]; [by right; left|].
  destruct (decide (name = lit "get_live_traffic")) as [->|_].
  { intros ->%list_elem_of_singleton. by right; right; left. }
  destruct (decide (name = lit "estimate_costs")) as [->|_].
  { intros ->%list_elem_of_singleton. by right; right; right. }
  by intros ?%elem_of_nil.
Qed.

Lemma requests_ask_alternatives name args rq :
  rq ∈ requests_of name args → rq_alternatives rq ≠ Some false.
Proof.
  intros [[_ ->] | [[_ Hin] | [[_ ->] | [_ ->]]]]%requests_of_cases; try done.
  unfold compare_requests in Hin. apply elem_of_cons in Hin as [-> | Hin]; [done|].
  by apply list_elem_of_fmap in Hin as (option & -> & _).
Qed.

(** The query of a tool call.  Every request that the four tools send asks
    the provider for alternatives, although only the first route is read;
    the departure time goes out as it came in, the test for "now" changing
    nothing; waypoints and the avoid list go out only when there are any. *)
Theorem tool_queries name args rq :
  rq ∈ requests_of name args →
  let p := directions_params apiKey rq in
  p_alternatives p = true
  ∧ p_departure_time p = rq_departureTime rq
  ∧ p_key p = apiKey
  ∧ (p_waypoints p = None ↔ default [] (rq_waypoints rq) = [])
  ∧ (p_avoid p = None ↔ rq_avoidTolls rq ≠ Some true ∧ rq_avoidHighways rq ≠ Some true)
  ∧ (name = lit "get_live_traffic" ∨ name = lit "estimate_costs" →
       p_waypoints p = None ∧ p_avoid p = None
       ∧ p_traffic_model p = lit "best_guess").
Proof.
  intros Hin p. subst p. unfold directions_params.
  cbn [p_alternatives p_departure_time p_key p_waypoints p_avoid p_traffic_model].
  split; [|split; [|split; [done|split; [|split]]]].
  - by rewrite bool_decide_eq_false_2 by by eapply requests_ask_alternatives.
  - by case_decide as Hnow; [rewrite Hnow|].
  - destruct (default [] (rq_waypoints rq)) as [|wp wps]; cbn; [done|].
    split; intros; done.
  - destruct (rq_avoidTolls rq) as [[|]|], (rq_avoidHighways rq) as [[|]|]; cbn;
      split; intros; try done; tauto.
  - apply requests_of_cases in Hin.
    intros [-> | ->]; destruct Hin as [[? ->] | [[? ?] | [[? ->] | [? ->]]]]; done.
Qed.

End adapter.

Lemma read_response_first_leg_witness :
  ∃ r, read_response two_leg_response = Ok r
    ∧ read_response (first_leg_only two_leg_response) = Ok r
    ∧ distance r = 12000
    ∧ duration r = 900
    ∧ (durationInTraffic r = 0 → duration r = 0)
    ∧ (Some {| tv_text := []; tv_value := 0 |} = None → durationInTraffic r = duration r)
    ∧ length (steps r) = 2%nat
    ∧ (∀ i step,
         [api_step "Head <b>north</b>"; api_step "Turn <b>left</b> onto Main St"] !! i
           = Some step →
         ∃ st, steps r !! i = Some st
           ∧ stepNumber st = Z.of_nat i + 1
           ∧ instruction st = strip_tags (html_instructions step)
           ∧ tagless (instruction st)
           ∧ maneuver st ≠ []).
Proof.
  refine (read_response_first_leg two_leg_response two_leg_route [] leg_one [leg_two] _ _);
    reflexivity.
Defined.

Lemma tool_queries_witness :
  let rq := traffic_request (trip "Concord, MA" "Boston, MA" None) in
  let p := directions_params (lit "key") rq in
  p_alternatives p = true
  ∧ p_departure_time p = Some (lit "now")
  ∧ p_key p = lit "key"
  ∧ (p_waypoints p = None ↔ default [] (rq_waypoints rq) = [])
  ∧ (p_avoid p = None ↔ rq_avoidTolls rq ≠ Some true ∧ rq_avoidHighways rq ≠ Some true)
  ∧ (lit "get_live_traffic" = lit "get_live_traffic"
     ∨ lit "get_live_traffic" = lit "estimate_costs" →
       p_waypoints p = None ∧ p_avoid p = None
       ∧ p_traffic_model p = lit "best_guess").
Proof.
  intros rq p.
  refine (tool_queries (lit "key") (lit "get_live_traffic")
            (trip "Concord, MA" "Boston, MA" None) rq _).
  exact (list_elem_of_here rq []).
Defined.

(** ** From the client to the caller *)

Section end_to_end.
Context (R : Runtime) (apiKey : jsstring).

Lemma service_call rq (o : @Outside (service R apiKey)) :
  @calculateRoute (service R apiKey) rq o =
    ((service_calculateRoute R apiKey rq (world o)).1,
     @Build_Outside (service R apiKey)
       (service_calculateRoute R apiKey rq (world o)).2 (issued o ++ [rq])).
Proof.
  unfold calculateRoute. cbn [googleMaps_calculateRoute service].
  by destruct (service_calculateRoute R apiKey rq (world o)).
Qed.

(** A failure of the client on its way to the caller of [get_live_traffic].
    It passes three [catch] blocks: the adapter words it, [getTrafficInfo]
    prefixes it, the dispatcher turns it into an error result.  The call
    still costs the caller one request of its window and the provider one
    query. *)
Theorem traffic_failure_reaches_caller args extra (s : @Server (service R apiKey)) e w1 :
  let admission :=
    checkRateLimit (getClientIP extra) (rt_Date_now R (world (outside s)))
      (requestCounts s) in
  admission.1 = true →
  client_directions R (directions_params apiKey (traffic_request args))
    (world (outside s)) = (inr e, w1) →
  @callTool (service R apiKey) (lit "get_live_traffic") args extra s =
    (Ok {| content :=
             [{| type := lit "text";
                 text := plain (lit "Error: Traffic info retrieval failed: "
                                ++ route_error e) |}];
           isError := Some true |},
     @Build_Server (service R apiKey) admission.2
       (@Build_Outside (service R apiKey) w1
          (issued (outside s) ++ [traffic_request args]))).
Proof.
  intros admission Hadmit Hclient.
  rewrite callTool_unfold. cbv zeta.
  change (Date_now (world (outside s))) with (rt_Date_now R (world (outside s))).
  fold admission. rewrite Hadmit.
  change (dispatch (lit "get_live_traffic") args (outside s))
    with (handleGetLiveTraffic args (outside s)).
  unfold handleGetLiveTraffic, getTrafficInfo.
  change (calculateRoute _ (outside s))
    with (@calculateRoute (service R apiKey) (traffic_request args) (outside s)).
  rewrite service_call. unfold service_calculateRoute. rewrite Hclient.
  cbn [fst snd]. done.
Qed.

(** A route on its way to the caller of [calculate_route].  What the caller
    sees of a response is its first route and first leg: that leg's meters
    and seconds, and at most its first 8 steps, numbered from 1 and free of
    markup. *)
Theorem route_reaches_caller args extra (s : @Server (service R apiKey))
    data route others leg later w1 :
  let admission :=
    checkRateLimit (getClientIP extra) (rt_Date_now R (world (outside s)))
      (requestCounts s) in
  admission.1 = true →
  ¬ (blank (origin args) ∨ blank (destination args)) →
  client_directions R (directions_params apiKey (calculate_request args))
    (world (outside s)) = (inl data, w1) →
  routes data = Some (route :: others) →
  legs route = leg :: later →
  ∃ r, (@callTool (service R apiKey) (lit "calculate_route") args extra s).1 =
         Ok (text_result (route_payload r))
    ∧ meters (ri_distance (rr_route r)) = tv_value (leg_distance leg)
    ∧ seconds (ri_duration (rr_route r)) = tv_value (leg_duration leg)
    ∧ ri_steps (rr_route r) = take 8 (imap convert_step (leg_steps leg))
    ∧ (∀ i st, ri_steps (rr_route r) !! i = Some st →
         (i < 8)%nat ∧ stepNumber st = Z.of_nat i + 1 ∧ tagless (instruction st)).
Proof.
  intros admission Hadmit Hnb Hclient Hroutes Hlegs.
  rewrite callTool_unfold. cbv zeta.
  change (Date_now (world (outside s))) with (rt_Date_now R (world (outside s))).
  fold admission. rewrite Hadmit. cbn [fst].
  change (dispatch (lit "calculate_route") args (outside s))
    with (handleCalculateRoute args (outside s)).
  rewrite (handleCalculateRoute_not_blank args (outside s) Hnb).
  rewrite service_call. unfold service_calculateRoute. rewrite Hclient.
  unfold read_response. rewrite Hroutes, Hlegs. cbn [fst snd].
  eexists. split; [reflexivity|]. cbn. split; [done|]. split; [done|].
  split; [done|]. intros i st Hst.
  apply lookup_take_Some in Hst as [Hst Hi]. split; [done|].
  rewrite list_lookup_imap in Hst.
  destruct (leg_steps leg !! i) as [step|]; [|done]. injection Hst as <-.
  cbn. split; [done | apply strip_from_tagless].
Qed.

End end_to_end.

Lemma traffic_failure_reaches_caller_witness :
  let R := runtime (λ _, inr over_quota) in
  let P := service R (lit "key") in
  let args := trip "Concord, MA" "Boston, MA" None in
  (@callTool P (lit "get_live_traffic") args (from ip_a) (server_at P 1000 ∅)).1 =
    Ok {| content :=
            [{| type := lit "text";
                text := plain (lit "Error: Traffic info retrieval failed: "
                               ++ lit "Google Maps API quota exceeded. Please try again later.") |}];
          isError := Some true |}.
Proof.
  intros R P args.
  exact (f_equal fst
           (traffic_failure_reaches_caller R (lit "key") args (from ip_a)
              (server_at P 1000 ∅) over_quota 1001 eq_refl eq_refl)).
Defined.

Lemma route_reaches_caller_witness :
  let R := runtime (λ _, inl two_leg_response) in
  let P := service R (lit "key") in
  let args := trip "Concord, MA" "Boston, MA" None in
  ∃ r, (@callTool P (lit "calculate_route") args (from ip_a) (server_at P 1000 ∅)).1 =
         Ok (text_result (route_payload r))
    ∧ meters (ri_distance (rr_route r)) = 12000
    ∧ seconds (ri_duration (rr_route r)) = 900
    ∧ ri_steps (rr_route r) = take 8 (imap convert_step (leg_steps leg_one))
    ∧ (∀ i st, ri_steps (rr_route r) !! i = Some st →
         (i < 8)%nat ∧ stepNumber st = Z.of_nat i + 1 ∧ tagless (instruction st)).
Proof.
  intros R P args.
  refine (route_reaches_caller R (lit "key") args (from ip_a) (server_at P 1000 ∅)
            two_leg_response two_leg_route [] leg_one [leg_two] 1001 _ _ _ _ _);
    try reflexivity.
  intros [Hb | Hb]; vm_compute in Hb; discriminate.
Defined.

(** ** Strings that reach the provider *)

Section strings.
Implicit Types s : jsstring.

Lemma trimStart_headed s : headed (trimStart s).
Proof.
  induction s as [|c s IH]; [done|]. cbn.
  by destruct (isWhiteSpace c) eqn:Hc.
Qed.

Lemma headed_trimStart s : headed s → trimStart s = s.
Proof. destruct s as [|c s]; [done|]. cbn. by intros ->. Qed.

Lemma trimStart_snoc s c :
  isWhiteSpace c = false → ∃ u, trimStart (s ++ [c]) = u ++ [c].
Proof.
  intros Hc. induction s as [|d s IH]; cbn.
  - rewrite Hc. by exists [].
  - destruct (isWhiteSpace d); [done|]. by exists (d :: s).
Qed.

Lemma trimEnd_headed s : headed s → headed (trimEnd s).
Proof.
  unfold trimEnd. destruct s as [|c s]; [done|]. cbn [headed]. intros Hc.
  cbn [rev]. destruct (trimStart_snoc (rev s) c Hc) as [u ->].
  by rewrite rev_app_distr.
Qed.

Lemma trimEnd_tailed s : headed (rev (trimEnd s)).
Proof. unfold trimEnd. rewrite rev_involutive. apply trimStart_headed. Qed.

Lemma trim_headed s : headed (trim s) ∧ headed (rev (trim s)).
Proof.
  unfold trim. split; [apply trimEnd_headed, trimStart_headed | apply trimEnd_tailed].
Qed.

(** Trimming what is trimmed changes nothing. *)
Lemma headed_trim s : headed s → headed (rev s) → trim s = s.
Proof.
  intros Hh Ht. unfold trim, trimEnd.
  by rewrite (headed_trimStart s), (headed_trimStart (rev s)), rev_involutive.
Qed.

Lemma trim_trim s : trim (trim s) = trim s.
Proof. apply headed_trim; apply trim_headed. Qed.

Lemma truthy_trimmed (s : option jsstring) :
  truthy (optional_trim s) = true → ∃ t, optional_trim s = Some t ∧ trimmed t.
Proof.
  destruct s as [s|]; cbn; [|done]. destruct (trim s) as [|c t] eqn:Ht; [done|].
  intros _. exists (c :: t). split; [done|]. split; [done|].
  rewrite <- Ht. apply trim_headed.
Qed.

(** The strings of the requests, for arguments that carry the keys of the
    input schemas and no others.  [calculate_route] sends its origin and
    destination trimmed and not empty, and of its waypoints the trimmed ones
    that are not blank, in their order.  The other three tools send origin
    and destination as they came, missing or blank as they may be. *)
Theorem request_strings name args rq :
  rq ∈ requests_of name args →
  (name = lit "calculate_route" →
     (∃ o d, rq_origin rq = Some o ∧ rq_destination rq = Some d
             ∧ trimmed o ∧ trimmed d)
     ∧ (∃ sent, rq_waypoints rq = Some sent
          ∧ sent = filter (λ w, w ≠ []) (trim <$> default [] (waypoints args))
          ∧ Forall trimmed sent))
  ∧ (name ≠ lit "calculate_route" →
       rq_origin rq = origin args ∧ rq_destination rq = destination args).
Proof.
  intros Hin. split.
  - intros ->. unfold requests_of in Hin. rewrite decide_True in Hin by done.
    case_decide as Hblank; [by apply elem_of_nil in Hin|].
    apply list_elem_of_singleton in Hin as ->.
    rewrite !blank_falsy in Hblank.
    destruct (truthy (optional_trim (origin args))) eqn:Ho; [|tauto].
    destruct (truthy (optional_trim (destination args))) eqn:Hd; [|tauto].
    destruct (truthy_trimmed _ Ho) as (o & Heqo & Hto).
    destruct (truthy_trimmed _ Hd) as (d & Heqd & Htd).
    split; [by exists o, d|]. eexists. split; [reflexivity|]. split; [done|].
    apply Forall_forall. intros w [Hne (w0 & -> & _)%list_elem_of_fmap]%list_elem_of_filter.
    split; [done | apply trim_headed].
  - intros Hname. apply requests_of_cases in Hin.
    destruct Hin as [[? _] | [[_ Hin] | [[_ ->] | [_ ->]]]]; try done.
    unfold compare_requests in Hin. apply elem_of_cons in Hin as [-> | Hin]; [done|].
    by apply list_elem_of_fmap in Hin as (option & -> & _).
Qed.

End strings.

Lemma request_strings_witness :
  let args :=
    {| origin := Some (lit "  Concord, MA"); destination := Some (lit "Boston, MA ");
       waypoints := Some [lit " Lexington "; lit "   "; lit "Arlington"];
       options := None; compareOptions := None; arg_departureTime := None;
       vehicleOptions := None |} in
  rq_origin (calculate_request args) = Some (lit "Concord, MA")
  ∧ rq_waypoints (calculate_request args) = Some [lit "Lexington"; lit "Arlington"]
  ∧ ∃ sent, rq_waypoints (calculate_request args) = Some sent ∧ Forall trimmed sent.
Proof.
  intros args. split; [reflexivity|]. split; [reflexivity|].
  destruct (proj1 (request_strings (lit "calculate_route") args
                     (calculate_request args) (list_elem_of_here _ [])) eq_refl)
    as (_ & sent & Hsent & _ & Htrimmed).
  by exists sent.
Defined.

(** ** The identity of a caller *)

Section identity.
Context `{Platform}.

Lemma str_or_ne (s : option jsstring) (d : jsstring) : d ≠ [] → str_or s d ≠ [].
Proof. by destruct s as [[|c s]|]. Qed.

Lemma split_first_plain (s : jsstring) : 0x2C%N ∉ s → split_first 0x2C s = s.
Proof.
  induction s as [|c s IH]; [done|]. intros [Hc Hs]%not_elem_of_cons. cbn.
  rewrite (proj2 (N.eqb_neq c 0x2C)) by done. f_equal. by apply IH.
Qed.

Lemma split_first_no_sep (s : jsstring) : 0x2C%N ∉ split_first 0x2C s.
Proof.
  induction s as [|c s IH]; cbn; [by intros ?%elem_of_nil|].
  destruct (N.eqb_spec c 0x2C); [by intros ?%elem_of_nil|].
  by intros [?|?]%elem_of_cons.
Qed.

(** The key of the rate limiter.  It is never the empty string.  When the
    forwarded-for header has a first entry that is not blank, the key is
    that entry, trimmed, whatever the addresses of the connection; with no
    header and no address it is "unknown". *)
Theorem getClientIP_key (extra : Extra) :
  getClientIP extra ≠ []
  ∧ (∀ header, x_forwarded_for extra = Some header →
       trim (split_first 0x2C header) ≠ [] →
       getClientIP extra = trim (split_first 0x2C header)
       ∧ trimmed (getClientIP extra))
  ∧ (x_forwarded_for extra = None → connection_remoteAddress extra = None →
     socket_remoteAddress extra = None → getClientIP extra = lit "unknown").
Proof.
  unfold getClientIP. split; [by do 3 apply str_or_ne|]. split.
  - intros header -> Hhop. cbn.
    destruct (trim (split_first 0x2C header)) as [|c hop] eqn:Htrim; [done|].
    split; [done|]. split; [done|]. rewrite <- Htrim. apply trim_headed.
  - by intros -> -> ->.
Qed.

Lemma plain_hop_headed n : headed (plain_hop n) ∧ headed (rev (plain_hop n)).
Proof.
  assert (∀ s : jsstring, (∀ c, c ∈ s → c = 0x61%N) → headed s) as Hh.
  { intros [|c s] Hs; [done|]. cbn. by rewrite (Hs c) by left. }
  split; apply Hh; intros c.
  - by intros ?%elem_of_replicate_inv.
  - intros Hin. apply list_elem_of_In, in_rev in Hin.
    apply list_elem_of_In in Hin.
    by apply elem_of_replicate_inv in Hin.
Qed.

Lemma getClientIP_plain_hop n conn sock :
  getClientIP {| x_forwarded_for := Some (plain_hop (S n));
                 connection_remoteAddress := conn;
                 socket_remoteAddress := sock |} = plain_hop (S n).
Proof.
  unfold getClientIP. cbn [x_forwarded_for optional_trim fmap option_fmap option_map].
  rewrite split_first_plain by (by intros [? _]%elem_of_replicate).
  rewrite headed_trim by apply plain_hop_headed. done.
Qed.

(** The key is the caller's to choose.  Whatever windows the server holds,
    some forwarded-for header names an identity without one, and a call
    that carries it is admitted, whatever the address it comes from. *)
Theorem forwarded_header_opens_window (requestCounts : gmap jsstring RateWindow) now :
  ∃ header, ∀ conn sock,
    let extra := {| x_forwarded_for := Some header;
                    connection_remoteAddress := conn;
                    socket_remoteAddress := sock |} in
    requestCounts !! getClientIP extra = None
    ∧ (checkRateLimit (getClientIP extra) now requestCounts).1 = true.
Proof.
  set (n := max_list (length <$> (map_to_list requestCounts).*1)).
  exists (plain_hop (S n)). intros conn sock extra. subst extra.
  rewrite getClientIP_plain_hop.
  assert (requestCounts !! plain_hop (S n) = None) as Hfresh.
  { destruct (requestCounts !! plain_hop (S n)) as [w|] eqn:Hw; [|done].
    apply elem_of_map_to_list in Hw.
    assert (length (plain_hop (S n)) ≤ n)%nat as Hle.
    { apply max_list_elem_of_le, list_elem_of_fmap. exists (plain_hop (S n)).
      split; [done|]. apply list_elem_of_fmap. by exists (plain_hop (S n), w). }
    unfold plain_hop in Hle. rewrite length_replicate in Hle. lia. }
  split; [done|]. rewrite checkRateLimit_fresh; [done|].
  unfold starts_window. by rewrite Hfresh.
Qed.

(** Both request handlers charge the caller before anything else: after a
    tools/list request and after a tools/call request, whatever its tool
    name, arguments and outcome, the map holds the same windows, the
    caller's being the one [checkRateLimit] stores. *)
Theorem handlers_charge_alike name args extra s :
  let ip := getClientIP extra in
  let now := Date_now (world (outside s)) in
  requestCounts (callTool name args extra s).2 = requestCounts (listTools extra s).2
  ∧ requestCounts (listTools extra s).2 !! ip =
      Some (next_window now (requestCounts s !! ip))
  ∧ (∀ ip', ip' ≠ ip →
       requestCounts (listTools extra s).2 !! ip' = requestCounts s !! ip')
  ∧ outside (listTools extra s).2 = outside s.
Proof.
  intros ip now. rewrite callTool_unfold. cbv zeta. unfold listTools.
  fold ip now. rewrite checkRateLimit_next. cbn [fst snd].
  destruct (count _ <=? RATE_LIMIT); cbn [negb snd requestCounts outside];
    (split; [done|]); (split; [by rewrite lookup_insert_eq|]);
    (split; [|done]); intros ip' Hne; by rewrite lookup_insert_ne.
Qed.

End identity.

(** ** The HTTP listener *)

Section listener.
Context `{Platform}.

Lemma startsWith_prefix (s prefix : jsstring) :
  startsWith s prefix = true ↔ ∃ rest, s = prefix ++ rest.
Proof.
  revert s. induction prefix as [|p prefix IH]; intros [|c s]; cbn [startsWith app].
  - split; [by exists [] | done].
  - split; [by exists (c :: s) | done].
  - split; [done | by intros [rest ?]].
  - rewrite andb_true_iff, N.eqb_eq, IH. split.
    + intros [-> [rest ->]]. by exists rest.
    + intros [rest Heq]. injection Heq as -> ->. split; [done | by exists rest].
Qed.

(** The routes of the listener.  Every request gets the three CORS headers.
    [OPTIONS] is answered 200 with no body on any path.  Otherwise the
    paths "/", "/health" and "/stats" are answered 200 when they match to
    the letter; a path that starts with "/sse" is left to the transport;
    every other path is answered 404. *)
Theorem onRequest_routes req s :
  let answer := res_answer (onRequest req s) in
  let known := [lit "/"; lit "/health"; lit "/stats"] in
  res_headers (onRequest req s) = cors_headers
  ∧ (req_method req = lit "OPTIONS" →
       answer = Some {| ans_status := 200; ans_content_type := None;
                        ans_body := no_body |})
  ∧ (req_method req ≠ lit "OPTIONS" →
       (ans_status <$> answer = Some 200 ↔ req_url req ∈ known)
       ∧ (answer = None ↔ ∃ rest, req_url req = lit "/sse" ++ rest)
       ∧ (ans_status <$> answer = Some 404 ↔
            (req_url req ∉ known) ∧ ¬ (∃ rest, req_url req = lit "/sse" ++ rest))).
Proof.
  intros answer known. subst answer known. unfold onRequest. cbn [res_headers res_answer].
  split; [done|]. split; [by intros ->|]. intros Hmethod.
  rewrite decide_False by done. rewrite <- startsWith_prefix.
  rewrite !elem_of_cons, elem_of_nil.
  destruct (decide (req_url req = lit "/")) as [->|H1]; [intuition done|].
  rewrite (bool_decide_eq_false_2 _ H1). cbn [orb].
  destruct (decide (req_url req = lit "/health")) as [->|H2]; [intuition done|].
  rewrite (bool_decide_eq_false_2 _ H2).
  destruct (decide (req_url req = lit "/stats")) as [->|H3]; [intuition done|].
  destruct (startsWith (req_url req) (lit "/sse")); cbn; intuition done.
Qed.

End listener.

Example onRequest_samples :
  let P := platform (λ _, Ok winding_route) in
  let s := server_at P 1000 ∅ in
  let status (method url : String.string) :=
    ans_status <$> res_answer (@onRequest P {| req_method := lit method;
                                               req_url := lit url |} s) in
  (status "GET" "/health" = Some 200
   ∧ status "GET" "/health?probe=1" = Some 404
   ∧ status "GET" "/stats/" = Some 404
   ∧ status "POST" "/sse" = None
   ∧ status "GET" "/sse-anything" = None
   ∧ status "OPTIONS" "/nowhere" = Some 200)%string.
Proof. by vm_compute. Qed.
